(** * TOPP-RA reachability solver ([toppra/TOPP.py]): model and properties

    The class [qpOASESPPSolver] is embedded as a record of its attributes
    and its methods as computations in a state-and-exception monad over
    that record.  Python floats are IEEE binary64 numbers, modelled by
    Rocq's primitive floats, so NaN and the comparison rules are the ones
    the interpreter applies.  The dense QP solver ([qpoases.PySQProblem])
    is a foreign library: it enters as an interface ([QPBackend]) whose
    two instances [solver_up] and [solver_down] carry their own state. *)

From Stdlib Require Import Floats ZArith String.
From stdpp Require Import base option list.

Set Warnings "-inexact-float".

Module TOPP.

(** ** Scalars *)

Abbreviation vec := (list float).
Abbreviation mat := (list (list float)).

(** Python comparison operators on floats; all of them are false on NaN. *)
Definition py_lt (a b : float) : bool := PrimFloat.ltb a b.
Definition py_gt (a b : float) : bool := PrimFloat.ltb b a.
Definition py_le (a b : float) : bool := PrimFloat.leb a b.
Definition py_ge (a b : float) : bool := PrimFloat.leb b a.

(** Builtins [max(a, b)] and [min(a, b)]: the first argument is kept
    unless the second compares strictly beyond it. *)
Definition py_max (a b : float) : float := if py_gt b a then b else a.
Definition py_min (a b : float) : float := if py_lt b a then b else a.

(** Module constants. *)
Definition SUCCESSFUL_RETURN : Z := 0.
Definition SUPERTINY : float := 1e-10.
Definition TINY : float := 1e-8.
Definition SMALL : float := 1e-5.
Definition INFTY : float := 1e8.
Definition MAXU : float := 100.
Definition MAXX : float := 100.

Definition qpOASESReturnValueDict : list (Z * string) :=
  [ (0%Z, "SUCCESSFUL_RETURN"%string);
    (61%Z, "HOTSTART_STOPPED_INFEASIBILITY"%string);
    (33%Z, "INIT_FAILED"%string);
    (35%Z, "INIT_FAILED_CHOLESKY"%string);
    (38%Z, "INIT_FAILED_UNBOUNDEDNESS"%string);
    (34%Z, "INIT_FAILED_TQ"%string);
    (36%Z, "INIT_FAILED_HOTSTART"%string);
    (37%Z, "INIT_FAILED_INFEASIBILITY "%string) ].

Fixpoint dict_get (d : list (Z * string)) (k : Z) : option string :=
  match d with
  | [] => None
  | (k', v) :: d' => if Z.eqb k' k then Some v else dict_get d' k
  end.

(** ** Exceptions and the method monad *)

Inductive exn :=
  | IndexError
  | KeyError (k : Z)
  | AssertionError (msg : string)
  | ValueError (msg : string).

Inductive res (A : Type) :=
  | Ok (a : A)
  | Raise (e : exn).
Arguments Ok {A} a.
Arguments Raise {A} e.

(** ** The QP backend

    [SQProblem(nV, nC)] (with the print level set from [verbose]) keeps
    an active set between calls.  [qp_init] is a cold start, [qp_hotstart]
    reuses the active set; both return the status code and leave the
    solution in the solver object, from which [getPrimalSolution] and
    [getObjVal] read it.

    The other thing the file takes from outside is memory: [np.empty]
    returns an array of the shape asked for and leaves its entries as it
    finds them; [uninitialised r c] is the float found at row [r],
    column [c]. *)

Record qp_problem := QProblem {
  p_H : mat; p_g : vec; p_A : mat; p_l : vec; p_h : vec;
  p_lA : vec; p_hA : vec; p_nWSR : Z }.

Class QPBackend := {
  QP : Type;
  SQProblem : nat -> nat -> bool -> QP;
  qp_init : QP -> qp_problem -> Z * QP;
  qp_hotstart : QP -> qp_problem -> Z * QP;
  getPrimalSolution : QP -> vec;
  getObjVal : QP -> float;
  uninitialised : nat -> nat -> float }.

(** The variable bounds [l <= z <= h] of a problem, entry by entry. *)
Fixpoint vec_le (a b : vec) : bool :=
  match a, b with
  | [], [] => true
  | x :: a', y :: b' => py_le x y && vec_le a' b'
  | _, _ => false
  end.

Definition in_box (p : qp_problem) (z : vec) : bool :=
  vec_le (p_l p) z && vec_le z (p_h p).

(** ** Array access

    Indices are the loop counters of the sweeps, hence naturals; a
    subscript past the end raises [IndexError] as numpy does. *)

Definition get2 {A} (m : list (list A)) (i j : nat) : option A :=
  row ← m !! i; row !! j.

Definition set1 {A} (v : list A) (i : nat) (x : A) : option (list A) :=
  if decide (i < length v) then Some (<[i := x]> v) else None.

Definition set2 {A} (m : list (list A)) (i j : nat) (x : A)
  : option (list (list A)) :=
  row ← m !! i; row' ← set1 row j x; Some (<[i := row']> m).

Definition set3 {A} (t : list (list (list A))) (i j k : nat) (x : A)
  : option (list (list (list A))) :=
  m ← t !! i; m' ← set2 m j k x; Some (<[i := m']> t).

(** Slice assignments [a[:n] = 0.] and [m[:n] = 0.] (slices clip). *)
Definition zero_prefix (n : nat) (v : vec) : vec :=
  imap (fun k x => if decide (k < n) then 0%float else x) v.

Definition zero_vec (v : vec) : vec := (fun _ => 0%float) <$> v.

Definition zero_rows (n : nat) (m : mat) : mat :=
  imap (fun r row => if decide (r < n) then zero_vec row else row) m.

(** ** The solver object

    One field per attribute of [qpOASESPPSolver] that the methods below
    read or write.  [_yfull] and [_yfulls] are allocated and never read.
    [constraint_set] is read by the matrix assembly only, and the row
    counts [nm], [neq], [niq] enter through [nC]; they are left out.
    [I0], [IN] and the rows of [_K] and [_L] are arrays of exactly two
    floats and are kept as pairs (lower, upper).  [A] is indexed by stage,
    then row, then column. *)

Section Solver.
Context {B : QPBackend}.

Record solver := Solver {
  I0 : float * float;
  IN : float * float;
  ss : vec;
  Ds : vec;
  N : nat;
  _K : list (float * float);
  _L : list (float * float);
  nop : nat;
  nv : nat;
  nV : nat;
  nC : nat;
  H : mat;
  g : vec;
  l : mat;
  h : mat;
  lA : mat;
  hA : mat;
  A : list mat;
  _xfull : vec;
  nWSR_cnst : Z;
  nWSR_up : list (list Z);
  nWSR_down : list (list Z);
  solver_up : QP;
  solver_down : QP;
  _xfulls : list vec;
  _yfull : vec;
  _yfulls : list vec }.

Definition set_I0 (v : float * float) (s : solver) : solver :=
  {| I0 := v; IN := IN s; ss := ss s; Ds := Ds s; N := N s; _K := _K s;
     _L := _L s; nop := nop s; nv := nv s; nV := nV s; nC := nC s;
     H := H s; g := g s; l := l s; h := h s; lA := lA s; hA := hA s;
     A := A s; _xfull := _xfull s; nWSR_cnst := nWSR_cnst s;
     nWSR_up := nWSR_up s; nWSR_down := nWSR_down s;
     solver_up := solver_up s; solver_down := solver_down s;
     _xfulls := _xfulls s; _yfull := _yfull s;
     _yfulls := _yfulls s |}.

Definition set_IN (v : float * float) (s : solver) : solver :=
  {| I0 := I0 s; IN := v; ss := ss s; Ds := Ds s; N := N s; _K := _K s;
     _L := _L s; nop := nop s; nv := nv s; nV := nV s; nC := nC s;
     H := H s; g := g s; l := l s; h := h s; lA := lA s; hA := hA s;
     A := A s; _xfull := _xfull s; nWSR_cnst := nWSR_cnst s;
     nWSR_up := nWSR_up s; nWSR_down := nWSR_down s;
     solver_up := solver_up s; solver_down := solver_down s;
     _xfulls := _xfulls s; _yfull := _yfull s;
     _yfulls := _yfulls s |}.

Definition set_K (v : list (float * float)) (s : solver) : solver :=
  {| I0 := I0 s; IN := IN s; ss := ss s; Ds := Ds s; N := N s; _K := v;
     _L := _L s; nop := nop s; nv := nv s; nV := nV s; nC := nC s;
     H := H s; g := g s; l := l s; h := h s; lA := lA s; hA := hA s;
     A := A s; _xfull := _xfull s; nWSR_cnst := nWSR_cnst s;
     nWSR_up := nWSR_up s; nWSR_down := nWSR_down s;
     solver_up := solver_up s; solver_down := solver_down s;
     _xfulls := _xfulls s; _yfull := _yfull s;
     _yfulls := _yfulls s |}.

Definition set_L (v : list (float * float)) (s : solver) : solver :=
  {| I0 := I0 s; IN := IN s; ss := ss s; Ds := Ds s; N := N s; _K := _K s;
     _L := v; nop := nop s; nv := nv s; nV := nV s; nC := nC s; H := H s;
     g := g s; l := l s; h := h s; lA := lA s; hA := hA s; A := A s;
     _xfull := _xfull s; nWSR_cnst := nWSR_cnst s; nWSR_up := nWSR_up s;
     nWSR_down := nWSR_down s; solver_up := solver_up s;
     solver_down := solver_down s; _xfulls := _xfulls s; _yfull := _yfull s;
     _yfulls := _yfulls s |}.

Definition set_H (v : mat) (s : solver) : solver :=
  {| I0 := I0 s; IN := IN s; ss := ss s; Ds := Ds s; N := N s; _K := _K s;
     _L := _L s; nop := nop s; nv := nv s; nV := nV s; nC := nC s; H := v;
     g := g s; l := l s; h := h s; lA := lA s; hA := hA s; A := A s;
     _xfull := _xfull s; nWSR_cnst := nWSR_cnst s; nWSR_up := nWSR_up s;
     nWSR_down := nWSR_down s; solver_up := solver_up s;
     solver_down := solver_down s; _xfulls := _xfulls s; _yfull := _yfull s;
     _yfulls := _yfulls s |}.

Definition set_g (v : vec) (s : solver) : solver :=
  {| I0 := I0 s; IN := IN s; ss := ss s; Ds := Ds s; N := N s; _K := _K s;
     _L := _L s; nop := nop s; nv := nv s; nV := nV s; nC := nC s;
     H := H s; g := v; l := l s; h := h s; lA := lA s; hA := hA s;
     A := A s; _xfull := _xfull s; nWSR_cnst := nWSR_cnst s;
     nWSR_up := nWSR_up s; nWSR_down := nWSR_down s;
     solver_up := solver_up s; solver_down := solver_down s;
     _xfulls := _xfulls s; _yfull := _yfull s;
     _yfulls := _yfulls s |}.

Definition set_lA (v : mat) (s : solver) : solver :=
  {| I0 := I0 s; IN := IN s; ss := ss s; Ds := Ds s; N := N s; _K := _K s;
     _L := _L s; nop := nop s; nv := nv s; nV := nV s; nC := nC s;
     H := H s; g := g s; l := l s; h := h s; lA := v; hA := hA s; A := A s;
     _xfull := _xfull s; nWSR_cnst := nWSR_cnst s; nWSR_up := nWSR_up s;
     nWSR_down := nWSR_down s; solver_up := solver_up s;
     solver_down := solver_down s; _xfulls := _xfulls s; _yfull := _yfull s;
     _yfulls := _yfulls s |}.

Definition set_hA (v : mat) (s : solver) : solver :=
  {| I0 := I0 s; IN := IN s; ss := ss s; Ds := Ds s; N := N s; _K := _K s;
     _L := _L s; nop := nop s; nv := nv s; nV := nV s; nC := nC s;
     H := H s; g := g s; l := l s; h := h s; lA := lA s; hA := v; A := A s;
     _xfull := _xfull s; nWSR_cnst := nWSR_cnst s; nWSR_up := nWSR_up s;
     nWSR_down := nWSR_down s; solver_up := solver_up s;
     solver_down := solver_down s; _xfulls := _xfulls s; _yfull := _yfull s;
     _yfulls := _yfulls s |}.

Definition set_A (v : list mat) (s : solver) : solver :=
  {| I0 := I0 s; IN := IN s; ss := ss s; Ds := Ds s; N := N s; _K := _K s;
     _L := _L s; nop := nop s; nv := nv s; nV := nV s; nC := nC s;
     H := H s; g := g s; l := l s; h := h s; lA := lA s; hA := hA s;
     A := v; _xfull := _xfull s; nWSR_cnst := nWSR_cnst s;
     nWSR_up := nWSR_up s; nWSR_down := nWSR_down s;
     solver_up := solver_up s; solver_down := solver_down s;
     _xfulls := _xfulls s; _yfull := _yfull s;
     _yfulls := _yfulls s |}.

Definition set_xfull (v : vec) (s : solver) : solver :=
  {| I0 := I0 s; IN := IN s; ss := ss s; Ds := Ds s; N := N s; _K := _K s;
     _L := _L s; nop := nop s; nv := nv s; nV := nV s; nC := nC s;
     H := H s; g := g s; l := l s; h := h s; lA := lA s; hA := hA s;
     A := A s; _xfull := v; nWSR_cnst := nWSR_cnst s; nWSR_up := nWSR_up s;
     nWSR_down := nWSR_down s; solver_up := solver_up s;
     solver_down := solver_down s; _xfulls := _xfulls s; _yfull := _yfull s;
     _yfulls := _yfulls s |}.

Definition set_nWSR_up (v : list (list Z)) (s : solver) : solver :=
  {| I0 := I0 s; IN := IN s; ss := ss s; Ds := Ds s; N := N s; _K := _K s;
     _L := _L s; nop := nop s; nv := nv s; nV := nV s; nC := nC s;
     H := H s; g := g s; l := l s; h := h s; lA := lA s; hA := hA s;
     A := A s; _xfull := _xfull s; nWSR_cnst := nWSR_cnst s; nWSR_up := v;
     nWSR_down := nWSR_down s; solver_up := solver_up s;
     solver_down := solver_down s; _xfulls := _xfulls s; _yfull := _yfull s;
     _yfulls := _yfulls s |}.

Definition set_nWSR_down (v : list (list Z)) (s : solver) : solver :=
  {| I0 := I0 s; IN := IN s; ss := ss s; Ds := Ds s; N := N s; _K := _K s;
     _L := _L s; nop := nop s; nv := nv s; nV := nV s; nC := nC s;
     H := H s; g := g s; l := l s; h := h s; lA := lA s; hA := hA s;
     A := A s; _xfull := _xfull s; nWSR_cnst := nWSR_cnst s;
     nWSR_up := nWSR_up s; nWSR_down := v; solver_up := solver_up s;
     solver_down := solver_down s; _xfulls := _xfulls s; _yfull := _yfull s;
     _yfulls := _yfulls s |}.

Definition set_solver_up (v : QP) (s : solver) : solver :=
  {| I0 := I0 s; IN := IN s; ss := ss s; Ds := Ds s; N := N s; _K := _K s;
     _L := _L s; nop := nop s; nv := nv s; nV := nV s; nC := nC s;
     H := H s; g := g s; l := l s; h := h s; lA := lA s; hA := hA s;
     A := A s; _xfull := _xfull s; nWSR_cnst := nWSR_cnst s;
     nWSR_up := nWSR_up s; nWSR_down := nWSR_down s; solver_up := v;
     solver_down := solver_down s; _xfulls := _xfulls s; _yfull := _yfull s;
     _yfulls := _yfulls s |}.

Definition set_solver_down (v : QP) (s : solver) : solver :=
  {| I0 := I0 s; IN := IN s; ss := ss s; Ds := Ds s; N := N s; _K := _K s;
     _L := _L s; nop := nop s; nv := nv s; nV := nV s; nC := nC s;
     H := H s; g := g s; l := l s; h := h s; lA := lA s; hA := hA s;
     A := A s; _xfull := _xfull s; nWSR_cnst := nWSR_cnst s;
     nWSR_up := nWSR_up s; nWSR_down := nWSR_down s;
     solver_up := solver_up s; solver_down := v; _xfulls := _xfulls s; _yfull := _yfull s;
     _yfulls := _yfulls s |}.

Definition set_xfulls (v : list vec) (s : solver) : solver :=
  {| I0 := I0 s; IN := IN s; ss := ss s; Ds := Ds s; N := N s; _K := _K s;
     _L := _L s; nop := nop s; nv := nv s; nV := nV s; nC := nC s;
     H := H s; g := g s; l := l s; h := h s; lA := lA s; hA := hA s;
     A := A s; _xfull := _xfull s; nWSR_cnst := nWSR_cnst s;
     nWSR_up := nWSR_up s; nWSR_down := nWSR_down s;
     solver_up := solver_up s; solver_down := solver_down s;
     _xfulls := v; _yfull := _yfull s; _yfulls := _yfulls s |}.

Definition set_yfulls (v : list vec) (s : solver) : solver :=
  {| I0 := I0 s; IN := IN s; ss := ss s; Ds := Ds s; N := N s; _K := _K s;
     _L := _L s; nop := nop s; nv := nv s; nV := nV s; nC := nC s;
     H := H s; g := g s; l := l s; h := h s; lA := lA s; hA := hA s;
     A := A s; _xfull := _xfull s; nWSR_cnst := nWSR_cnst s;
     nWSR_up := nWSR_up s; nWSR_down := nWSR_down s;
     solver_up := solver_up s; solver_down := solver_down s;
     _xfulls := _xfulls s; _yfull := _yfull s; _yfulls := v |}.

(** ** Methods as computations

    A method maps the object to a result and the object after the call.
    A raised exception keeps the mutations made before it. *)

Definition M (X : Type) : Type := solver -> res X * solver.

Global Instance M_ret : MRet M := fun X x s => (Ok x, s).
Global Instance M_bind : MBind M := fun X Y f m s =>
  match m s with
  | (Ok x, s') => f x s'
  | (Raise e, s') => (Raise e, s')
  end.

Definition raise {X} (e : exn) : M X := fun s => (Raise e, s).
Definition get : M solver := fun s => (Ok s, s).
Definition modify (f : solver -> solver) : M unit := fun s => (Ok tt, f s).

Definition index {X} (o : option X) : M X :=
  match o with Some x => mret x | None => raise IndexError end.

Definition py_assert (b : bool) (msg : string) : M unit :=
  if b then mret tt else raise (AssertionError msg).

(** Element reads and writes on the attributes. *)
Definition A_set (i r c : nat) (v : float) : M unit :=
  s ← get; t ← index (set3 (A s) i r c v); modify (set_A t).
Definition lA_set (i r : nat) (v : float) : M unit :=
  s ← get; t ← index (set2 (lA s) i r v); modify (set_lA t).
Definition hA_set (i r : nat) (v : float) : M unit :=
  s ← get; t ← index (set2 (hA s) i r v); modify (set_hA t).
Definition g_set (k : nat) (v : float) : M unit :=
  s ← get; t ← index (set1 (g s) k v); modify (set_g t).
Definition ss_at (i : nat) : M float := s ← get; index (ss s !! i).
Definition Ds_at (i : nat) : M float := s ← get; index (Ds s !! i).
Definition xfull_at (k : nat) : M float := s ← get; index (_xfull s !! k).

Definition K_lo (i : nat) : M float := s ← get; row ← index (_K s !! i); mret row.1.
Definition K_hi (i : nat) : M float := s ← get; row ← index (_K s !! i); mret row.2.
Definition K_set_lo (i : nat) (v : float) : M unit :=
  s ← get; row ← index (_K s !! i);
  modify (set_K (<[i := (v, row.2)]> (_K s))).
Definition K_set_hi (i : nat) (v : float) : M unit :=
  s ← get; row ← index (_K s !! i);
  modify (set_K (<[i := (row.1, v)]> (_K s))).
Definition L_lo (i : nat) : M float := s ← get; row ← index (_L s !! i); mret row.1.
Definition L_hi (i : nat) : M float := s ← get; row ← index (_L s !! i); mret row.2.
Definition L_set_lo (i : nat) (v : float) : M unit :=
  s ← get; row ← index (_L s !! i);
  modify (set_L (<[i := (v, row.2)]> (_L s))).
Definition L_set_hi (i : nat) (v : float) : M unit :=
  s ← get; row ← index (_L s !! i);
  modify (set_L (<[i := (row.1, v)]> (_L s))).

(** The argument list [(H, g, A[i], l[i], h[i], lA[i], hA[i], nWSR)]
    of a solver call, read off the object when the call is made. *)
Definition problem_at (s : solver) (i : nat) : option qp_problem :=
  Ai ← A s !! i; li ← l s !! i; hi ← h s !! i;
  lAi ← lA s !! i; hAi ← hA s !! i;
  Some (QProblem (H s) (g s) Ai li hi lAi hAi (nWSR_cnst s)).

Definition stage_problem (i : nat) : M qp_problem :=
  s ← get; index (problem_at s i).

(** [solver.init(...)] when [init], [solver.hotstart(...)] otherwise. *)
Definition qp_solve (init : bool) : QP -> qp_problem -> Z * QP :=
  if init then qp_init else qp_hotstart.

Definition call_up (init : bool) (i : nat) : M Z :=
  p ← stage_problem i; s ← get;
  let r := qp_solve init (solver_up s) p in
  modify (set_solver_up r.2);; mret r.1.

Definition call_down (init : bool) (i : nat) : M Z :=
  p ← stage_problem i; s ← get;
  let r := qp_solve init (solver_down s) p in
  modify (set_solver_down r.2);; mret r.1.

(** [solver.getPrimalSolution(self._xfull)] fills the buffer. *)
Definition primal_up : M unit :=
  s ← get; modify (set_xfull (getPrimalSolution (solver_up s))).
Definition primal_down : M unit :=
  s ← get; modify (set_xfull (getPrimalSolution (solver_down s))).

Definition failed (res_up res_down : Z) : bool :=
  negb (Z.eqb res_up SUCCESSFUL_RETURN)
  || negb (Z.eqb res_down SUCCESSFUL_RETURN).

(** ** [reset_operational_rows] *)

Definition reset_operational_rows : M unit :=
  s ← get;
  modify (set_A (zero_rows (nop s) <$> A s));;
  modify (set_lA (zero_prefix (nop s) <$> lA s));;
  modify (set_hA (zero_prefix (nop s) <$> hA s));;
  modify (set_H (zero_vec <$> H s));;
  modify (set_g (zero_vec (g s))).

(** ** Set-projection primitives

    Each returns [None] for the Python pair [(None, None)]. *)

Definition one_step (i : nat) (xmin xmax : float) (init : bool)
  : M (option (float * float)) :=
  reset_operational_rows;;
  A_set i 0 1 1%float;;
  s1 ← ss_at (i + 1); s0 ← ss_at i;
  A_set i 0 0 (2 * (s1 - s0))%float;;
  lA_set i 0 xmin;;
  hA_set i 0 xmax;;
  g_set 1 (-1)%float;;
  res_up ← call_up init i;
  g_set 1 1%float;;
  res_down ← call_down init i;
  if failed res_up res_down then mret None
  else
    primal_up;; xmax_i ← xfull_at 1;
    primal_down;; xmin_i ← xfull_at 1;
    mret (Some (xmin_i, xmax_i)).

Definition reach (i : nat) (xmin xmax : float) (init : bool)
  : M (option (float * float)) :=
  A_set i 0 1 1%float;;
  A_set i 0 0 0%float;;
  lA_set i 0 xmin;;
  hA_set i 0 xmax;;
  s1 ← ss_at (i + 1); s0 ← ss_at i;
  g_set 0 (-2 * (s1 - s0))%float;;
  g_set 1 (-1)%float;;
  res_up ← call_up init i;
  s1 ← ss_at (i + 1); s0 ← ss_at i;
  g_set 0 (2 * (s1 - s0))%float;;
  g_set 1 1%float;;
  res_down ← call_down init i;
  if failed res_up res_down then mret None
  else
    s ← get;
    let xmax_i := (- getObjVal (solver_up s))%float in
    let xmin_i := getObjVal (solver_down s) in
    mret (Some (xmin_i, xmax_i)).

Definition proj_assert_msg : string :=
  "i:= {:d}, xmin:= {:f}, xmax:={:f}".

Definition proj_x_admissible (i : nat) (xmin xmax : float) (init : bool)
  : M (option (float * float)) :=
  A_set i 0 1 1%float;;
  A_set i 0 0 0%float;;
  lA_set i 0 xmin;;
  hA_set i 0 xmax;;
  g_set 0 0%float;;
  g_set 1 (-1)%float;;
  res_up ← call_up init i;
  g_set 0 0%float;;
  g_set 1 1%float;;
  res_down ← call_down init i;
  if failed res_up res_down then
    (* the second warning looks the status up in the dictionary *)
    match dict_get qpOASESReturnValueDict res_up with
    | Some _ => mret None
    | None => raise (KeyError res_up)
    end
  else
    primal_up;; xmax_i ← xfull_at 1;
    primal_down;; xmin_i ← xfull_at 1;
    py_assert (py_le xmin_i (xmax_i + SUPERTINY)%float) proj_assert_msg;;
    let xmax_i := if py_gt xmin_i xmax_i then xmin_i else xmax_i in
    mret (Some (xmin_i, xmax_i)).

(** [H[2:, 2:] += np.eye(nv) * reg]; [H] is [(nv + 2) x (nv + 2)], so the
    slice has the shape of the identity block. *)
Definition add_reg (reg : float) (Hm : mat) : mat :=
  imap (fun r row =>
    if decide (2 <= r) then
      imap (fun c x =>
        if decide (2 <= c)
        then (x + (if decide (r = c) then 1 else 0) * reg)%float
        else x) row
    else row) Hm.

Definition regularize (reg : float) : M unit :=
  s ← get;
  if decide (nv s = 0) then mret tt else modify (set_H (add_reg reg (H s))).

Definition negative_state_msg : string :=
  "Negative state (forward pass):={:f}".

Definition greedy_step (i : nat) (x xmin xmax : float) (init : bool)
    (reg : float) : M (option (float * float)) :=
  reset_operational_rows;;
  A_set i 0 1 1%float;;
  A_set i 0 0 0%float;;
  lA_set i 0 x;;
  hA_set i 0 x;;
  lA_set i 1 xmin;;
  hA_set i 1 xmax;;
  A_set i 1 1 1%float;;
  d ← Ds_at i;
  A_set i 1 0 (2 * d)%float;;
  g_set 0 (-1)%float;;
  regularize reg;;
  res_up ← call_up init i;
  if negb (Z.eqb res_up SUCCESSFUL_RETURN) then mret None
  else
    primal_up;;
    u_greedy ← xfull_at 0;
    d ← Ds_at i;
    let x_greedy := (x + 2 * d * u_greedy)%float in
    py_assert (py_ge (x_greedy + SUPERTINY)%float 0%float)
      negative_state_msg;;
    let x_greedy :=
      if py_lt x_greedy 0%float then (x_greedy + SUPERTINY)%float
      else x_greedy in
    mret (Some (u_greedy, x_greedy)).

(** Row assignment [A[i, r] = [a, b]]: the list must have the length of
    the row, else numpy cannot broadcast it. *)
Definition A_set_row (i r : nat) (vals : vec) : M unit :=
  s ← get;
  m ← index (A s !! i); row ← index (m !! r);
  if decide (length row = length vals)
  then modify (set_A (<[i := <[r := vals]> m]> (A s)))
  else raise (ValueError "could not broadcast input array").

Definition least_greedy_step (i : nat) (x xmin xmax : float) (init : bool)
    (reg : float) : M (option (float * float)) :=
  reset_operational_rows;;
  A_set_row i 0 [0; 1]%float;;
  lA_set i 0 x;;
  hA_set i 0 x;;
  d ← Ds_at i;
  A_set_row i 1 [(2 * d)%float; 1%float];;
  lA_set i 1 xmin;;
  hA_set i 1 xmax;;
  g_set 0 1%float;;
  regularize reg;;
  res_up ← call_up init i;
  if negb (Z.eqb res_up SUCCESSFUL_RETURN) then mret None
  else
    primal_up;;
    u_least_greedy ← xfull_at 0;
    d ← Ds_at i;
    let x_least_greedy := (x + 2 * d * u_least_greedy)%float in
    py_assert (py_ge (x_least_greedy + SUPERTINY)%float 0%float)
      negative_state_msg;;
    let x_least_greedy :=
      if py_lt x_least_greedy 0%float
      then (x_least_greedy + SUPERTINY)%float
      else x_least_greedy in
    mret (Some (u_least_greedy, x_least_greedy)).

(** ** Sweeps *)

(** The loop [for i in range(N - 1, -1, -1)] of [solve_controllable_sets],
    with [k] stages left: the next stage is [k - 1]. *)
Fixpoint backward_loop (eps : float) (k : nat) (init : bool) : M bool :=
  match k with
  | 0 => mret true
  | S i =>
      lo ← K_lo (i + 1); hi ← K_hi (i + 1);
      r ← one_step i lo hi init;
      match r with
      | None => mret false
      | Some (xmin_i, xmax_i) =>
          K_set_hi i (xmax_i - eps)%float;;
          K_set_lo i (py_max xmin_i 0%float);;
          backward_loop eps i false
      end
  end.

Definition solve_controllable_sets (eps : float) : M bool :=
  reset_operational_rows;;
  s ← get;
  modify (set_nWSR_up (replicate (N s + 1) [nWSR_cnst s]));;
  modify (set_nWSR_down (replicate (N s + 1) [nWSR_cnst s]));;
  r ← proj_x_admissible (N s) (IN s).1 (IN s).2 true;
  match r with
  | None => mret false
  | Some (xmin, xmax) =>
      K_set_hi (N s) xmax;;
      K_set_lo (N s) xmin;;
      backward_loop eps (N s) true
  end.

(** The loop [for i in range(self.N)] of [solve_reachable_sets], at stage
    [i] with [n] stages left. *)
Fixpoint forward_loop (n i : nat) : M bool :=
  match n with
  | 0 => mret true
  | S n' =>
      let init := bool_decide (i <= 1) in
      lo ← L_lo i; hi ← L_hi i;
      r ← reach i lo hi init;
      match r with
      | None => mret false
      | Some (xmin_nx, xmax_nx) =>
          r' ← proj_x_admissible (i + 1) xmin_nx xmax_nx init;
          match r' with
          | None => mret false
          | Some (xmin_pr, xmax_pr) =>
              L_set_hi (i + 1) xmax_pr;;
              L_set_lo (i + 1) xmin_pr;;
              forward_loop n' (S i)
          end
      end
  end.

Definition solve_reachable_sets : M bool :=
  reset_operational_rows;;
  s ← get;
  r ← proj_x_admissible 0 (I0 s).1 (I0 s).2 true;
  match r with
  | None => mret false
  | Some (xmin, xmax) =>
      L_set_hi 0 xmax;;
      L_set_lo 0 xmin;;
      forward_loop (N s) 0
  end.

(** ** [solve_topp] *)

Definition nl : string := String (Ascii.ascii_of_nat 10) EmptyString.

Definition py_str_bool (b : bool) : string := if b then "True" else "False".

Definition topp_msg (controllable infeasible : bool) : string :=
  (nl ++ "Unable to parameterizes this path:" ++ nl
   ++ "- K(0) is empty : " ++ py_str_bool controllable ++ nl
   ++ "- sd_start not in K(0) : " ++ py_str_bool infeasible ++ nl)%string.

(** Storing the result of [greedy_step] into the float arrays [us] and
    [xs]: numpy converts [None] to NaN. *)
Definition stored (r : option (float * float)) : float * float :=
  match r with
  | Some (u_, x_) => (u_, x_)
  | None => (nan, nan)
  end.

Definition save_solution (save_solutions : bool) (i : nat) : M unit :=
  if save_solutions then
    s ← get; t ← index (set1 (_xfulls s) i (_xfull s));
    modify (set_xfulls t)
  else mret tt.

(** The loop [for i in range(self.N)] of the forward pass, at stage [i]
    with [n] stages left; [us] and [xs] are the local output arrays. *)
Fixpoint topp_loop (save_solutions : bool) (reg : float) (n i : nat)
    (us xs : vec) : M (vec * vec) :=
  match n with
  | 0 => mret (us, xs)
  | S n' =>
      x ← index (xs !! i);
      lo ← K_lo (i + 1); hi ← K_hi (i + 1);
      r ← greedy_step i x lo hi false reg;
      xs ← index (set1 xs (i + 1) (stored r).2);
      us ← index (set1 us i (stored r).1);
      save_solution save_solutions i;;
      topp_loop save_solutions reg n' (S i) us xs
  end.

Definition forward_pass (save_solutions : bool) (reg : float)
  : M (vec * vec) :=
  s ← get;
  let xs := replicate (N s + 1) 0%float in
  let us := replicate (N s) 0%float in
  k0hi ← K_hi 0;
  xs ← index (set1 xs 0 (py_min k0hi (I0 s).2));
  x0 ← index (xs !! 0);
  lo ← K_lo 1; hi ← K_hi 1;
  _ ← greedy_step 0 x0 lo hi true reg;
  topp_loop save_solutions reg (N s) 0 us xs.

Definition default_eps : float := 1e-14.

(** [np.empty((n, m))]: [n] rows of [m] entries, not initialised. *)
Definition np_empty (n m : nat) : mat :=
  (fun r => (fun c => uninitialised r c) <$> seq 0 m) <$> seq 0 n.

Definition solve_topp (save_solutions : bool) (reg : float)
  : M (vec * vec) :=
  s ← get;
  (if save_solutions
   then modify (set_xfulls (np_empty (N s) (nV s)));;
        modify (set_yfulls (np_empty (N s) (nC s)))
   else mret tt);;
  controllable ← solve_controllable_sets default_eps;
  k0hi ← K_hi 0; k0lo ← K_lo 0;
  s ← get;
  let infeasible := py_lt k0hi (I0 s).1 || py_gt k0lo (I0 s).2 in
  if negb controllable || infeasible
  then raise (ValueError (topp_msg controllable infeasible))
  else forward_pass save_solutions reg.

(** ** Properties [K] and [L]: boolean-mask row selection. *)

Definition visible (row : float * float) : bool :=
  py_gt row.1 (- TINY)%float.

Definition K (s : solver) : list (float * float) := List.filter visible (_K s).

(** ** Endpoint intervals

    The argument is a float or an array; [np.r_[.]] makes it an array. *)

Inductive interval_arg :=
  | Scalar (v : float)
  | Array (a : vec).

Definition np_r_ (x : interval_arg) : vec :=
  match x with Scalar v => [v] | Array a => a end.

Definition wrong_dimension (name : string) : string :=
  ("Input " ++ name ++ " has wrong dimension: {}")%string.
Definition non_increase_msg : string :=
  "Illegal input: non-increase end-points.".
Definition negative_msg : string :=
  "Illegal input: negative lower end-point.".

(** The body shared by the two setters, up to the final assignment. *)
Definition check_interval (name : string) (x : interval_arg)
  : M (float * float) :=
  let a := np_r_ x in
  a ← (if decide (length a = 1) then a0 ← index (a !! 0); mret [a0; a0]
       else if decide (2 < length a)
            then raise (ValueError (wrong_dimension name))
            else mret a);
  a1 ← index (a !! 1); a0 ← index (a !! 0);
  py_assert (py_ge a1 a0) non_increase_msg;;
  a0 ← index (a !! 0);
  py_assert (py_ge a0 0%float) negative_msg;;
  a1 ← index (a !! 1);
  mret (a0, a1).

Definition set_start_interval (x : interval_arg) : M unit :=
  v ← check_interval "I0" x; modify (set_I0 v).

Definition set_goal_interval (x : interval_arg) : M unit :=
  v ← check_interval "IN" x; modify (set_IN v).

(** ** Construction

    [PathConstraint] lives outside this file.  The constructor reads the
    grid [ss] and [N] from the first constraint, and [_init_matrices] and
    [_fill_matrices] stack the constraints into the row counts and into
    [l], [h], [lA], [hA] and [A]; these enter as arguments.  [H], [g] and
    the buffers [_xfull] and [_yfull] start at zero.  [nWSR_up],
    [nWSR_down], [_xfulls] and [_yfulls] do not exist before the first
    solve and start empty. *)

Definition zeros (n : nat) : vec := replicate n 0%float.

Definition __init__ (ss0 : vec) (N0 : nat) (nm neq niq nv0 : nat)
    (l0 h0 lA0 hA0 : mat) (A0 : list mat) (verbose : bool) : solver :=
  let nop0 := 3 in
  let nV0 := nv0 + 2 in
  let nC0 := nop0 + nm + neq + niq in
  {| I0 := (0, 1e-4)%float;
     IN := (0, 1e-4)%float;
     ss := ss0;
     Ds := zip_with PrimFloat.sub (drop 1 ss0) ss0;
     N := N0;
     _K := replicate (N0 + 1) (-1, -1)%float;
     _L := replicate (N0 + 1) (-1, -1)%float;
     nop := nop0; nv := nv0; nV := nV0; nC := nC0;
     H := replicate nV0 (zeros nV0);
     g := zeros nV0;
     l := l0; h := h0; lA := lA0; hA := hA0; A := A0;
     _xfull := zeros nV0;
     nWSR_cnst := 1000;
     nWSR_up := []; nWSR_down := [];
     solver_up := SQProblem nV0 nC0 verbose;
     solver_down := SQProblem nV0 nC0 verbose;
     _xfulls := [];
     _yfull := zeros nC0;
     _yfulls := [] |}.

(** ** Objects named in the statements below *)

(** The object [reset_operational_rows] leaves. *)
Definition after_reset (s : solver) : solver :=
  set_g (zero_vec (g s))
    (set_H (zero_vec <$> H s)
      (set_hA (zero_prefix (nop s) <$> hA s)
        (set_lA (zero_prefix (nop s) <$> lA s)
          (set_A (zero_rows (nop s) <$> A s) s)))).

(** The object at the first solver call of [solve_controllable_sets]. *)
Definition sweep_start (s : solver) : solver :=
  set_nWSR_down (replicate (N s + 1) [nWSR_cnst s])
    (set_nWSR_up (replicate (N s + 1) [nWSR_cnst s]) (after_reset s)).

(** Row [i] of [_K] overwritten with an interval. *)
Definition store_K (i : nat) (row : float * float) (s : solver) : solver :=
  set_K (<[i := row]> (_K s)) s.

(** What the backward sweep is said to do, from the object [s] it starts
    in to the object [s'] it ends in: the terminal interval is the
    projection of [IN] at stage [N], stored as it is; then every stage
    [i < N], from [N - 1] down to [0], takes the one-step set of the
    interval stored at [i + 1] (cold start at [N - 1] only) and stores its
    upper end less [eps] and its lower end clamped at zero.  [tr i] is the
    object once stage [i] is stored. *)
Definition controllable_sweep (eps : float) (s s' : solver) : Prop :=
  exists (tr : nat -> solver) lo hi s1,
    proj_x_admissible (N s) (IN s).1 (IN s).2 true (sweep_start s)
      = (Ok (Some (lo, hi)), s1) /\
    tr (N s) = store_K (N s) (lo, hi) s1 /\
    _K s' !! N s = Some (lo, hi) /\
    (forall i, i < N s ->
      exists lo1 hi1 lo_i hi_i si,
        _K s' !! (i + 1) = Some (lo1, hi1) /\
        one_step i lo1 hi1 (bool_decide (i + 1 = N s)) (tr (i + 1))
          = (Ok (Some (lo_i, hi_i)), si) /\
        tr i = store_K i (py_max lo_i 0, hi_i - eps)%float si /\
        _K s' !! i = Some (py_max lo_i 0, hi_i - eps)%float) /\
    tr 0 = s'.

(** The object with one entry of [A], [lA], [hA] or [g] replaced, when
    the subscripts are in range. *)
Definition with_A (i r c : nat) (v : float) (s : solver) : option solver :=
  t ← set3 (A s) i r c v; Some (set_A t s).
Definition with_lA (i r : nat) (v : float) (s : solver) : option solver :=
  t ← set2 (lA s) i r v; Some (set_lA t s).
Definition with_hA (i r : nat) (v : float) (s : solver) : option solver :=
  t ← set2 (hA s) i r v; Some (set_hA t s).
Definition with_g (k : nat) (v : float) (s : solver) : option solver :=
  t ← set1 (g s) k v; Some (set_g t s).

(** The settings a primitive makes before a solve: operational row [0] of
    stage [i] set to [a0 * u + a1 * x] between [lo] and [hi]. *)
Definition with_row0 (i : nat) (a0 a1 lo hi : float) (s : solver)
  : option solver :=
  s1 ← with_A i 0 1 a1 s; s2 ← with_A i 0 0 a0 s1;
  s3 ← with_lA i 0 lo s2; with_hA i 0 hi s3.

(** Two solves at stage [i]: the up solver on the problem read off the
    object after the settings [up], then the down solver on the problem
    read off after the further settings [down].  The result is the two
    statuses and the object after both calls. *)
Definition pose_two (init : bool) (i : nat)
    (up down : solver -> option solver) (s : solver)
  : option (Z * Z * solver) :=
  s_up ← up s; p_up ← problem_at s_up i;
  let r_up := qp_solve init (solver_up s_up) p_up in
  s_dn ← down (set_solver_up r_up.2 s_up); p_dn ← problem_at s_dn i;
  let r_dn := qp_solve init (solver_down s_dn) p_dn in
  Some (r_up.1, r_dn.1, set_solver_down r_dn.2 s_dn).

(** The settings of the three interval primitives; [d] stands for
    [ss[i+1] - ss[i]]. *)
Definition one_step_up (i : nat) (xmin xmax d : float) (s : solver) :=
  s1 ← with_row0 i (2 * d) 1 xmin xmax (after_reset s);
  with_g 1 (-1) s1.
Definition one_step_down (s : solver) := with_g 1 1 s.

Definition reach_up (i : nat) (xmin xmax d : float) (s : solver) :=
  s1 ← with_row0 i 0 1 xmin xmax s; s2 ← with_g 0 (-2 * d) s1;
  with_g 1 (-1) s2.
Definition reach_down (d : float) (s : solver) :=
  s1 ← with_g 0 (2 * d) s; with_g 1 1 s1.

Definition proj_up (i : nat) (xmin xmax : float) (s : solver) :=
  s1 ← with_row0 i 0 1 xmin xmax s; s2 ← with_g 0 0 s1; with_g 1 (-1) s2.
Definition proj_down (s : solver) :=
  s1 ← with_g 0 0 s; with_g 1 1 s1.

(** The object after the optional allocation of [_xfulls] and [_yfulls]
    at the top of [solve_topp]. *)
Definition alloc_solutions (save_solutions : bool) (s : solver) : solver :=
  if save_solutions
  then set_yfulls (np_empty (N s) (nC s))
         (set_xfulls (np_empty (N s) (nV s)) s)
  else s.

(** The object after [_xfulls[i] = _xfull.copy()] under [save_solutions]. *)
Definition saved (save_solutions : bool) (i : nat) (s : solver) : solver :=
  if save_solutions
  then set_xfulls (<[i := _xfull s]> (_xfulls s)) s
  else s.

(** What the forward pass is said to do, from the object [s1] the backward
    pass leaves to the outputs [us], [xs] and the final object [s']:
    [xs[0]] is the smaller of [K_hi[0]] and [I0_hi]; a cold-start greedy
    step at stage [0] is run and its result [r0] dropped; then every stage
    [i < N] runs a hot-start greedy step from [xs[i]] with the bounds
    stored at [i + 1] and writes its result to [us[i]] and [xs[i + 1]].
    [tr i] is the object when stage [i] begins. *)
Definition greedy_forward (save_solutions : bool) (reg : float)
    (s1 : solver) (us xs : vec) (s' : solver) : Prop :=
  exists (tr : nat -> solver) k0lo k0hi lo1 hi1 r0,
    _K s1 !! 0 = Some (k0lo, k0hi) /\
    xs !! 0 = Some (py_min k0hi (I0 s1).2) /\
    _K s1 !! 1 = Some (lo1, hi1) /\
    greedy_step 0 (py_min k0hi (I0 s1).2) lo1 hi1 true reg s1
      = (Ok r0, tr 0) /\
    (forall i, i < N s1 ->
      exists x lo hi r si,
        xs !! i = Some x /\
        _K s1 !! (i + 1) = Some (lo, hi) /\
        greedy_step i x lo hi false reg (tr i) = (Ok r, si) /\
        us !! i = Some (stored r).1 /\
        xs !! (i + 1) = Some (stored r).2 /\
        tr (i + 1) = saved save_solutions i si) /\
    tr (N s1) = s'.


(** Entry [t[i, j, k]] of a stack of matrices. *)
Definition get3 {X} (t : list (list (list X))) (i j k : nat) : option X :=
  m ← t !! i; get2 m j k.

(** The permanent blocks: the canonical, equality and inequality rows of
    every stage, below the operational rows, and the variable bounds. *)
Definition permanent (s : solver) :=
  (drop (nop s) <$> A s, drop (nop s) <$> lA s, drop (nop s) <$> hA s,
   l s, h s).

(** What lies beyond operational row [0] and the first two entries of
    [g]: rows [1] and up of every stage, the Hessian, the rest of [g]. *)
Definition beyond_row0 (s : solver) :=
  (drop 1 <$> A s, drop 1 <$> lA s, drop 1 <$> hA s, H s, drop 2 (g s)).




(** Row [i] of [_L] overwritten with an interval. *)
Definition store_L (i : nat) (row : float * float) (s : solver) : solver :=
  set_L (<[i := row]> (_L s)) s.

(** ** Observations and run predicates used in the proofs *)

(** A computation preserves an observation [phi] of the object when no
    run of it, normal or exceptional, changes [phi]. *)
Definition preserves {T X} (phi : solver -> T) (m : M X) : Prop :=
  forall s r s', m s = (r, s') -> phi s' = phi s.

(** The configuration and the stored intervals: everything the
    set-projection primitives leave alone. *)
Definition cfg (s : solver) :=
  (_K s, _L s, (I0 s, IN s), (N s, ss s, Ds s), (nop s, nv s, nV s),
   (l s, h s, nWSR_cnst s)).

(** Which exceptions a computation can raise. *)
Definition raises_only {X} (P : exn -> Prop) (m : M X) : Prop :=
  forall s e s', m s = (Raise e, s') -> P e.

Definition not_ValueError (e : exn) : Prop := forall msg, e <> ValueError msg.

(** The grid, the intervals asked for and the variable bounds: what no
    solve changes. *)
Definition static (s : solver) :=
  (I0 s, IN s, (N s, ss s, Ds s), (nop s, nv s, nV s), (l s, h s)).

(** Preservation of the permanent blocks, for an object with the three
    operational rows the constructor sets up. *)
Definition keeps_permanent {X} (m : M X) : Prop :=
  forall s r s', nop s = 3 -> m s = (r, s') ->
    nop s' = 3 /\ permanent s' = permanent s.

Definition blocks (s : solver) := (nop s, A s, lA s, hA s, l s, h s).

(** ** Further observations *)

(** The shapes of the arrays a solve works on. *)
Definition row_lengths (m : mat) : list nat := (length : vec -> nat) <$> m.

Definition dims (s : solver) :=
  (row_lengths <$> A s, row_lengths (lA s), row_lengths (hA s),
   row_lengths (H s), length (g s), (length (_K s), length (_L s))).

(** An interval as the setters accept it: [0 <= lo <= hi]. *)
Definition valid_interval (p : float * float) : Prop :=
  py_ge p.1 0%float = true /\ py_ge p.2 p.1 = true.

(** A float that is not NaN compares equal to itself. *)
Definition is_number (x : float) : Prop := py_le x x = true.

(** What the forward sweep of the reachable sets is said to do, from the
    object [s] it starts in to the object [s'] it ends in: [L[0]] is the
    projection of [I0] at stage [0]; then every stage [i < N], in
    increasing order, takes the reach set of [L[i]], projects it at stage
    [i + 1] and stores the result as [L[i + 1]], with a cold start at
    stages [0] and [1].  [tr i] is the object once [L[i]] is stored. *)
Definition reachable_sweep (s s' : solver) : Prop :=
  exists (tr : nat -> solver) lo hi s1,
    proj_x_admissible 0 (I0 s).1 (I0 s).2 true (after_reset s)
      = (Ok (Some (lo, hi)), s1) /\
    tr 0 = store_L 0 (lo, hi) s1 /\
    _L s' !! 0 = Some (lo, hi) /\
    (forall i, i < N s ->
      exists lo_i hi_i lo_nx hi_nx lo_pr hi_pr s2 s3,
        _L s' !! i = Some (lo_i, hi_i) /\
        reach i lo_i hi_i (bool_decide (i <= 1)) (tr i)
          = (Ok (Some (lo_nx, hi_nx)), s2) /\
        proj_x_admissible (i + 1) lo_nx hi_nx (bool_decide (i <= 1)) s2
          = (Ok (Some (lo_pr, hi_pr)), s3) /\
        tr (i + 1) = store_L (i + 1) (lo_pr, hi_pr) s3 /\
        _L s' !! (i + 1) = Some (lo_pr, hi_pr)) /\
    tr (N s) = s'.

(** The exceptions each kind of method can raise. *)
(** Property [slack_vars]: [_xfulls[:, 2:]], the stored primals without
    their [u] and [x] entries.  The attribute [_xfulls] exists once
    [solve_topp] has run with [save_solutions]. *)
Definition slack_vars (s : solver) : mat := drop 2 <$> _xfulls s.

(** The rows a saving solve leaves, along the run of its forward pass from
    the object [s1] the backward pass left: row [i] of [_xfulls] is the
    buffer [_xfull] after the greedy step of stage [i], which is that
    step's primal solution when it succeeded and the buffer as stage [i]
    found it when it failed. *)
Definition saved_rows (reg : float) (s1 : solver) (xs : vec)
    (s' : solver) : Prop :=
  exists (tr : nat -> solver) k0lo k0hi lo1 hi1 r0,
    _K s1 !! 0 = Some (k0lo, k0hi) /\
    _K s1 !! 1 = Some (lo1, hi1) /\
    greedy_step 0 (py_min k0hi (I0 s1).2) lo1 hi1 true reg s1
      = (Ok r0, tr 0) /\
    (forall i, i < N s1 ->
      exists x lo hi r si,
        xs !! i = Some x /\
        _K s1 !! (i + 1) = Some (lo, hi) /\
        greedy_step i x lo hi false reg (tr i) = (Ok r, si) /\
        tr (i + 1) = saved true i si /\
        _xfulls s' !! i = Some (_xfull si) /\
        slack_vars s' !! i = Some (drop 2 (_xfull si)) /\
        _xfull si = match r with
                    | Some _ => getPrimalSolution (solver_up si)
                    | None => _xfull (tr i)
                    end) /\
    tr (N s1) = s' /\
    length (_xfulls s') = N s1.

(** A computation commutes with an update [f] of the object when running
    it after [f] gives the same result as running it before, and the same
    final object up to [f]. *)
Definition commutes {X} (f : solver -> solver) (m : M X) : Prop :=
  forall s, m (f s) = ((m s).1, f (m s).2).

(** The object with the stored solutions replaced. *)
Definition with_solutions (t y : list vec) (s : solver) : solver :=
  set_xfulls t (set_yfulls y s).

(** Two computations agree up to the stored solutions on objects of [n0]
    stages: run from objects that differ in [_xfulls] and [_yfulls] only
    (with [n0] rows of [_xfulls] on the left), they give the same result
    and final objects that again differ in [_xfulls] only, [_yfulls]
    being left as it was. *)
Definition agree_up_to_solutions {X} (n0 : nat) (y : list vec)
    (m1 m2 : M X) : Prop :=
  forall s t, N s = n0 -> length t = n0 ->
    exists t', length t' = n0 /\ N (m2 s).2 = n0 /\
      m1 (with_solutions t y s) = ((m2 s).1, with_solutions t' y (m2 s).2).

(** Replacing one of the fields the sweeps and setters keep: the stored
    sets and the two intervals asked for. *)
Definition bookkeeping (f : solver -> solver) : Prop :=
  (exists k, f = set_K k) \/ (exists k, f = set_L k) \/
  (exists v, f = set_I0 v) \/ (exists v, f = set_IN v).

(** Two computations agree on objects without slack variables, and leave
    such objects without slack variables. *)
Definition agree_without_slack {X} (m1 m2 : M X) : Prop :=
  forall s, nv s = 0 -> m1 s = m2 s /\ nv (m2 s).2 = 0.

Definition index_only (e : exn) : Prop := e = IndexError.
Definition proj_errors (e : exn) : Prop :=
  e = IndexError \/ (exists k, e = KeyError k) \/
  e = AssertionError proj_assert_msg.
Definition greedy_errors (e : exn) : Prop :=
  e = IndexError \/ e = AssertionError negative_state_msg.
Definition least_greedy_errors (e : exn) : Prop :=
  greedy_errors e \/ exists msg, e = ValueError msg.

End Solver.

(** ** A replaying backend

    Stands in for qpOASES in the worked examples.  It answers successive
    calls from a list of recorded answers and reports a successful answer
    only if its primal lies within the variable bounds [l <= z <= h] of
    the problem posed; otherwise it reports infeasibility. *)

Record answer := Answer { a_status : Z; a_primal : vec; a_obj : float }.

Record replay := Replay {
  pending : list answer; last_primal : vec; last_obj : float }.

Definition replay_call (q : replay) (p : qp_problem) : Z * replay :=
  match pending q with
  | [] => (33%Z, q)
  | a :: rest =>
      if Z.eqb (a_status a) SUCCESSFUL_RETURN then
        if in_box p (a_primal a)
        then (SUCCESSFUL_RETURN, Replay rest (a_primal a) (a_obj a))
        else (37%Z, Replay rest (last_primal q) (last_obj q))
      else (a_status a, Replay rest (last_primal q) (last_obj q))
  end.

Definition ReplayBackend : QPBackend :=
  {| QP := replay;
     SQProblem := fun _ _ _ => Replay [] [] 0%float;
     qp_init := replay_call;
     qp_hotstart := replay_call;
     getPrimalSolution := last_primal;
     getObjVal := last_obj;
     uninitialised := fun _ _ => 0%float |}.

Definition recorded (up down : list answer) (s : @solver ReplayBackend)
  : @solver ReplayBackend :=
  @set_solver_up ReplayBackend (Replay up [] 0%float)
    (@set_solver_down ReplayBackend (Replay down [] 0%float) s).

(** *** Worked example: one velocity bound

    [N = 2], [s = [0, 0.5, 1]], one canonical constraint [x <= 4]
    (row [a = 0, b = 1, c = -4]), no slack variables. *)

Definition ex_row : vec := [0; 1]%float.
Definition ex_A : list mat :=
  replicate 3 [[0; 0]; [0; 0]; [0; 0]; ex_row]%float.
Definition ex_lA : mat := replicate 3 [0; 0; 0; - INFTY]%float.
Definition ex_hA : mat := replicate 3 [0; 0; 0; 4]%float.
Definition ex_l : mat := replicate 3 [- MAXU; 0]%float.
Definition ex_h : mat := replicate 3 [MAXU; MAXX]%float.

Definition ex_fresh : @solver ReplayBackend :=
  @__init__ ReplayBackend [0; 0.5; 1]%float 2 1 0 0 0
    ex_l ex_h ex_lA ex_hA ex_A false.

Definition ok (u x : float) : answer := Answer 0 [u; x] 0%float.

Definition top : float := (4 - default_eps)%float.

(** Optimal answers of the two solvers, in call order, for
    [I0 = IN = [0, 0]]: terminal projection, two one-step sets, then (up
    solver only) the warm start and the two greedy steps. *)
Definition ex_up : list answer :=
  [ ok 0 0; ok (-4) 4; ok (-4) 4;
    ok top 0; ok top 0; ok (- top) top ]%float.
Definition ex_down : list answer := [ ok 0 0; ok 0 0; ok 0 0 ]%float.

Definition zero_interval (s : @solver ReplayBackend) : @solver ReplayBackend :=
  @set_I0 ReplayBackend (0, 0)%float (@set_IN ReplayBackend (0, 0)%float s).

Definition ex_start : @solver ReplayBackend :=
  recorded ex_up ex_down (zero_interval ex_fresh).


(** The object the backward pass leaves in the example. *)
Definition ex_swept : @solver ReplayBackend :=
  (@solve_controllable_sets ReplayBackend default_eps ex_start).2.

(** The same run with a start interval [[5, 5]] above [K[0]]. *)
Definition ex_far : @solver ReplayBackend :=
  @set_I0 ReplayBackend (5, 5)%float ex_start.

(** The same run, but the hot start of the last greedy step stops with
    status 61 ([HOTSTART_STOPPED_INFEASIBILITY]). *)
Definition ex_up_stopped : list answer :=
  [ ok 0 0; ok (-4) 4; ok (-4) 4;
    ok top 0; ok top 0; Answer 61 [] 0 ]%float.

Definition ex_stopped : @solver ReplayBackend :=
  recorded ex_up_stopped ex_down (zero_interval ex_fresh).

(** The objects on the way to that last step: after the backward pass,
    after the warm start, after the greedy step of stage [0]. *)
Definition ex_stopped_swept : @solver ReplayBackend :=
  (@solve_controllable_sets ReplayBackend default_eps ex_stopped).2.
Definition ex_stopped_warm : @solver ReplayBackend :=
  (@greedy_step ReplayBackend 0 0 0 top true 0 ex_stopped_swept).2.
Definition ex_stopped_mid : @solver ReplayBackend :=
  (@greedy_step ReplayBackend 0 0 0 top false 0 ex_stopped_warm).2.



(** A terminal projection whose two solves disagree by [1e-11]. *)
Definition ex_split : @solver ReplayBackend :=
  recorded [ok 0 0]%float [ok 0 1e-11]%float (zero_interval ex_fresh).

(** A reach step from [x = 0] at stage [0]: the next state ranges over
    [[-100, 100]], read off the objective values. *)
Definition ex_reach : @solver ReplayBackend :=
  recorded [Answer 0 [100; 0] (-100)]%float [Answer 0 [-100; 0] (-100)]%float
    (zero_interval ex_fresh).

(** A goal interval [[5, 6]] that the bound [x <= 4] excludes: the
    terminal projection is infeasible. *)
Definition ex_goal_out : @solver ReplayBackend :=
  recorded [Answer 37 [] 0]%float [Answer 37 [] 0]%float
    (@set_IN ReplayBackend (5, 6)%float ex_fresh).

(** The same constraint on an object with one slack variable: the rows
    of [A] are three wide. *)
Definition ex_wide : @solver ReplayBackend :=
  @__init__ ReplayBackend [0; 0.5; 1]%float 2 1 0 0 1
    (replicate 3 [- MAXU; 0; 0]%float) (replicate 3 [MAXU; MAXX; 0]%float)
    ex_lA ex_hA
    (replicate 3 [[0; 0; 0]; [0; 0; 0]; [0; 0; 0]; [0; 1; 0]]%float) false.

(** A terminal projection whose upper solve stops with status 64, which
    [qpOASESReturnValueDict] does not list. *)
Definition ex_unlisted : @solver ReplayBackend :=
  recorded [Answer 64 [] 0]%float [ok 0 0]%float (zero_interval ex_fresh).

(** Optimal answers for the forward sweep from [I0 = [0, 0]]: the
    projection at stage [0], then a reach step and a projection per
    stage. *)
Definition ex_up_reach : list answer :=
  [ ok 0 0; Answer 0 [100; 0] (-100); ok 0 4;
    Answer 0 [100; 4] (-104); ok 0 4 ]%float.
Definition ex_down_reach : list answer :=
  [ ok 0 0; Answer 0 [-100; 0] (-100); ok 0 0;
    Answer 0 [-100; 0] (-100); ok 0 0 ]%float.

Definition ex_reachable : @solver ReplayBackend :=
  recorded ex_up_reach ex_down_reach (zero_interval ex_fresh).

(** A one-step set at stage [1] towards [x = 0]: the state ranges over
    [[0, 4]], read off the primal solutions. *)
Definition ex_one : @solver ReplayBackend :=
  recorded [ok (-4) 4]%float [ok 0 0]%float (zero_interval ex_fresh).

(** *** A backend within tolerance only

    Answers as recorded, with no test against the bounds: a solver that
    meets its bounds up to a tolerance can return an [x] slightly below
    zero. *)




(** *** Further start intervals and sweeps for the feasibility check

    The example with the start interval [[0, 0.5]] and a sweep whose
    [K[0]] is [[1, top]], above it. *)
Definition ex_down_above : list answer := [ ok 0 0; ok 0 0; ok 0 1 ]%float.
Definition ex_above : @solver ReplayBackend :=
  @set_I0 ReplayBackend (0, 0.5)%float
    (recorded ex_up ex_down_above (zero_interval ex_fresh)).

(** The example with the start interval [[0, 5]] and a sweep whose
    one-step set at stage [0] is the point [2]: [K[0]] is stored as
    [[2, 2 - eps]], which is empty. *)
Definition ex_up_point : list answer :=
  [ ok 0 0; ok (-4) 4; ok 0 2; ok 0 0; ok 0 0; ok 0 0 ]%float.
Definition ex_down_point : list answer := [ ok 0 0; ok 0 0; ok 0 2 ]%float.
Definition ex_point_set : @solver ReplayBackend :=
  @set_I0 ReplayBackend (0, 5)%float
    (recorded ex_up_point ex_down_point (zero_interval ex_fresh)).

(** A grid of one point: [N = 0]. *)
Definition ex_point : @solver ReplayBackend :=
  recorded [ok 0 0]%float [ok 0 0]%float
    (zero_interval
       (@__init__ ReplayBackend [0]%float 0 1 0 0 0
          (replicate 1 [- MAXU; 0]%float) (replicate 1 [MAXU; MAXX]%float)
          (replicate 1 [0; 0; 0; - INFTY]%float)
          (replicate 1 [0; 0; 0; 4]%float)
          (replicate 1 [[0; 0]; [0; 0]; [0; 0]; ex_row]%float) false)).

(** * Properties *)

(** ** Order facts on binary64 comparisons *)

Lemma SFcompare_antisym x y :
  SFcompare y x = CompOpp <$> SFcompare x y.
Proof.
  destruct x as [sx|sx| |sx mx ex], y as [sy|sy| |sy my ey]; simpl;
    try reflexivity; try (destruct sx; reflexivity);
    try (destruct sy; reflexivity);
    try (destruct sx, sy; reflexivity).
  destruct sx, sy; simpl; try reflexivity;
    rewrite (Z.compare_antisym ex ey); destruct (ex ?= ey)%Z; simpl;
    try reflexivity; rewrite (Pos.compare_cont_antisym mx my Eq); simpl;
    try reflexivity.
Qed.

Lemma ltb_true_leb_false x y :
  PrimFloat.ltb x y = true -> PrimFloat.leb y x = false.
Proof.
  rewrite ltb_spec, leb_spec. unfold SFltb, SFleb.
  rewrite (SFcompare_antisym (Prim2SF x) (Prim2SF y)).
  destruct (SFcompare (Prim2SF x) (Prim2SF y)) as [[]|]; simpl; congruence.
Qed.

Lemma SFcompare_refl x : x <> S754_nan -> SFcompare x x = Some Eq.
Proof.
  destruct x as [s|s| |s m e]; simpl; try congruence;
    try (destruct s; reflexivity).
  intros _. destruct s; rewrite Z.compare_refl, Pos.compare_cont_refl;
    reflexivity.
Qed.

Lemma SFcompare_nan_r x : SFcompare x S754_nan = None.
Proof. destruct x; reflexivity. Qed.

Lemma ltb_true_leb_refl x y :
  PrimFloat.ltb y x = true -> PrimFloat.leb x x = true.
Proof.
  rewrite ltb_spec, leb_spec. unfold SFltb, SFleb. intros Hlt.
  rewrite SFcompare_refl; [reflexivity|].
  intros E. rewrite E, SFcompare_nan_r in Hlt. discriminate.
Qed.

Lemma leb_true_leb_refl x y :
  PrimFloat.leb y x = true -> PrimFloat.leb x x = true.
Proof.
  rewrite !leb_spec. unfold SFleb. intros Hle.
  rewrite SFcompare_refl; [reflexivity|].
  intros E. rewrite E, SFcompare_nan_r in Hle. discriminate.
Qed.

Lemma leb_add_slack x y e :
  PrimFloat.leb x (y + e) = true -> PrimFloat.ltb y x = false ->
  PrimFloat.leb x y = true.
Proof.
  rewrite ltb_spec, !leb_spec, add_spec. unfold SFltb, SFleb, SF64add.
  rewrite (SFcompare_antisym (Prim2SF x) (Prim2SF y)).
  destruct (Prim2SF y) as [sy|sy| |sy my ey] eqn:Ey.
  4:{ destruct (SFcompare (Prim2SF x) (S754_finite sy my ey)) as [[]|] eqn:Ec; simpl; try congruence.
      destruct (Prim2SF x); simpl in Ec; try congruence. simpl. congruence. }
  all: destruct (Prim2SF x) as [sx|sx| |sx mx ex]; simpl; try congruence;
       try (destruct sx, sy; simpl; congruence); try (destruct sx; simpl; congruence);
       try (destruct sy; simpl; congruence).
  all: destruct (Prim2SF e); simpl; try congruence.
Qed.


Lemma SFcompare_Some x y :
  x <> S754_nan -> y <> S754_nan -> exists c, SFcompare x y = Some c.
Proof.
  destruct x, y; simpl; try congruence; eauto.
Qed.

Lemma leb_refl_not_nan x : PrimFloat.leb x x = true -> Prim2SF x <> S754_nan.
Proof.
  rewrite leb_spec. unfold SFleb. intros H E. rewrite E in H. discriminate.
Qed.

(** On numbers the order is total. *)
Lemma ltb_false_leb x y :
  PrimFloat.leb x x = true -> PrimFloat.leb y y = true ->
  PrimFloat.ltb x y = false -> PrimFloat.leb y x = true.
Proof.
  intros Hx%leb_refl_not_nan Hy%leb_refl_not_nan.
  rewrite ltb_spec, leb_spec. unfold SFltb, SFleb.
  rewrite (SFcompare_antisym (Prim2SF x) (Prim2SF y)).
  destruct (SFcompare_Some _ _ Hx Hy) as [c ->]. by destruct c.
Qed.

Lemma ltb_true_leb x y : PrimFloat.ltb x y = true -> PrimFloat.leb x y = true.
Proof.
  rewrite ltb_spec, leb_spec. unfold SFltb, SFleb.
  by destruct (SFcompare _ _) as [[]|].
Qed.

Lemma leb_true_numbers x y :
  PrimFloat.leb x y = true ->
  PrimFloat.leb x x = true /\ PrimFloat.leb y y = true.
Proof.
  intros H. split; [|by eapply leb_true_leb_refl].
  revert H. rewrite !leb_spec. unfold SFleb. intros H.
  rewrite SFcompare_refl; [done|]. intros E. rewrite E in H.
  by destruct (Prim2SF y).
Qed.

(** ** Reasoning about method runs *)

Section Properties.
Context {B : QPBackend}.

Lemma bind_run {X Y} (m : M X) (f : X -> M Y) (s : solver) :
  (m ≫= f) s =
  match m s with
  | (Ok x, s1) => f x s1
  | (Raise e, s1) => (Raise e, s1)
  end.
Proof. reflexivity. Qed.

Lemma get_bind_run {X} (k : solver -> M X) s : (get ≫= k) s = k s s.
Proof. reflexivity. Qed.

Lemma modify_bind_run {X} f (k : unit -> M X) s :
  (modify f ≫= k) s = k tt (f s).
Proof. reflexivity. Qed.

Lemma ret_bind_run {X Y} (x : X) (k : X -> M Y) s :
  ((mret x : M X) ≫= k) s = k x s.
Proof. reflexivity. Qed.

Lemma np_empty_length n m : length (np_empty n m) = n.
Proof. unfold np_empty. by rewrite length_fmap, length_seq. Qed.

(** The allocation at the top of [solve_topp]. *)
Lemma alloc_run {X} (save : bool) s (k : unit -> M X) :
  ((if save
    then modify (set_xfulls (np_empty (N s) (nV s)));;
         modify (set_yfulls (np_empty (N s) (nC s)))
    else (mret tt : M unit)) ≫= k) s
  = k tt (alloc_solutions save s).
Proof. by destruct save. Qed.

(** [solve_topp] is the rest of its body run on the object after the
    allocation. *)
Lemma solve_topp_run save reg s :
  solve_topp save reg s =
  (controllable ← solve_controllable_sets default_eps;
   k0hi ← K_hi 0; k0lo ← K_lo 0;
   s ← get;
   let infeasible := py_lt k0hi (I0 s).1 || py_gt k0lo (I0 s).2 in
   if negb controllable || infeasible
   then raise (ValueError (topp_msg controllable infeasible))
   else forward_pass save reg) (alloc_solutions save s).
Proof.
  unfold solve_topp. rewrite get_bind_run. cbv beta. by rewrite alloc_run.
Qed.

Lemma bind_Ok {X Y} (m : M X) (f : X -> M Y) s y s' :
  (m ≫= f) s = (Ok y, s') ->
  exists x s1, m s = (Ok x, s1) /\ f x s1 = (Ok y, s').
Proof.
  rewrite bind_run. destruct (m s) as [[x|e] s1]; [eauto|discriminate].
Qed.

Lemma get_Ok s x s' : get s = (Ok x, s') -> x = s /\ s' = s.
Proof. unfold get. intros [=]. auto. Qed.

Lemma index_Ok {X} (o : option X) s x s' :
  index o s = (Ok x, s') -> o = Some x /\ s' = s.
Proof. destruct o; simpl; intros [=]; subst; auto. Qed.

Lemma modify_Ok f s u s' : modify f s = (Ok u, s') -> s' = f s.
Proof. unfold modify. intros [=]. auto. Qed.

Lemma ret_Ok {X} (x y : X) (s s' : solver) :
  (mret x : M X) s = (Ok y, s') -> y = x /\ s' = s.
Proof. intros [=]. auto. Qed.

Lemma preserves_bind {T X Y} (phi : solver -> T) (m : M X) (f : X -> M Y) :
  preserves phi m -> (forall x, preserves phi (f x)) ->
  preserves phi (m ≫= f).
Proof.
  intros Hm Hf s r s'. rewrite bind_run.
  destruct (m s) as [[x|e] s1] eqn:E.
  - intros E'. rewrite (Hf _ _ _ _ E'). eapply Hm, E.
  - intros [= <- <-]. eapply Hm, E.
Qed.

Lemma preserves_ret {T X} (phi : solver -> T) (x : X) :
  preserves phi (mret x : M X).
Proof. intros s r s' [= <- <-]. reflexivity. Qed.

Lemma preserves_raise {T X} (phi : solver -> T) e :
  preserves phi (@raise _ X e).
Proof. intros s r s' [= <- <-]. reflexivity. Qed.

Lemma preserves_get {T} (phi : solver -> T) : preserves phi get.
Proof. intros s r s' [= <- <-]. reflexivity. Qed.

Lemma preserves_index {T X} (phi : solver -> T) (o : option X) :
  preserves phi (index o).
Proof. destruct o; [apply preserves_ret|apply preserves_raise]. Qed.

Lemma preserves_assert {T} (phi : solver -> T) b msg :
  preserves phi (py_assert b msg).
Proof. destruct b; [apply preserves_ret|apply preserves_raise]. Qed.

Lemma preserves_modify {T} (phi : solver -> T) f :
  (forall s, phi (f s) = phi s) -> preserves phi (modify f).
Proof. intros Hf s r s' [= <- <-]. apply Hf. Qed.

Ltac frame_step :=
  lazymatch goal with
  | |- preserves _ (_ ≫= _) => apply preserves_bind; [|intros ?]
  | |- preserves _ (mret _) => apply preserves_ret
  | |- preserves _ (raise _) => apply preserves_raise
  | |- preserves _ get => apply preserves_get
  | |- preserves _ (index _) => apply preserves_index
  | |- preserves _ (py_assert _ _) => apply preserves_assert
  | |- preserves _ (modify _) =>
      apply preserves_modify; intros ?; reflexivity
  | |- preserves _ (if ?b then _ else _) => destruct b
  | |- preserves _ (match ?x with _ => _ end) => destruct x
  end.

Ltac unfold_actions :=
  unfold reset_operational_rows, A_set, A_set_row, lA_set, hA_set, g_set,
    ss_at, Ds_at, xfull_at, call_up, call_down, stage_problem, primal_up,
    primal_down, regularize, K_lo, K_hi, L_lo, L_hi, K_set_lo, K_set_hi,
    L_set_lo, L_set_hi, save_solution.

Ltac frame := unfold_actions; cbv zeta; repeat frame_step.

Lemma one_step_cfg i xmin xmax init :
  preserves cfg (one_step i xmin xmax init).
Proof. unfold one_step. frame. Qed.

Lemma reach_cfg i xmin xmax init : preserves cfg (reach i xmin xmax init).
Proof. unfold reach. frame. Qed.

Lemma proj_x_admissible_cfg i xmin xmax init :
  preserves cfg (proj_x_admissible i xmin xmax init).
Proof. unfold proj_x_admissible. frame. Qed.

Lemma greedy_step_cfg i x xmin xmax init reg :
  preserves cfg (greedy_step i x xmin xmax init reg).
Proof. unfold greedy_step. frame. Qed.

Lemma least_greedy_step_cfg i x xmin xmax init reg :
  preserves cfg (least_greedy_step i x xmin xmax init reg).
Proof. unfold least_greedy_step. frame. Qed.

(** Normal runs of the element accesses. *)
Lemma assert_Ok b msg s u s' :
  py_assert b msg s = (Ok u, s') -> b = true /\ s' = s.
Proof. destruct b; intros [=]; auto. Qed.

Lemma A_set_Ok i r c v s u s' :
  A_set i r c v s = (Ok u, s') ->
  exists t, set3 (A s) i r c v = Some t /\ s' = set_A t s.
Proof.
  unfold A_set. intros E.
  apply bind_Ok in E as (s0 & s1 & [-> ->]%get_Ok & E).
  apply bind_Ok in E as (t & s2 & [Ht ->]%index_Ok & ->%modify_Ok). eauto.
Qed.

Lemma lA_set_Ok i r v s u s' :
  lA_set i r v s = (Ok u, s') ->
  exists t, set2 (lA s) i r v = Some t /\ s' = set_lA t s.
Proof.
  unfold lA_set. intros E.
  apply bind_Ok in E as (s0 & s1 & [-> ->]%get_Ok & E).
  apply bind_Ok in E as (t & s2 & [Ht ->]%index_Ok & ->%modify_Ok). eauto.
Qed.

Lemma hA_set_Ok i r v s u s' :
  hA_set i r v s = (Ok u, s') ->
  exists t, set2 (hA s) i r v = Some t /\ s' = set_hA t s.
Proof.
  unfold hA_set. intros E.
  apply bind_Ok in E as (s0 & s1 & [-> ->]%get_Ok & E).
  apply bind_Ok in E as (t & s2 & [Ht ->]%index_Ok & ->%modify_Ok). eauto.
Qed.

Lemma g_set_Ok k v s u s' :
  g_set k v s = (Ok u, s') ->
  exists t, set1 (g s) k v = Some t /\ s' = set_g t s.
Proof.
  unfold g_set. intros E.
  apply bind_Ok in E as (s0 & s1 & [-> ->]%get_Ok & E).
  apply bind_Ok in E as (t & s2 & [Ht ->]%index_Ok & ->%modify_Ok). eauto.
Qed.

Lemma ss_at_Ok i s v s' :
  ss_at i s = (Ok v, s') -> ss s !! i = Some v /\ s' = s.
Proof.
  unfold ss_at. intros E.
  by apply bind_Ok in E as (s0 & s1 & [-> ->]%get_Ok & E%index_Ok).
Qed.

Lemma Ds_at_Ok i s v s' :
  Ds_at i s = (Ok v, s') -> Ds s !! i = Some v /\ s' = s.
Proof.
  unfold Ds_at. intros E.
  by apply bind_Ok in E as (s0 & s1 & [-> ->]%get_Ok & E%index_Ok).
Qed.

Lemma xfull_at_Ok k s v s' :
  xfull_at k s = (Ok v, s') -> _xfull s !! k = Some v /\ s' = s.
Proof.
  unfold xfull_at. intros E.
  by apply bind_Ok in E as (s0 & s1 & [-> ->]%get_Ok & E%index_Ok).
Qed.

Lemma call_up_Ok init i s v s' :
  call_up init i s = (Ok v, s') ->
  exists p, problem_at s i = Some p /\
    v = (qp_solve init (solver_up s) p).1 /\
    s' = set_solver_up (qp_solve init (solver_up s) p).2 s.
Proof.
  unfold call_up, stage_problem. intros E.
  apply bind_Ok in E as (p & s1 & E1 & E).
  apply bind_Ok in E1 as (s0 & s2 & [-> ->]%get_Ok & [Hp ->]%index_Ok).
  apply bind_Ok in E as (s0 & s2 & [-> ->]%get_Ok & E).
  apply bind_Ok in E as (u & s2 & ->%modify_Ok & [-> ->]%ret_Ok). eauto.
Qed.

Lemma call_down_Ok init i s v s' :
  call_down init i s = (Ok v, s') ->
  exists p, problem_at s i = Some p /\
    v = (qp_solve init (solver_down s) p).1 /\
    s' = set_solver_down (qp_solve init (solver_down s) p).2 s.
Proof.
  unfold call_down, stage_problem. intros E.
  apply bind_Ok in E as (p & s1 & E1 & E).
  apply bind_Ok in E1 as (s0 & s2 & [-> ->]%get_Ok & [Hp ->]%index_Ok).
  apply bind_Ok in E as (s0 & s2 & [-> ->]%get_Ok & E).
  apply bind_Ok in E as (u & s2 & ->%modify_Ok & [-> ->]%ret_Ok). eauto.
Qed.

Lemma primal_up_Ok s u s' :
  primal_up s = (Ok u, s') ->
  s' = set_xfull (getPrimalSolution (solver_up s)) s.
Proof. by intros [= <-]. Qed.

Lemma primal_down_Ok s u s' :
  primal_down s = (Ok u, s') ->
  s' = set_xfull (getPrimalSolution (solver_down s)) s.
Proof. by intros [= <-]. Qed.

Lemma reset_Ok s u s' :
  reset_operational_rows s = (Ok u, s') -> s' = after_reset s.
Proof. by intros [= <-]. Qed.

Lemma regularize_Ok reg s u s' :
  regularize reg s = (Ok u, s') ->
  s' = if decide (nv s = 0) then s else set_H (add_reg reg (H s)) s.
Proof.
  unfold regularize. rewrite bind_run. cbn [get].
  destruct (decide (nv s = 0)); by intros [= <-].
Qed.

(** Splits a normal run of a sequence of actions into its steps. *)
Ltac inv_leaf E :=
  lazymatch type of E with
  | get _ = _ => apply get_Ok in E as [-> ->]
  | modify _ _ = _ => apply modify_Ok in E as ->
  | index _ _ = _ => apply index_Ok in E as [E ->]
  | mret _ _ = _ => apply ret_Ok in E as [-> ->]
  | py_assert _ _ _ = _ => apply assert_Ok in E as [E ->]
  | reset_operational_rows _ = _ => apply reset_Ok in E as ->
  | A_set _ _ _ _ _ = _ => apply A_set_Ok in E as (? & E & ->)
  | lA_set _ _ _ _ = _ => apply lA_set_Ok in E as (? & E & ->)
  | hA_set _ _ _ _ = _ => apply hA_set_Ok in E as (? & E & ->)
  | g_set _ _ _ = _ => apply g_set_Ok in E as (? & E & ->)
  | ss_at _ _ = _ => apply ss_at_Ok in E as [E ->]
  | Ds_at _ _ = _ => apply Ds_at_Ok in E as [E ->]
  | xfull_at _ _ = _ => apply xfull_at_Ok in E as [E ->]
  | call_up _ _ _ = _ => apply call_up_Ok in E as (? & E & -> & ->)
  | call_down _ _ _ = _ => apply call_down_Ok in E as (? & E & -> & ->)
  | primal_up _ = _ => apply primal_up_Ok in E as ->
  | primal_down _ = _ => apply primal_down_Ok in E as ->
  | regularize _ _ = _ => apply regularize_Ok in E as ->
  | _ => idtac
  end.

Ltac inv_run E :=
  repeat
    (lazymatch type of E with
     | (_ ≫= _) _ = (Ok _, _) =>
         let E1 := fresh "E" in
         apply bind_Ok in E as (? & ? & E1 & E); inv_leaf E1
     end).

Ltac proj_simpl :=
  cbn [I0 IN ss Ds N _K _L nop nv nV nC H g l h lA hA A _xfull nWSR_cnst
       nWSR_up nWSR_down solver_up solver_down _xfulls _yfull _yfulls
       set_I0 set_IN set_K set_L set_H set_g set_lA set_hA set_A set_xfull
       set_nWSR_up set_nWSR_down set_solver_up set_solver_down set_xfulls
       set_yfulls
       after_reset fst snd] in *.

Ltac solve_lookup :=
  repeat first
    [ rewrite list_lookup_insert_ne by done
    | rewrite list_lookup_insert_eq by (rewrite ?length_insert; lia) ];
  done.

Lemma set1_Some {X} (v : list X) k x t :
  set1 v k x = Some t -> k < length v /\ t = <[k := x]> v.
Proof. unfold set1. case_decide; intros [=]; auto. Qed.

Lemma problem_at_fields s i p :
  problem_at s i = Some p ->
  p_H p = H s /\ p_g p = g s /\ A s !! i = Some (p_A p) /\
  l s !! i = Some (p_l p) /\ h s !! i = Some (p_h p) /\
  lA s !! i = Some (p_lA p) /\ hA s !! i = Some (p_hA p).
Proof.
  unfold problem_at. intros E.
  destruct (A s !! i), (l s !! i), (h s !! i), (lA s !! i), (hA s !! i);
    simpl in E; try discriminate.
  injection E as <-. simpl. auto 10.
Qed.

Lemma failed_false a b :
  failed a b = false -> a = SUCCESSFUL_RETURN /\ b = SUCCESSFUL_RETURN.
Proof.
  unfold failed. intros [Ha Hb]%orb_false_elim.
  apply negb_false_iff in Ha, Hb. by apply Z.eqb_eq in Ha, Hb.
Qed.

(** Names the two problems a primitive posed and the solver objects the
    calls left. *)
Ltac pick_problems s init :=
  match goal with
  | Fu : (qp_solve init (solver_up s) ?pu).1 = SUCCESSFUL_RETURN,
    Fd : (qp_solve init (solver_down s) ?pd).1 = SUCCESSFUL_RETURN |- _ =>
      exists pu, pd;
      destruct (qp_solve init (solver_up s) pu) as [st_up q_up];
      destruct (qp_solve init (solver_down s) pd) as [st_dn q_dn];
      simpl in *; subst st_up st_dn
  end.

(** A successful [reach]: the two problems solved and where the result
    comes from. *)
Lemma reach_Some i xmin xmax init s a b s' :
  reach i xmin xmax init s = (Ok (Some (a, b)), s') ->
  exists p_up p_down s1 s0,
    ss s !! (i + 1) = Some s1 /\ ss s !! i = Some s0 /\
    p_g p_up !! 0 = Some (-2 * (s1 - s0))%float /\
    p_g p_up !! 1 = Some (-1)%float /\
    qp_solve init (solver_up s) p_up = (SUCCESSFUL_RETURN, solver_up s') /\
    p_g p_down !! 0 = Some (2 * (s1 - s0))%float /\
    p_g p_down !! 1 = Some 1%float /\
    qp_solve init (solver_down s) p_down
      = (SUCCESSFUL_RETURN, solver_down s') /\
    a = getObjVal (solver_down s') /\
    b = (- getObjVal (solver_up s'))%float.
Proof.
  unfold reach. intros E. inv_run E. proj_simpl.
  destruct (failed _ _) eqn:F; [by apply ret_Ok in E as [? _]|].
  apply failed_false in F as [Fu Fd].
  inv_run E. apply ret_Ok in E as [[= -> ->] ->]. proj_simpl.
  repeat match goal with
  | Hs : set1 _ _ _ = Some _ |- _ => apply set1_Some in Hs as [? ->]
  | Hp : problem_at _ _ = Some _ |- _ =>
      apply problem_at_fields in Hp as (_ & Hp & _); proj_simpl
  end.
  repeat match goal with
  | H1 : ss s !! ?k = Some ?u, H2 : ss s !! ?k = Some ?v |- _ =>
      assert (v = u) as -> by congruence; clear H2
  end.
  match goal with
  | H1 : ss s !! (i + 1) = Some ?u, H0 : ss s !! i = Some ?v |- _ =>
      pick_problems s init; exists u, v
  end.
  repeat match goal with
  | Hg : p_g _ = _ |- _ => rewrite Hg; clear Hg
  end.
  rewrite !length_insert in *.
  repeat split; try done; solve_lookup.
Qed.


(** A successful [proj_x_admissible]: the lower end is the [x] entry of
    the down solver's primal; the upper end is the [x] entry [raw] of the
    up solver's primal, which passed the tolerance assertion and is
    replaced by the lower end when it lies below it. *)
Lemma proj_x_admissible_Some i xmin xmax init s a b s' :
  proj_x_admissible i xmin xmax init s = (Ok (Some (a, b)), s') ->
  exists p_up p_down raw,
    l s !! i = Some (p_l p_up) /\ l s !! i = Some (p_l p_down) /\
    qp_solve init (solver_up s) p_up = (SUCCESSFUL_RETURN, solver_up s') /\
    qp_solve init (solver_down s) p_down
      = (SUCCESSFUL_RETURN, solver_down s') /\
    getPrimalSolution (solver_down s') !! 1 = Some a /\
    getPrimalSolution (solver_up s') !! 1 = Some raw /\
    py_le a (raw + SUPERTINY)%float = true /\
    b = (if py_gt a raw then a else raw).
Proof.
  unfold proj_x_admissible. intros E. inv_run E. proj_simpl.
  destruct (failed _ _) eqn:F.
  { destruct (dict_get _ _); [by apply ret_Ok in E as [? _]|discriminate]. }
  apply failed_false in F as [Fu Fd].
  inv_run E. apply ret_Ok in E as [[= -> ->] ->]. proj_simpl.
  repeat match goal with
  | Hp : problem_at _ _ = Some _ |- _ =>
      apply problem_at_fields in Hp as (_ & _ & _ & Hp & _); proj_simpl
  end.
  pick_problems s init. eexists. repeat split; eauto.
Qed.

(** The step widths the constructor computes. *)
Lemma Ds_lookup (ss0 : vec) i s1 s0 :
  ss0 !! (i + 1) = Some s1 -> ss0 !! i = Some s0 ->
  zip_with PrimFloat.sub (drop 1 ss0) ss0 !! i = Some (s1 - s0)%float.
Proof.
  intros H1 H0. rewrite lookup_zip_with, lookup_drop.
  replace (1 + i) with (i + 1) by lia. by rewrite H1, H0.
Qed.

Lemma raises_only_bind {X Y} P (m : M X) (f : X -> M Y) :
  raises_only P m -> (forall x, raises_only P (f x)) ->
  raises_only P (m ≫= f).
Proof.
  intros Hm Hf s e s'. rewrite bind_run.
  destruct (m s) as [[x|e'] s1] eqn:E.
  - apply Hf.
  - intros [= <- <-]. eapply Hm, E.
Qed.

Lemma raises_only_total {X} P (m : M X) :
  (forall s, exists x s', m s = (Ok x, s')) -> raises_only P m.
Proof. intros Hm s e s' E. destruct (Hm s) as (x & s1 & E'). congruence. Qed.

Lemma raises_only_raise {X} (P : exn -> Prop) e :
  P e -> raises_only P (@raise _ X e).
Proof. intros He s e' s' [= <- <-]. exact He. Qed.

Lemma raises_only_index {X} (P : exn -> Prop) (o : option X) :
  P IndexError -> raises_only P (index o).
Proof.
  destruct o; [intros _; apply raises_only_total; eauto|].
  apply raises_only_raise.
Qed.

Lemma raises_only_assert (P : exn -> Prop) b msg :
  P (AssertionError msg) -> raises_only P (py_assert b msg).
Proof.
  destruct b; [intros _; apply raises_only_total; eauto|].
  apply raises_only_raise.
Qed.

Ltac exn_step :=
  lazymatch goal with
  | |- raises_only _ (_ ≫= _) => apply raises_only_bind; [|intros ?]
  | |- raises_only _ (mret _) => apply raises_only_total; eauto
  | |- raises_only _ get => apply raises_only_total; eauto
  | |- raises_only _ (modify _) => apply raises_only_total; eauto
  | |- raises_only _ (raise _) => apply raises_only_raise; done
  | |- raises_only _ (index _) => apply raises_only_index; done
  | |- raises_only _ (py_assert _ _) => apply raises_only_assert; done
  | |- raises_only _ (if ?b then _ else _) => destruct b
  | |- raises_only _ (match ?x with _ => _ end) => destruct x
  end.

Ltac exn := unfold_actions; cbv zeta; repeat exn_step.

Lemma greedy_step_exn i x xmin xmax init reg :
  raises_only not_ValueError (greedy_step i x xmin xmax init reg).
Proof. unfold greedy_step. exn. Qed.

Lemma topp_loop_exn save reg n i us xs :
  raises_only not_ValueError (topp_loop save reg n i us xs).
Proof.
  revert i us xs. induction n as [|n IH]; intros i us xs; cbn [topp_loop].
  - exn.
  - repeat (apply raises_only_bind; [|intros ?]); try apply IH;
      try apply greedy_step_exn; exn.
Qed.

Lemma forward_pass_exn save reg :
  raises_only not_ValueError (forward_pass save reg).
Proof.
  unfold forward_pass.
  repeat (apply raises_only_bind; [|intros ?]); try apply topp_loop_exn;
    try apply greedy_step_exn; exn.
Qed.

Lemma K_lo_run i s row :
  _K s !! i = Some row -> K_lo i s = (Ok row.1, s).
Proof. intros E. unfold K_lo. rewrite bind_run. cbn [get]. by rewrite bind_run, E. Qed.

Lemma K_hi_run i s row :
  _K s !! i = Some row -> K_hi i s = (Ok row.2, s).
Proof. intros E. unfold K_hi. rewrite bind_run. cbn [get]. by rewrite bind_run, E. Qed.

Lemma bind_Raise {X Y} (m : M X) (f : X -> M Y) s e s' :
  (m ≫= f) s = (Raise e, s') ->
  m s = (Raise e, s') \/
  exists x s1, m s = (Ok x, s1) /\ f x s1 = (Raise e, s').
Proof.
  rewrite bind_run. destruct (m s) as [[x|e'] s1]; [eauto|].
  intros [= -> ->]. auto.
Qed.

Lemma assert_Raise b msg s e s' :
  py_assert b msg s = (Raise e, s') ->
  b = false /\ e = AssertionError msg /\ s' = s.
Proof. destruct b; intros [=]; auto. Qed.

(** Splits a run that ends in a failed assertion: the element accesses
    and the solver calls raise nothing but [IndexError]. *)
Ltac inv_assert E :=
  repeat
    (lazymatch type of E with
     | (py_assert _ _ ≫= _) _ = (Raise (AssertionError _), _) =>
         let E1 := fresh "E" in
         apply bind_Raise in E as [E|(? & ? & E1 & E)];
         [|apply assert_Ok in E1 as [E1 ->]]
     | (?m ≫= _) _ = (Raise (AssertionError _), _) =>
         let E1 := fresh "E" in
         apply bind_Raise in E as [E|(? & ? & E1 & E)];
         [exfalso;
          let Hm := fresh in
          assert (Hm : raises_only (fun e => e = IndexError) m) by exn;
          apply Hm in E; discriminate E
         |inv_leaf E1]
     end).

(** C6. A [proj_x_admissible] that returns a pair has extracted ends with
    [xmin_i <= xmax_i + SUPERTINY] (a larger gap aborts with an assertion
    error), has moved the upper end onto the lower one when the lower end
    was above it, and so returns [xmin_i <= xmax_i]. *)
Theorem proj_x_admissible_ordered i xmin xmax init s r s'
  (Hrun : proj_x_admissible i xmin xmax init s = (r, s')) :
  match r with
  | Ok (Some (a, b)) =>
      py_le a b = true /\
      exists raw,
        getPrimalSolution (solver_down s') !! 1 = Some a /\
        getPrimalSolution (solver_up s') !! 1 = Some raw /\
        py_le a (raw + SUPERTINY)%float = true /\
        b = (if py_gt a raw then a else raw)
  | Raise (AssertionError _) =>
      exists a raw,
        getPrimalSolution (solver_down s') !! 1 = Some a /\
        getPrimalSolution (solver_up s') !! 1 = Some raw /\
        py_le a (raw + SUPERTINY)%float = false
  | _ => True
  end.
Proof.
  destruct r as [[[a b]|]|[| | msg|]]; try exact I.
  - apply proj_x_admissible_Some in Hrun
      as (_ & _ & raw & _ & _ & _ & _ & Ha & Hraw & Htol & ->).
    split; [|eauto]. unfold py_le, py_gt in *.
    destruct (PrimFloat.ltb raw a) eqn:Hgt.
    + eapply ltb_true_leb_refl, Hgt.
    + eapply leb_add_slack; eauto.
  - unfold proj_x_admissible in Hrun. inv_assert Hrun. proj_simpl.
    destruct (failed _ _) eqn:F.
    { destruct (dict_get _ _); discriminate. }
    inv_assert Hrun.
    + apply assert_Raise in Hrun as (Htol & _ & ->). proj_simpl. eauto.
    + discriminate.
Qed.

(** The two flags rendered into the message can be read back from it. *)
Lemma topp_msg_inj c i c' i' :
  topp_msg c i = topp_msg c' i' -> c' = c /\ i' = i.
Proof.
  destruct c, i, c', i'; try (split; reflexivity);
    intros E; vm_compute in E; discriminate E.
Qed.

(** The feasibility check in general.  Once the backward pass has
    returned [controllable], [solve_topp] raises its infeasibility error
    exactly when [controllable] is false or [K_hi[0] < I0_lo] or
    [K_lo[0] > I0_hi], with a message that determines the two flags it
    prints; otherwise it continues as the forward pass, which raises no
    error of that kind. *)
Lemma solve_topp_feasibility_check save reg s c s1 lo hi
  (Hback : solve_controllable_sets default_eps (alloc_solutions save s)
           = (Ok c, s1))
  (HK0 : _K s1 !! 0 = Some (lo, hi)) :
  let infeasible := py_lt hi (I0 s1).1 || py_gt lo (I0 s1).2 in
  ((c = false \/ py_lt hi (I0 s1).1 = true \/ py_gt lo (I0 s1).2 = true) ->
     solve_topp save reg s
       = (Raise (ValueError (topp_msg c infeasible)), s1)) /\
  (c = true -> py_lt hi (I0 s1).1 = false -> py_gt lo (I0 s1).2 = false ->
     solve_topp save reg s = forward_pass save reg s1 /\
     forall e s', forward_pass save reg s1 = (Raise e, s') ->
       not_ValueError e) /\
  (forall c' i', topp_msg c infeasible = topp_msg c' i' ->
     c' = c /\ i' = infeasible).
Proof.
  intros infeasible.
  assert (Hrun : solve_topp save reg s =
      if negb c || infeasible
      then (Raise (ValueError (topp_msg c infeasible)), s1)
      else forward_pass save reg s1).
  { unfold solve_topp. rewrite get_bind_run. cbv beta.
    rewrite alloc_run. cbv beta.
    rewrite bind_run, Hback.
    rewrite bind_run, (K_hi_run _ _ _ HK0).
    rewrite bind_run, (K_lo_run _ _ _ HK0).
    rewrite bind_run. cbn [get fst snd]. fold infeasible.
    by destruct (negb c || infeasible). }
  split; [|split].
  - intros Hc. rewrite Hrun.
    replace (negb c || infeasible) with true; [done|].
    symmetry. unfold infeasible.
    destruct Hc as [->|[->| ->]]; [done| |]; by rewrite ?orb_true_r.
  - intros -> Hlo Hhi. split; [|apply forward_pass_exn].
    rewrite Hrun. unfold infeasible. by rewrite Hlo, Hhi.
  - intros c' i' E. by apply topp_msg_inj in E.
Qed.

Lemma cfg_fields s s' :
  cfg s' = cfg s ->
  _K s' = _K s /\ _L s' = _L s /\ I0 s' = I0 s /\ IN s' = IN s /\
  N s' = N s /\ ss s' = ss s /\ Ds s' = Ds s.
Proof. unfold cfg. intros [=]. auto 10. Qed.

Lemma K_lo_Ok i s v s' :
  K_lo i s = (Ok v, s') ->
  s' = s /\ exists row, _K s !! i = Some row /\ v = row.1.
Proof.
  unfold K_lo. intros E.
  apply bind_Ok in E as (s0 & s1 & [-> ->]%get_Ok & E).
  apply bind_Ok in E as (row & s2 & [Hrow ->]%index_Ok & [-> ->]%ret_Ok).
  eauto.
Qed.

Lemma K_hi_Ok i s v s' :
  K_hi i s = (Ok v, s') ->
  s' = s /\ exists row, _K s !! i = Some row /\ v = row.2.
Proof.
  unfold K_hi. intros E.
  apply bind_Ok in E as (s0 & s1 & [-> ->]%get_Ok & E).
  apply bind_Ok in E as (row & s2 & [Hrow ->]%index_Ok & [-> ->]%ret_Ok).
  eauto.
Qed.

Lemma K_set_lo_Ok i v s u s' :
  K_set_lo i v s = (Ok u, s') ->
  exists row, _K s !! i = Some row /\
    s' = set_K (<[i := (v, row.2)]> (_K s)) s.
Proof.
  unfold K_set_lo. intros E.
  apply bind_Ok in E as (s0 & s1 & [-> ->]%get_Ok & E).
  apply bind_Ok in E as (row & s2 & [Hrow ->]%index_Ok & ->%modify_Ok).
  eauto.
Qed.

Lemma K_set_hi_Ok i v s u s' :
  K_set_hi i v s = (Ok u, s') ->
  exists row, _K s !! i = Some row /\
    s' = set_K (<[i := (row.1, v)]> (_K s)) s.
Proof.
  unfold K_set_hi. intros E.
  apply bind_Ok in E as (s0 & s1 & [-> ->]%get_Ok & E).
  apply bind_Ok in E as (row & s2 & [Hrow ->]%index_Ok & ->%modify_Ok).
  eauto.
Qed.

(** Storing an interval at row [i]: upper end first, then lower end. *)
Lemma K_store_Ok i lo hi s u s2 u' s3 :
  K_set_hi i hi s = (Ok u, s2) -> K_set_lo i lo s2 = (Ok u', s3) ->
  i < length (_K s) /\ s3 = store_K i (lo, hi) s.
Proof.
  intros (row & Hrow & ->)%K_set_hi_Ok (row' & Hrow' & ->)%K_set_lo_Ok.
  simpl in *. pose proof (lookup_lt_Some _ _ _ Hrow) as Hlen.
  rewrite list_lookup_insert_eq in Hrow' by done.
  injection Hrow' as <-. simpl. split; [done|].
  unfold store_K, set_K; simpl. f_equal. apply list_insert_insert_eq.
Qed.

Lemma store_K_lookup i row s j :
  i < length (_K s) ->
  _K (store_K i row s) !! j = if decide (i = j) then Some row else _K s !! j.
Proof.
  intros Hi. simpl. destruct (decide (i = j)) as [->|Hne].
  - by rewrite list_lookup_insert_eq.
  - by rewrite list_lookup_insert_ne.
Qed.

Lemma reset_run s : reset_operational_rows s = (Ok tt, after_reset s).
Proof. reflexivity. Qed.

(** The backward loop, as a run through the objects [tr k, ..., tr 0]:
    stage [i] starts from [tr (i + 1)]. *)
Lemma backward_loop_trace eps k init s s' :
  backward_loop eps k init s = (Ok true, s') ->
  exists tr : nat -> solver,
    tr k = s /\ tr 0 = s' /\ N s' = N s /\
    (forall j, k <= j -> _K s' !! j = _K s !! j) /\
    forall i, i < k ->
      exists lo1 hi1 lo hi si,
        _K s' !! (i + 1) = Some (lo1, hi1) /\
        one_step i lo1 hi1 (bool_decide (i + 1 = k) && init) (tr (i + 1))
          = (Ok (Some (lo, hi)), si) /\
        tr i = store_K i (py_max lo 0, hi - eps)%float si /\
        _K s' !! i = Some (py_max lo 0, hi - eps)%float.
Proof.
  revert init s. induction k as [|i IH]; intros init s E.
  - apply ret_Ok in E as [_ ->]. exists (fun _ => s).
    repeat split; auto. intros i Hi. lia.
  - cbn [backward_loop] in E.
    apply bind_Ok in E as (lo1 & s0 & (-> & row & Hrow & ->)%K_lo_Ok & E).
    apply bind_Ok in E as (hi1 & s0 & (-> & row' & Hrow' & ->)%K_hi_Ok & E).
    assert (row' = row) as -> by congruence.
    apply bind_Ok in E as (r & s1 & Hstep & E).
    destruct r as [[xmin_i xmax_i]|]; [|by apply ret_Ok in E as [? _]].
    apply bind_Ok in E as (u & s2 & Hhi & E).
    apply bind_Ok in E as (u' & s3 & Hlo & E).
    destruct (K_store_Ok _ _ _ _ _ _ _ _ Hhi Hlo) as (Hlen & ->).
    destruct (cfg_fields _ _ (one_step_cfg _ _ _ _ _ _ _ Hstep))
      as (HK & _ & _ & _ & HN1 & _).
    destruct (IH _ _ E) as (tr & Htr_i & Htr_0 & HN' & Hframe & Hstages).
    exists (fun j => if decide (j = S i) then s else tr j).
    rewrite decide_True by done. rewrite decide_False by done.
    repeat split; [done|by rewrite HN'| |].
    + intros j Hj. rewrite Hframe by lia.
      rewrite store_K_lookup, decide_False by (done || lia). by rewrite HK.
    + intros i' Hi'. destruct (decide (i' = i)) as [->|Hne].
      * exists row.1, row.2, xmin_i, xmax_i, s1.
        rewrite decide_True by lia. rewrite bool_decide_true by lia.
        rewrite decide_False by lia.
        rewrite !Hframe by lia.
        rewrite !store_K_lookup by done.
        rewrite decide_False by lia. rewrite decide_True by done.
        rewrite HK, Hrow. repeat split; [by destruct row|done|done].
      * destruct (Hstages i') as (a & b & c & d & si & H1 & H2 & H3 & H4);
          [lia|].
        exists a, b, c, d, si. rewrite decide_False by lia.
        rewrite decide_False by lia.
        rewrite bool_decide_false by lia. rewrite andb_false_r in H2.
        done.
Qed.

(** C1. [solve_controllable_sets], when it succeeds, seeds [K[N]] with the
    projection of the goal interval at stage [N] and stores it unshrunk;
    then for every [i] from [N - 1] down to [0] it takes
    [(lo, hi) = one_step(i, K_lo[i+1], K_hi[i+1])] and stores
    [K_hi[i] = hi - eps], [K_lo[i] = max(lo, 0)]. *)
Theorem solve_controllable_sets_sweep eps s s' :
  solve_controllable_sets eps s = (Ok true, s') ->
  controllable_sweep eps s s'.
Proof.
  unfold solve_controllable_sets. intros E.
  rewrite bind_run, reset_run in E.
  apply bind_Ok in E as (s0 & s1 & [-> ->]%get_Ok & E).
  apply bind_Ok in E as (u1 & s1 & ->%modify_Ok & E).
  apply bind_Ok in E as (u2 & s2 & ->%modify_Ok & E).
  apply bind_Ok in E as (r & s3 & Hproj & E).
  destruct r as [[xmin xmax]|]; [|by apply ret_Ok in E as [? _]].
  apply bind_Ok in E as (u3 & s4 & Hhi & E).
  apply bind_Ok in E as (u4 & s5 & Hlo & E).
  destruct (K_store_Ok _ _ _ _ _ _ _ _ Hhi Hlo) as (Hlen & ->).
  change (N (after_reset s)) with (N s) in *.
  change (IN (after_reset s)) with (IN s) in *.
  destruct (backward_loop_trace _ _ _ _ _ E)
    as (tr & Htr_N & Htr_0 & HN & Hframe & Hstages).
  exists tr, xmin, xmax, s3. repeat split; try done.
  - rewrite Hframe by done. rewrite store_K_lookup by done.
    by rewrite decide_True.
  - intros i Hi. destruct (Hstages i Hi) as (a & b & c & d & si & H1 & H2 & H3).
    exists a, b, c, d, si. by rewrite andb_true_r in H2.
Qed.

(** ** The forward pass of [solve_topp] *)


Lemma backward_loop_static eps k init :
  preserves static (backward_loop eps k init).
Proof.
  revert init. induction k as [|i IH]; intros init; cbn [backward_loop].
  - frame.
  - repeat (apply preserves_bind; [|intros ?]); by frame.
Qed.

Lemma solve_controllable_sets_static eps :
  preserves static (solve_controllable_sets eps).
Proof.
  unfold solve_controllable_sets.
  repeat (apply preserves_bind; [|intros ?]); try (by frame).
  destruct x3 as [[? ?]|]; [|frame].
  repeat (apply preserves_bind; [|intros ?]); try (by frame).
  apply backward_loop_static.
Qed.

Lemma save_solution_Ok save i s u s' :
  save_solution save i s = (Ok u, s') -> s' = saved save i s.
Proof.
  unfold save_solution, saved. destruct save.
  - intros E. inv_run E. apply modify_Ok in E as ->.
    by apply set1_Some in E0 as [_ ->].
  - by intros [_ ->]%ret_Ok.
Qed.

Lemma saved_cfg save i s : cfg (saved save i s) = cfg s.
Proof. by destruct save. Qed.

(** The loop of the forward pass as a run through [tr i, ..., tr (i + n)];
    stage [k] starts from [tr k]. *)
Lemma topp_loop_trace save reg n i us xs s us' xs' s' :
  topp_loop save reg n i us xs s = (Ok (us', xs'), s') ->
  exists tr : nat -> solver,
    tr i = s /\ tr (i + n) = s' /\
    (forall k, i <= k <= i + n -> cfg (tr k) = cfg s) /\
    (forall j, j <= i -> xs' !! j = xs !! j) /\
    (forall j, j < i -> us' !! j = us !! j) /\
    forall k, i <= k < i + n ->
      exists x lo hi r si,
        xs' !! k = Some x /\
        _K s !! (k + 1) = Some (lo, hi) /\
        greedy_step k x lo hi false reg (tr k) = (Ok r, si) /\
        us' !! k = Some (stored r).1 /\
        xs' !! (k + 1) = Some (stored r).2 /\
        tr (k + 1) = saved save k si.
Proof.
  revert i us xs s. induction n as [|n IH]; intros i us xs s E.
  - apply ret_Ok in E as [[= -> ->] ->]. exists (fun _ => s).
    rewrite Nat.add_0_r. repeat split; auto. intros k Hk. lia.
  - cbn [topp_loop] in E.
    apply bind_Ok in E as (x & s0 & [Hx ->]%index_Ok & E).
    apply bind_Ok in E as (lo & s0 & (-> & row & Hrow & ->)%K_lo_Ok & E).
    apply bind_Ok in E as (hi & s0 & (-> & row' & Hrow' & ->)%K_hi_Ok & E).
    assert (row' = row) as -> by congruence.
    apply bind_Ok in E as (r & si & Hstep & E).
    apply bind_Ok in E
      as (xs1 & s0 & [[Hlx ->]%set1_Some ->]%index_Ok & E).
    apply bind_Ok in E
      as (us1 & s0 & [[Hlu ->]%set1_Some ->]%index_Ok & E).
    apply bind_Ok in E as (u & s2 & ->%save_solution_Ok & E).
    pose proof (greedy_step_cfg _ _ _ _ _ _ _ _ _ Hstep) as Hcfg.
    destruct (IH _ _ _ _ E) as (tr & Htr0 & Htr1 & Hc & Hxs & Hus & Hst).
    exists (fun j => if decide (j = i) then s else tr j).
    rewrite decide_True by done. rewrite decide_False by lia.
    replace (i + S n) with (S i + n) by lia.
    repeat split; [done| | | |].
    + intros k Hk. destruct (decide (k = i)); [done|].
      rewrite Hc by lia. by rewrite saved_cfg.
    + intros j Hj. rewrite Hxs by lia. by rewrite list_lookup_insert_ne by lia.
    + intros j Hj. rewrite Hus by lia. by rewrite list_lookup_insert_ne by lia.
    + intros k Hk. destruct (decide (k = i)) as [->|Hne].
      * exists x, row.1, row.2, r, si.
        rewrite decide_False by lia. rewrite !Nat.add_1_r in *.
        rewrite Hxs by lia. rewrite Hus by lia.
        rewrite Hxs by lia. rewrite Htr0.
        rewrite list_lookup_insert_ne by lia.
        rewrite !list_lookup_insert_eq by lia.
        repeat split; try done. by destruct row.
      * destruct (Hst k) as (x' & lo' & hi' & r' & si' & H1 & H2 & H3 & H4);
          [lia|].
        exists x', lo', hi', r', si'. rewrite decide_False by lia.
        repeat split; try tauto.
        rewrite <- (proj1 (cfg_fields _ _ Hcfg)).
        rewrite <- (proj1 (cfg_fields _ _ (saved_cfg save i si))). tauto.
Qed.

Lemma solve_topp_Ok save reg s us xs s' :
  solve_topp save reg s = (Ok (us, xs), s') ->
  exists s1,
    solve_controllable_sets default_eps (alloc_solutions save s)
      = (Ok true, s1) /\
    forward_pass save reg s1 = (Ok (us, xs), s').
Proof.
  unfold solve_topp. intros E.
  apply bind_Ok in E as (s0 & s1 & [-> ->]%get_Ok & E).
  apply bind_Ok in E as (u & s1 & Halloc & E).
  assert (s1 = alloc_solutions save s) as ->.
  { unfold alloc_solutions. destruct save.
    - by apply modify_Ok in Halloc.
    - by apply ret_Ok in Halloc as [_ ->]. }
  apply bind_Ok in E as (c & s1 & Hback & E).
  apply bind_Ok in E as (hi & s0 & (-> & row & Hrow & ->)%K_hi_Ok & E).
  apply bind_Ok in E as (lo & s0 & (-> & row' & Hrow' & ->)%K_lo_Ok & E).
  apply bind_Ok in E as (s0 & s2 & [-> ->]%get_Ok & E).
  destruct c; simpl in E; [|discriminate].
  destruct (_ || _); [discriminate|]. eauto.
Qed.

Lemma forward_pass_trace save reg s1 us xs s' :
  forward_pass save reg s1 = (Ok (us, xs), s') ->
  exists (tr : nat -> solver) k0lo k0hi lo1 hi1 r0,
    _K s1 !! 0 = Some (k0lo, k0hi) /\
    xs !! 0 = Some (py_min k0hi (I0 s1).2) /\
    _K s1 !! 1 = Some (lo1, hi1) /\
    greedy_step 0 (py_min k0hi (I0 s1).2) lo1 hi1 true reg s1
      = (Ok r0, tr 0) /\
    (forall i, i < N s1 ->
      exists x lo hi r si,
        xs !! i = Some x /\
        _K s1 !! (i + 1) = Some (lo, hi) /\
        greedy_step i x lo hi false reg (tr i) = (Ok r, si) /\
        us !! i = Some (stored r).1 /\
        xs !! (i + 1) = Some (stored r).2 /\
        tr (i + 1) = saved save i si) /\
    tr (N s1) = s' /\
    (forall k, k <= N s1 -> cfg (tr k) = cfg s1).
Proof.
  unfold forward_pass. intros E.
  apply bind_Ok in E as (s0 & s2 & [-> ->]%get_Ok & E).
  apply bind_Ok in E as (k0hi & s0 & (-> & row0 & Hrow0 & ->)%K_hi_Ok & E).
  apply bind_Ok in E
    as (xs0 & s0 & [[Hl0 ->]%set1_Some ->]%index_Ok & E).
  apply bind_Ok in E as (x0 & s0 & [Hx0 ->]%index_Ok & E).
  rewrite list_lookup_insert_eq in Hx0 by done. injection Hx0 as <-.
  apply bind_Ok in E as (lo & s0 & (-> & row & Hrow & ->)%K_lo_Ok & E).
  apply bind_Ok in E as (hi & s0 & (-> & row' & Hrow' & ->)%K_hi_Ok & E).
  assert (row' = row) as -> by congruence.
  apply bind_Ok in E as (r0 & s2 & Hwarm & E).
  pose proof (greedy_step_cfg _ _ _ _ _ _ _ _ _ Hwarm) as Hcfg.
  destruct (cfg_fields _ _ Hcfg) as (HK & _).
  destruct (topp_loop_trace _ _ _ _ _ _ _ _ _ _ E)
    as (tr & Htr0 & Htr1 & Hc & Hxs & Hus & Hst).
  exists tr, row0.1, row0.2, row.1, row.2, r0.
  rewrite Htr0. repeat split; try done.
  - by destruct row0.
  - rewrite Hxs by lia. by rewrite list_lookup_insert_eq.
  - by destruct row.
  - intros i Hi. destruct (Hst i) as (x & a & b & r & si & H1 & H2 & H3);
      [lia|].
    exists x, a, b, r, si. rewrite <- HK. tauto.
  - intros k Hk. rewrite Hc by lia. done.
Qed.

(** C5. The forward pass starts from [x[0] = min(K_hi[0], I0_hi)], in
    which [I0_lo] has no part, runs one cold-start greedy step at stage
    [0] whose result is dropped, and then for every [i] from [0] to
    [N - 1] takes [(u[i], x[i+1])] from a hot-start greedy step with the
    bounds [(K_lo[i+1], K_hi[i+1])]. *)
Theorem solve_topp_forward_pass save reg s us xs s' :
  solve_topp save reg s = (Ok (us, xs), s') ->
  exists s1,
    solve_controllable_sets default_eps (alloc_solutions save s)
      = (Ok true, s1) /\
    greedy_forward save reg s1 us xs s'.
Proof.
  intros (s1 & Hback & Hfwd)%solve_topp_Ok. exists s1. split; [done|].
  apply forward_pass_trace in Hfwd
    as (tr & a & b & c & d & r0 & H1 & H2 & H3 & H4 & H5 & H6 & _).
  by exists tr, a, b, c, d, r0.
Qed.

(** A successful [greedy_step]: the control is the [u] entry of the
    primal, the next state is recomputed from it, passes the sign
    assertion and is lifted by [SUPERTINY] when negative. *)
Lemma greedy_step_Some i x xmin xmax init reg s u x' s' :
  greedy_step i x xmin xmax init reg s = (Ok (Some (u, x')), s') ->
  exists d,
    Ds s !! i = Some d /\
    getPrimalSolution (solver_up s') !! 0 = Some u /\
    py_ge (x + 2 * d * u + SUPERTINY)%float 0%float = true /\
    x' = (if py_lt (x + 2 * d * u)%float 0%float
          then x + 2 * d * u + SUPERTINY else x + 2 * d * u)%float.
Proof.
  unfold greedy_step. intros E. inv_run E.
  destruct (negb _) eqn:F; [by apply ret_Ok in E as [? _]|].
  inv_run E. apply ret_Ok in E as [[= -> ->] ->].
  destruct (decide (nv _ = 0)); proj_simpl;
    match goal with
    | H1 : Ds s !! i = Some ?a, H2 : Ds s !! i = Some ?b |- _ =>
        assert (b = a) as -> by congruence
    end; eauto.
Qed.


(** ** Endpoint intervals *)

Lemma check_interval_one name v s :
  check_interval name (Scalar v) s =
    if py_ge v v then
      if py_ge v 0%float then (Ok (v, v), s)
      else (Raise (AssertionError negative_msg), s)
    else (Raise (AssertionError non_increase_msg), s).
Proof.
  unfold check_interval. simpl.
  cbv [mbind M_bind mret M_ret py_assert index raise]; simpl.
  destruct (py_ge v v); [|done]. by destruct (py_ge v 0).
Qed.

Lemma check_interval_one_array name v s :
  check_interval name (Array [v]) s = check_interval name (Scalar v) s.
Proof. reflexivity. Qed.

Lemma check_interval_two name lo hi s :
  check_interval name (Array [lo; hi]) s =
    if py_ge hi lo then
      if py_ge lo 0%float then (Ok (lo, hi), s)
      else (Raise (AssertionError negative_msg), s)
    else (Raise (AssertionError non_increase_msg), s).
Proof.
  unfold check_interval. simpl.
  cbv [mbind M_bind mret M_ret py_assert index raise]; simpl.
  destruct (py_ge hi lo); [|done]. by destruct (py_ge lo 0).
Qed.

Lemma check_interval_long name a s :
  2 < length a ->
  check_interval name (Array a) s
    = (Raise (ValueError (wrong_dimension name)), s).
Proof.
  intros Ha. unfold check_interval. simpl. rewrite bind_run.
  destruct (decide (length a = 1)); [lia|].
  destruct (decide (2 < length a)); [done|lia].
Qed.

Lemma set_start_interval_run x s :
  set_start_interval x s =
    match check_interval "I0" x s with
    | (Ok v, s1) => (Ok tt, set_I0 v s1)
    | (Raise e, s1) => (Raise e, s1)
    end.
Proof. unfold set_start_interval. rewrite bind_run. by destruct (check_interval _ _ _) as [[?|?] ?]. Qed.

Lemma set_goal_interval_run x s :
  set_goal_interval x s =
    match check_interval "IN" x s with
    | (Ok v, s1) => (Ok tt, set_IN v s1)
    | (Raise e, s1) => (Raise e, s1)
    end.
Proof. unfold set_goal_interval. rewrite bind_run. by destruct (check_interval _ _ _) as [[?|?] ?]. Qed.

(** C8. [set_start_interval] and [set_goal_interval] take a scalar, stored
    as [[v, v]], or an ordered pair; a negative lower end or inverted ends
    raise at once, leaving the object as it was, and more than two
    entries raise a [ValueError]. *)
Theorem set_interval_validation (x : interval_arg) (s : solver) :
  (forall v, x = Scalar v -> py_ge v 0%float = true ->
     set_start_interval x s = (Ok tt, set_I0 (v, v) s) /\
     set_goal_interval x s = (Ok tt, set_IN (v, v) s)) /\
  (forall lo hi, np_r_ x = [lo; hi] ->
     py_ge hi lo = true -> py_ge lo 0%float = true ->
     set_start_interval x s = (Ok tt, set_I0 (lo, hi) s) /\
     set_goal_interval x s = (Ok tt, set_IN (lo, hi) s)) /\
  (forall lo hi, np_r_ x = [lo; hi] \/ (np_r_ x = [lo] /\ hi = lo) ->
     py_lt lo 0%float = true \/ py_gt lo hi = true ->
     exists msg,
       set_start_interval x s = (Raise (AssertionError msg), s) /\
       set_goal_interval x s = (Raise (AssertionError msg), s)) /\
  (2 < length (np_r_ x) ->
     set_start_interval x s
       = (Raise (ValueError (wrong_dimension "I0")), s) /\
     set_goal_interval x s
       = (Raise (ValueError (wrong_dimension "IN")), s)).
Proof.
  rewrite set_start_interval_run, set_goal_interval_run.
  split; [|split; [|split]].
  - intros v -> Hv. rewrite !check_interval_one.
    rewrite (leb_true_leb_refl _ _ Hv : py_ge v v = true). by rewrite Hv.
  - intros lo hi Hx Hord Hpos.
    destruct x as [v|a]; simpl in *; [done|subst a].
    by rewrite !check_interval_two, Hord, Hpos.
  - intros lo hi Hx Hbad.
    assert (Hchk : forall name, exists msg,
      check_interval name x s = (Raise (AssertionError msg), s)).
    { intros name.
      assert (Hrej : py_ge hi lo = false \/
                     (py_ge hi lo = true /\ py_ge lo 0%float = false)).
      { unfold py_ge, py_gt, py_lt in *.
        destruct Hbad as [Hneg|Hinv].
        - apply ltb_true_leb_false in Hneg.
          destruct (PrimFloat.leb lo hi); auto.
        - apply ltb_true_leb_false in Hinv. auto. }
      assert (Heq : check_interval name x s =
        if py_ge hi lo then
          if py_ge lo 0%float then (Ok (lo, hi), s)
          else (Raise (AssertionError negative_msg), s)
        else (Raise (AssertionError non_increase_msg), s)).
      { destruct x as [v|a]; simpl in Hx.
        - destruct Hx as [[=]|[[= ->] ->]]. apply check_interval_one.
        - destruct Hx as [->|[-> ->]]; [apply check_interval_two|].
          rewrite check_interval_one_array. apply check_interval_one. }
      rewrite Heq. destruct Hrej as [->|[-> ->]]; eauto. }
    destruct (Hchk "I0"%string) as (m1 & E1).
    destruct (Hchk "IN"%string) as (m2 & E2).
    assert (m2 = m1) as ->.
    { revert E1 E2. clear Hchk.
      destruct x as [v|a]; simpl in Hx.
      - rewrite !check_interval_one.
        destruct (py_ge v v), (py_ge v 0%float); congruence.
      - destruct Hx as [->|[-> ->]].
        + rewrite !check_interval_two.
          destruct (py_ge hi lo), (py_ge lo 0%float); congruence.
        + rewrite !check_interval_one_array, !check_interval_one.
          destruct (py_ge lo lo), (py_ge lo 0%float); congruence. }
    exists m1. by rewrite E1, E2.
  - intros Hlen. destruct x as [v|a]; simpl in *; [lia|].
    by rewrite !check_interval_long.
Qed.

(** ** Operational rows *)

Lemma drop_zero_rows n k (m : mat) :
  n <= k -> drop k (zero_rows n m) = drop k m.
Proof.
  intros Hk. apply list_eq. intros j. unfold zero_rows.
  rewrite !lookup_drop, list_lookup_imap.
  destruct (m !! (k + j)); simpl; [|done]. by rewrite decide_False by lia.
Qed.

Lemma drop_zero_prefix n k (v : vec) :
  n <= k -> drop k (zero_prefix n v) = drop k v.
Proof.
  intros Hk. apply list_eq. intros j. unfold zero_prefix.
  rewrite !lookup_drop, list_lookup_imap.
  destruct (v !! (k + j)); simpl; [|done]. by rewrite decide_False by lia.
Qed.

Lemma set2_drop {X} n (m : list (list X)) i j x m' :
  set2 m i j x = Some m' -> j < n -> drop n <$> m' = drop n <$> m.
Proof.
  unfold set2. intros E Hj.
  destruct (m !! i) as [row|] eqn:Hrow; simpl in E; [|done].
  destruct (set1 row j x) as [row'|] eqn:Hrow'; simpl in E; [|done].
  injection E as <-. apply set1_Some in Hrow' as [_ ->].
  rewrite list_fmap_insert, drop_insert_lt by done.
  apply list_insert_id. by rewrite list_lookup_fmap, Hrow.
Qed.

Lemma set3_drop {X} n (t : list (list (list X))) i r c x t' :
  set3 t i r c x = Some t' -> r < n -> drop n <$> t' = drop n <$> t.
Proof.
  unfold set3. intros E Hr.
  destruct (t !! i) as [m|] eqn:Hm; simpl in E; [|done].
  destruct (set2 m r c x) as [m'|] eqn:Hm'; simpl in E; [|done].
  injection E as <-. unfold set2 in Hm'.
  destruct (m !! r) as [row|] eqn:Hrow; simpl in Hm'; [|done].
  destruct (set1 row c x) as [row'|]; simpl in Hm'; [|done].
  injection Hm' as <-.
  rewrite list_fmap_insert, drop_insert_lt by done.
  apply list_insert_id. by rewrite list_lookup_fmap, Hm.
Qed.

(** Runs of the writing actions, whatever their outcome. *)
Lemma A_set_run i r c v s :
  A_set i r c v s =
    match set3 (A s) i r c v with
    | Some t => (Ok tt, set_A t s)
    | None => (Raise IndexError, s)
    end.
Proof. unfold A_set. rewrite bind_run. cbn [get]. rewrite bind_run. by destruct (set3 _ _ _ _ _). Qed.

Lemma lA_set_run i r v s :
  lA_set i r v s =
    match set2 (lA s) i r v with
    | Some t => (Ok tt, set_lA t s)
    | None => (Raise IndexError, s)
    end.
Proof. unfold lA_set. rewrite bind_run. cbn [get]. rewrite bind_run. by destruct (set2 _ _ _ _). Qed.

Lemma hA_set_run i r v s :
  hA_set i r v s =
    match set2 (hA s) i r v with
    | Some t => (Ok tt, set_hA t s)
    | None => (Raise IndexError, s)
    end.
Proof. unfold hA_set. rewrite bind_run. cbn [get]. rewrite bind_run. by destruct (set2 _ _ _ _). Qed.

Lemma g_set_run k v s :
  g_set k v s =
    match set1 (g s) k v with
    | Some t => (Ok tt, set_g t s)
    | None => (Raise IndexError, s)
    end.
Proof. unfold g_set. rewrite bind_run. cbn [get]. rewrite bind_run. by destruct (set1 _ _ _). Qed.

Lemma A_set_beyond i c v : preserves beyond_row0 (A_set i 0 c v).
Proof.
  intros s r s'. rewrite A_set_run.
  destruct (set3 _ _ _ _ _) as [t|] eqn:E; intros [= <- <-]; [|done].
  unfold beyond_row0; simpl. by rewrite (set3_drop 1 _ _ _ _ _ _ E) by lia.
Qed.

Lemma lA_set_beyond i v : preserves beyond_row0 (lA_set i 0 v).
Proof.
  intros s r s'. rewrite lA_set_run.
  destruct (set2 _ _ _ _) as [t|] eqn:E; intros [= <- <-]; [|done].
  unfold beyond_row0; simpl. by rewrite (set2_drop 1 _ _ _ _ _ E) by lia.
Qed.

Lemma hA_set_beyond i v : preserves beyond_row0 (hA_set i 0 v).
Proof.
  intros s r s'. rewrite hA_set_run.
  destruct (set2 _ _ _ _) as [t|] eqn:E; intros [= <- <-]; [|done].
  unfold beyond_row0; simpl. by rewrite (set2_drop 1 _ _ _ _ _ E) by lia.
Qed.

Lemma g_set_beyond k v : k < 2 -> preserves beyond_row0 (g_set k v).
Proof.
  intros Hk s r s'. rewrite g_set_run.
  destruct (set1 _ _ _) as [t|] eqn:E; intros [= <- <-]; [|done].
  apply set1_Some in E as [_ ->].
  unfold beyond_row0; simpl. by rewrite drop_insert_lt.
Qed.

Ltac beyond_step :=
  first
    [ apply A_set_beyond | apply lA_set_beyond | apply hA_set_beyond
    | apply g_set_beyond; lia
    | lazymatch goal with
      | |- preserves _ (A_set _ _ _ _) => fail 1
      | |- preserves _ (lA_set _ _ _) => fail 1
      | |- preserves _ (hA_set _ _ _) => fail 1
      | |- preserves _ (g_set _ _) => fail 1
      | |- preserves _ (_ ≫= _) => apply preserves_bind; [|intros ?]
      end
    | by frame ].

Lemma reach_beyond i xmin xmax init :
  preserves beyond_row0 (reach i xmin xmax init).
Proof. unfold reach. repeat beyond_step. Qed.

Lemma proj_x_admissible_beyond i xmin xmax init :
  preserves beyond_row0 (proj_x_admissible i xmin xmax init).
Proof. unfold proj_x_admissible. repeat beyond_step. Qed.

Lemma keeps_bind {X Y} (m : M X) (f : X -> M Y) :
  keeps_permanent m -> (forall x, keeps_permanent (f x)) ->
  keeps_permanent (m ≫= f).
Proof.
  intros Hm Hf s r s' Hs. rewrite bind_run.
  destruct (m s) as [[x|e] s1] eqn:E.
  - destruct (Hm _ _ _ Hs E) as [Hs1 <-]. by apply Hf.
  - intros [= <- <-]. eapply Hm; eauto.
Qed.

Lemma keeps_of_preserves {X} (m : M X) :
  preserves blocks m -> keeps_permanent m.
Proof.
  intros Hm s r s' Hs E. apply Hm in E. unfold blocks in E.
  injection E as E1 E2 E3 E4 E5 E6. unfold permanent.
  by rewrite E1, E2, E3, E4, E5, E6.
Qed.

Lemma A_set_keeps i r c v : r < 3 -> keeps_permanent (A_set i r c v).
Proof.
  intros Hr s res s' Hs. rewrite A_set_run.
  destruct (set3 _ _ _ _ _) as [t|] eqn:E; intros [= <- <-]; [|done].
  split; [done|]. unfold permanent; simpl.
  by rewrite (set3_drop (nop s) _ _ _ _ _ _ E) by lia.
Qed.

Lemma lA_set_keeps i r v : r < 3 -> keeps_permanent (lA_set i r v).
Proof.
  intros Hr s res s' Hs. rewrite lA_set_run.
  destruct (set2 _ _ _ _) as [t|] eqn:E; intros [= <- <-]; [|done].
  split; [done|]. unfold permanent; simpl.
  by rewrite (set2_drop (nop s) _ _ _ _ _ E) by lia.
Qed.

Lemma hA_set_keeps i r v : r < 3 -> keeps_permanent (hA_set i r v).
Proof.
  intros Hr s res s' Hs. rewrite hA_set_run.
  destruct (set2 _ _ _ _) as [t|] eqn:E; intros [= <- <-]; [|done].
  split; [done|]. unfold permanent; simpl.
  by rewrite (set2_drop (nop s) _ _ _ _ _ E) by lia.
Qed.

Lemma A_set_row_keeps i r vals :
  r < 3 -> keeps_permanent (A_set_row i r vals).
Proof.
  intros Hr s res s' Hs. unfold A_set_row.
  rewrite bind_run. cbn [get]. rewrite bind_run.
  destruct (A s !! i) as [m|] eqn:Hm; simpl; [|by intros [= <- <-]].
  rewrite bind_run.
  destruct (m !! r) as [row|] eqn:Hrow; simpl; [|by intros [= <- <-]].
  destruct (decide _); intros [= <- <-]; [|done].
  split; [done|]. unfold permanent; simpl.
  rewrite list_fmap_insert, drop_insert_lt by lia.
  rewrite list_insert_id; [done|]. by rewrite list_lookup_fmap, Hm.
Qed.

Lemma permanent_after_reset s : permanent (after_reset s) = permanent s.
Proof.
  unfold permanent; simpl.
  assert (HA : drop (nop s) <$> (zero_rows (nop s) <$> A s)
               = drop (nop s) <$> A s).
  { rewrite <- list_fmap_compose. apply list_fmap_ext.
    intros ? m ?. simpl. by apply drop_zero_rows. }
  assert (Hv : forall t : mat,
    drop (nop s) <$> (zero_prefix (nop s) <$> t) = drop (nop s) <$> t).
  { intros t. rewrite <- list_fmap_compose. apply list_fmap_ext.
    intros ? v ?. simpl. by apply drop_zero_prefix. }
  by rewrite HA, !Hv.
Qed.

Lemma reset_keeps : keeps_permanent reset_operational_rows.
Proof.
  intros s r s' Hs. rewrite reset_run. intros [= <- <-].
  split; [done|]. apply permanent_after_reset.
Qed.

Ltac permanent_step :=
  first
    [ apply A_set_keeps; lia | apply lA_set_keeps; lia
    | apply hA_set_keeps; lia | apply A_set_row_keeps; lia
    | apply reset_keeps
    | lazymatch goal with
      | |- keeps_permanent (A_set _ _ _ _) => fail 1
      | |- keeps_permanent (A_set_row _ _ _) => fail 1
      | |- keeps_permanent (lA_set _ _ _) => fail 1
      | |- keeps_permanent (hA_set _ _ _) => fail 1
      | |- keeps_permanent reset_operational_rows => fail 1
      | |- keeps_permanent (_ ≫= _) => apply keeps_bind; [|intros ?]
      end
    | apply keeps_of_preserves; by frame ].

Lemma one_step_keeps i xmin xmax init :
  keeps_permanent (one_step i xmin xmax init).
Proof. unfold one_step. repeat permanent_step. Qed.

Lemma reach_keeps i xmin xmax init :
  keeps_permanent (reach i xmin xmax init).
Proof. unfold reach. repeat permanent_step. Qed.

Lemma proj_x_admissible_keeps i xmin xmax init :
  keeps_permanent (proj_x_admissible i xmin xmax init).
Proof. unfold proj_x_admissible. repeat permanent_step. Qed.

Lemma greedy_step_keeps i x xmin xmax init reg :
  keeps_permanent (greedy_step i x xmin xmax init reg).
Proof. unfold greedy_step. repeat permanent_step. Qed.

Lemma least_greedy_step_keeps i x xmin xmax init reg :
  keeps_permanent (least_greedy_step i x xmin xmax init reg).
Proof. unfold least_greedy_step. repeat permanent_step. Qed.

Lemma zero_vec_lookup (v : vec) k x : zero_vec v !! k = Some x -> x = 0%float.
Proof.
  unfold zero_vec. rewrite list_lookup_fmap.
  destruct (v !! k); simpl; congruence.
Qed.

Lemma zero_prefix_lookup n (v : vec) k x :
  k < n -> zero_prefix n v !! k = Some x -> x = 0%float.
Proof.
  intros Hk. unfold zero_prefix. rewrite list_lookup_imap.
  destruct (v !! k); simpl; [|done]. rewrite decide_True by done. congruence.
Qed.

Lemma zero_rows_lookup n (m : mat) r c x :
  r < n -> get2 (zero_rows n m) r c = Some x -> x = 0%float.
Proof.
  intros Hr. unfold get2, zero_rows. rewrite list_lookup_imap.
  destruct (m !! r); simpl; [|done]. rewrite decide_True by done.
  apply zero_vec_lookup.
Qed.

(** Every entry the reset reaches is zero afterwards. *)
Lemma after_reset_zero s :
  (forall j r c v, r < nop s ->
     get3 (A (after_reset s)) j r c = Some v -> v = 0%float) /\
  (forall j r v, r < nop s ->
     get2 (lA (after_reset s)) j r = Some v -> v = 0%float) /\
  (forall j r v, r < nop s ->
     get2 (hA (after_reset s)) j r = Some v -> v = 0%float) /\
  (forall r c v, get2 (H (after_reset s)) r c = Some v -> v = 0%float) /\
  (forall k v, g (after_reset s) !! k = Some v -> v = 0%float).
Proof.
  simpl. repeat split.
  - intros j r c v Hr. unfold get3. rewrite list_lookup_fmap.
    destruct (A s !! j); simpl; [|done]. by apply zero_rows_lookup.
  - intros j r v Hr. unfold get2. rewrite list_lookup_fmap.
    destruct (lA s !! j); simpl; [|done]. by apply zero_prefix_lookup.
  - intros j r v Hr. unfold get2. rewrite list_lookup_fmap.
    destruct (hA s !! j); simpl; [|done]. by apply zero_prefix_lookup.
  - intros r c v. unfold get2. rewrite list_lookup_fmap.
    destruct (H s !! r); simpl; [|done]. apply zero_vec_lookup.
  - intros k v. apply zero_vec_lookup.
Qed.

(** C9. [reset_operational_rows] zeroes the first [nop] rows of [A], [lA],
    [hA] and all of [H] and [g]; [one_step], [greedy_step] and
    [least_greedy_step] begin with it, so what those entries held before
    the call has no effect on them; [reach] and [proj_x_admissible] do
    not, and change nothing beyond operational row [0] and the first two
    entries of [g]; no primitive changes the permanent blocks. *)
Theorem operational_rows_frame i x xmin xmax init reg s :
  (reset_operational_rows s = (Ok tt, after_reset s) /\
   (forall j r c v, r < nop s ->
      get3 (A (after_reset s)) j r c = Some v -> v = 0%float) /\
   (forall j r v, r < nop s ->
      get2 (lA (after_reset s)) j r = Some v -> v = 0%float) /\
   (forall j r v, r < nop s ->
      get2 (hA (after_reset s)) j r = Some v -> v = 0%float) /\
   (forall r c v, get2 (H (after_reset s)) r c = Some v -> v = 0%float) /\
   (forall k v, g (after_reset s) !! k = Some v -> v = 0%float)) /\
  (forall s2, after_reset s2 = after_reset s ->
     one_step i xmin xmax init s2 = one_step i xmin xmax init s /\
     greedy_step i x xmin xmax init reg s2
       = greedy_step i x xmin xmax init reg s /\
     least_greedy_step i x xmin xmax init reg s2
       = least_greedy_step i x xmin xmax init reg s) /\
  (forall r s',
     reach i xmin xmax init s = (r, s') \/
     proj_x_admissible i xmin xmax init s = (r, s') ->
     beyond_row0 s' = beyond_row0 s) /\
  (nop s = 3 ->
   forall r s',
     one_step i xmin xmax init s = (r, s') \/
     reach i xmin xmax init s = (r, s') \/
     proj_x_admissible i xmin xmax init s = (r, s') \/
     greedy_step i x xmin xmax init reg s = (r, s') \/
     least_greedy_step i x xmin xmax init reg s = (r, s') ->
     permanent s' = permanent s).
Proof.
  split; [split; [apply reset_run|apply after_reset_zero]|].
  split; [|split].
  - intros s2 Hs2. unfold one_step, greedy_step, least_greedy_step.
    rewrite !bind_run, !reset_run, Hs2. done.
  - intros r s' [E|E].
    + eapply reach_beyond, E.
    + eapply proj_x_admissible_beyond, E.
  - intros Hs r s' [E|[E|[E|[E|E]]]].
    + eapply one_step_keeps; eauto.
    + eapply reach_keeps; eauto.
    + eapply proj_x_admissible_keeps; eauto.
    + eapply greedy_step_keeps; eauto.
    + eapply least_greedy_step_keeps; eauto.
Qed.

(** ** The exposed sets [K] and [L] *)

Lemma L_lo_Ok i s v s' :
  L_lo i s = (Ok v, s') ->
  s' = s /\ exists row, _L s !! i = Some row /\ v = row.1.
Proof.
  unfold L_lo. intros E.
  apply bind_Ok in E as (s0 & s1 & [-> ->]%get_Ok & E).
  apply bind_Ok in E as (row & s2 & [Hrow ->]%index_Ok & [-> ->]%ret_Ok).
  eauto.
Qed.

Lemma L_hi_Ok i s v s' :
  L_hi i s = (Ok v, s') ->
  s' = s /\ exists row, _L s !! i = Some row /\ v = row.2.
Proof.
  unfold L_hi. intros E.
  apply bind_Ok in E as (s0 & s1 & [-> ->]%get_Ok & E).
  apply bind_Ok in E as (row & s2 & [Hrow ->]%index_Ok & [-> ->]%ret_Ok).
  eauto.
Qed.

Lemma L_store_Ok i lo hi s u s2 u' s3 :
  L_set_hi i hi s = (Ok u, s2) -> L_set_lo i lo s2 = (Ok u', s3) ->
  i < length (_L s) /\ s3 = store_L i (lo, hi) s.
Proof.
  unfold L_set_hi, L_set_lo. intros E1 E2.
  apply bind_Ok in E1 as (s0 & s1 & [-> ->]%get_Ok & E1).
  apply bind_Ok in E1 as (row & s1 & [Hrow ->]%index_Ok & ->%modify_Ok).
  apply bind_Ok in E2 as (s0 & s1 & [-> ->]%get_Ok & E2).
  apply bind_Ok in E2 as (row' & s1 & [Hrow' ->]%index_Ok & ->%modify_Ok).
  simpl in *. pose proof (lookup_lt_Some _ _ _ Hrow) as Hlen.
  rewrite list_lookup_insert_eq in Hrow' by done.
  injection Hrow' as <-. simpl. split; [done|].
  unfold store_L, set_L; simpl. f_equal. apply list_insert_insert_eq.
Qed.

Lemma store_L_lookup i row s j :
  i < length (_L s) ->
  _L (store_L i row s) !! j = if decide (i = j) then Some row else _L s !! j.
Proof.
  intros Hi. simpl. destruct (decide (i = j)) as [->|Hne].
  - by rewrite list_lookup_insert_eq.
  - by rewrite list_lookup_insert_ne.
Qed.
























(** * Further properties of the methods *)

(** ** Exceptions *)

Lemma raises_only_weaken {X} (P Q : exn -> Prop) (m : M X) :
  (forall e, P e -> Q e) -> raises_only P m -> raises_only Q m.
Proof. intros HPQ Hm s e s' E. eapply HPQ, Hm, E. Qed.

Ltac exn_step_with tac :=
  lazymatch goal with
  | |- raises_only _ (_ ≫= _) => apply raises_only_bind; [|intros ?]
  | |- raises_only _ (mret _) => apply raises_only_total; eauto
  | |- raises_only _ get => apply raises_only_total; eauto
  | |- raises_only _ (modify _) => apply raises_only_total; eauto
  | |- raises_only _ (raise _) => apply raises_only_raise; tac
  | |- raises_only _ (index _) => apply raises_only_index; tac
  | |- raises_only _ (py_assert _ _) => apply raises_only_assert; tac
  | |- raises_only _ (if ?b then _ else _) => destruct b
  | |- raises_only _ (match ?x with _ => _ end) => destruct x
  end.

Ltac exn_with tac := unfold_actions; cbv zeta; repeat exn_step_with tac.

Ltac pick_error :=
  unfold least_greedy_errors, greedy_errors, proj_errors, index_only;
  eauto 8.

Lemma one_step_raises i xmin xmax init :
  raises_only index_only (one_step i xmin xmax init).
Proof. unfold one_step. exn_with pick_error. Qed.

Lemma reach_raises i xmin xmax init :
  raises_only index_only (reach i xmin xmax init).
Proof. unfold reach. exn_with pick_error. Qed.

Lemma proj_x_admissible_raises i xmin xmax init :
  raises_only proj_errors (proj_x_admissible i xmin xmax init).
Proof. unfold proj_x_admissible. exn_with pick_error. Qed.

Lemma greedy_step_raises i x xmin xmax init reg :
  raises_only greedy_errors (greedy_step i x xmin xmax init reg).
Proof. unfold greedy_step. exn_with pick_error. Qed.

Lemma least_greedy_step_raises i x xmin xmax init reg :
  raises_only least_greedy_errors (least_greedy_step i x xmin xmax init reg).
Proof. unfold least_greedy_step. exn_with pick_error. Qed.

Lemma index_only_proj e : index_only e -> proj_errors e.
Proof. intros ->. by left. Qed.

Ltac exn_sweep IH :=
  repeat first
    [ apply IH
    | apply one_step_raises
    | apply proj_x_admissible_raises
    | eapply raises_only_weaken;
        [apply index_only_proj|apply reach_raises]
    | exn_step_with pick_error ].

Lemma backward_loop_raises eps k init :
  raises_only index_only (backward_loop eps k init).
Proof.
  revert init. induction k as [|i IH]; intros init; cbn [backward_loop];
    unfold_actions; exn_sweep IH.
Qed.

Lemma solve_controllable_sets_raises eps :
  raises_only proj_errors (solve_controllable_sets eps).
Proof.
  unfold solve_controllable_sets. unfold_actions.
  exn_sweep proj_x_admissible_raises.
  eapply raises_only_weaken;
    [apply index_only_proj|apply backward_loop_raises].
Qed.

Lemma forward_loop_raises n i :
  raises_only proj_errors (forward_loop n i).
Proof.
  revert i. induction n as [|n IH]; intros i; cbn [forward_loop];
    cbv zeta; unfold_actions; exn_sweep IH.
Qed.

Lemma solve_reachable_sets_raises :
  raises_only proj_errors solve_reachable_sets.
Proof.
  unfold solve_reachable_sets. unfold_actions.
  exn_sweep forward_loop_raises.
Qed.

(** X1. A failure inside [one_step] or [reach] never surfaces as an
    assertion, key or value error: apart from an index out of range they
    raise nothing.  [proj_x_admissible] can also raise a key error or its
    tolerance assertion, [greedy_step] its sign assertion, and
    [least_greedy_step] in addition a value error; the two sweeps raise
    only what [proj_x_admissible] does. *)
Theorem raised_exceptions i x xmin xmax init reg eps :
  raises_only index_only (one_step i xmin xmax init) /\
  raises_only index_only (reach i xmin xmax init) /\
  raises_only proj_errors (proj_x_admissible i xmin xmax init) /\
  raises_only greedy_errors (greedy_step i x xmin xmax init reg) /\
  raises_only least_greedy_errors
    (least_greedy_step i x xmin xmax init reg) /\
  raises_only proj_errors (solve_controllable_sets eps) /\
  raises_only proj_errors solve_reachable_sets.
Proof.
  split; [apply one_step_raises|].
  split; [apply reach_raises|].
  split; [apply proj_x_admissible_raises|].
  split; [apply greedy_step_raises|].
  split; [apply least_greedy_step_raises|].
  split; [apply solve_controllable_sets_raises|].
  apply solve_reachable_sets_raises.
Qed.

(** ** The greedy steps *)

Lemma A_set_row_Ok i r vals s u s' :
  A_set_row i r vals s = (Ok u, s') ->
  exists m row,
    A s !! i = Some m /\ m !! r = Some row /\ length row = length vals /\
    s' = set_A (<[i := <[r := vals]> m]> (A s)) s.
Proof.
  unfold A_set_row. intros E. inv_run E.
  case_decide; [|discriminate E].
  apply modify_Ok in E as ->. eauto 10.
Qed.

Lemma snap_nonnegative raw :
  py_ge (raw + SUPERTINY)%float 0%float = true ->
  py_ge (if py_lt raw 0%float then (raw + SUPERTINY)%float else raw)
    0%float = true.
Proof.
  unfold py_ge, py_lt. intros Hslack.
  destruct (PrimFloat.ltb raw 0) eqn:Hneg; [done|].
  by eapply leb_add_slack.
Qed.

Lemma least_greedy_step_Some i x xmin xmax init reg s u x' s' :
  least_greedy_step i x xmin xmax init reg s = (Ok (Some (u, x')), s') ->
  exists d,
    Ds s !! i = Some d /\
    getPrimalSolution (solver_up s') !! 0 = Some u /\
    py_ge (x + 2 * d * u + SUPERTINY)%float 0%float = true /\
    x' = (if py_lt (x + 2 * d * u)%float 0%float
          then x + 2 * d * u + SUPERTINY else x + 2 * d * u)%float.
Proof.
  unfold least_greedy_step. intros E. inv_run E.
  repeat match goal with
         | H : A_set_row _ _ _ _ = _ |- _ =>
             apply A_set_row_Ok in H as (? & ? & ? & ? & ? & ->)
         end.
  inv_run E.
  repeat match goal with
         | H : A_set_row _ _ _ _ = _ |- _ =>
             apply A_set_row_Ok in H as (? & ? & ? & ? & ? & ->)
         end.
  inv_run E.
  destruct (negb _) eqn:F; [by apply ret_Ok in E as [? _]|].
  inv_run E. apply ret_Ok in E as [[= -> ->] ->].
  destruct (decide (nv _ = 0)); proj_simpl;
    match goal with
    | H1 : Ds s !! i = Some ?a, H2 : Ds s !! i = Some ?b |- _ =>
        assert (b = a) as -> by congruence
    end; eauto.
Qed.

(** X2. The next state returned by [greedy_step] and by
    [least_greedy_step] is never negative: a value in [-SUPERTINY, 0) is
    lifted by [SUPERTINY], a lower one aborts with the assertion. *)
Theorem greedy_steps_nonnegative i x xmin xmax init reg s u x' s' :
  greedy_step i x xmin xmax init reg s = (Ok (Some (u, x')), s') \/
  least_greedy_step i x xmin xmax init reg s = (Ok (Some (u, x')), s') ->
  py_ge x' 0%float = true.
Proof.
  intros [E|E];
    [apply greedy_step_Some in E|apply least_greedy_step_Some in E];
    destruct E as (d & _ & _ & Hslack & ->);
    by apply snap_nonnegative.
Qed.

Lemma A_set_row_width i r vals s m row :
  A s !! i = Some m -> m !! r = Some row -> length row <> length vals ->
  A_set_row i r vals s
    = (Raise (ValueError "could not broadcast input array"), s).
Proof.
  intros Hm Hrow Hlen. unfold A_set_row.
  cbv [mbind M_bind get]. rewrite Hm. cbv [index mret M_ret].
  rewrite Hrow. by rewrite decide_False.
Qed.

Lemma zero_rows_row n m r row :
  m !! r = Some row ->
  exists row', zero_rows n m !! r = Some row' /\ length row' = length row.
Proof.
  intros Hrow. unfold zero_rows. rewrite list_lookup_imap, Hrow.
  cbn [fmap option_fmap option_map].
  case_decide; eexists; (split; [reflexivity|]); [|done].
  unfold zero_vec. by rewrite length_fmap.
Qed.

(** X3. [least_greedy_step] assigns the two-element list [[0, 1]] to row
    [0] of [A[i]]: on an object whose rows of [A] are not two wide (as
    with slack variables, where a row has [nv + 2] entries) it raises a
    value error, after the operational rows have been reset and before
    any solver is called. *)
Theorem least_greedy_step_row_width i x xmin xmax init reg s m row :
  A s !! i = Some m -> m !! 0 = Some row -> length row <> 2 ->
  exists msg,
    least_greedy_step i x xmin xmax init reg s
      = (Raise (ValueError msg), after_reset s).
Proof.
  intros Hm Hrow Hlen. eexists.
  destruct (zero_rows_row (nop s) m 0 row Hrow) as (row' & Hrow' & Hlen').
  unfold least_greedy_step.
  rewrite bind_run, reset_run. cbv iota beta.
  rewrite bind_run.
  rewrite (A_set_row_width i 0 _ (after_reset s) (zero_rows (nop s) m) row');
    [reflexivity| |done|cbn [length]; lia].
  unfold after_reset. proj_simpl. by rewrite list_lookup_fmap, Hm.
Qed.

(** ** Solver statuses in [proj_x_admissible] *)

(** Splits a run that ends in a key error: nothing before the status
    lookup raises one. *)
Ltac inv_key E :=
  repeat
    (lazymatch type of E with
     | (?m ≫= _) _ = (Raise (KeyError _), _) =>
         let E1 := fresh "E" in
         apply bind_Raise in E as [E|(? & ? & E1 & E)];
         [exfalso;
          let Hm := fresh in
          assert (Hm : raises_only (fun e => forall k, e <> KeyError k) m)
            by (exn_with done);
          exact (Hm _ _ _ E _ eq_refl)
         |inv_leaf E1]
     end).

(** ** What the sweeps leave alone *)

Ltac frame_sweep IH :=
  repeat first
    [ apply IH
    | frame_step
    | progress (unfold one_step, reach, proj_x_admissible, greedy_step;
                unfold_actions; cbv zeta) ].

Lemma backward_loop_aside eps k init :
  preserves (fun s => (_L s, static s)) (backward_loop eps k init).
Proof.
  revert init. induction k as [|i IH]; intros init; cbn [backward_loop];
    frame_sweep IH.
Qed.

Lemma solve_controllable_sets_aside eps :
  preserves (fun s => (_L s, static s)) (solve_controllable_sets eps).
Proof.
  unfold solve_controllable_sets.
  frame_sweep (backward_loop_aside eps).
Qed.

Lemma forward_loop_aside n i :
  preserves (fun s => (_K s, static s)) (forward_loop n i).
Proof.
  revert i. induction n as [|n IH]; intros i; cbn [forward_loop];
    frame_sweep IH.
Qed.

Lemma topp_loop_aside save reg n i us xs :
  preserves (fun s => (_L s, static s)) (topp_loop save reg n i us xs).
Proof.
  revert i us xs. induction n as [|n IH]; intros i us xs; cbn [topp_loop];
    frame_sweep IH.
Qed.

(** X5. The two sweeps do not interfere: [solve_controllable_sets] and
    [solve_topp] leave [_L] as it is, [solve_reachable_sets] leaves [_K] as
    it is, and none of them changes the grid, the intervals asked for or
    the variable bounds, whether it returns or raises. *)
Theorem sweeps_independent eps save reg :
  preserves (fun s => (_L s, static s)) (solve_controllable_sets eps) /\
  preserves (fun s => (_K s, static s)) solve_reachable_sets /\
  preserves (fun s => (_L s, static s)) (solve_topp save reg).
Proof.
  split; [apply solve_controllable_sets_aside|]. split.
  - unfold solve_reachable_sets. frame_sweep forward_loop_aside.
  - unfold solve_topp, forward_pass.
    frame_sweep solve_controllable_sets_aside.
    all: apply topp_loop_aside.
Qed.

(** ** Array shapes *)

Lemma set1_length {X} (v : list X) k x t :
  set1 v k x = Some t -> length t = length v.
Proof. intros [_ ->]%set1_Some. apply length_insert. Qed.

Lemma set2_shape (m : mat) i j x t :
  set2 m i j x = Some t -> row_lengths t = row_lengths m.
Proof.
  unfold set2. destruct (m !! i) as [row|] eqn:Hrow; [|done]. simpl.
  destruct (set1 row j x) as [row'|] eqn:Hset; [|done]. simpl.
  intros [= <-]. unfold row_lengths. rewrite list_fmap_insert.
  apply list_insert_id. rewrite list_lookup_fmap, Hrow. simpl.
  f_equal. symmetry. by eapply set1_length.
Qed.

Lemma set3_shape (a : list mat) i j k x t :
  set3 a i j k x = Some t -> row_lengths <$> t = row_lengths <$> a.
Proof.
  unfold set3. destruct (a !! i) as [m|] eqn:Hm; [|done]. simpl.
  destruct (set2 m j k x) as [m'|] eqn:Hset; [|done]. simpl.
  intros [= <-]. rewrite list_fmap_insert.
  apply list_insert_id. rewrite list_lookup_fmap, Hm. simpl.
  f_equal. symmetry. by eapply set2_shape.
Qed.

Lemma zero_prefix_length n v : length (zero_prefix n v) = length v.
Proof. unfold zero_prefix. apply length_imap. Qed.

Lemma zero_vec_length v : length (zero_vec v) = length v.
Proof. unfold zero_vec. apply length_fmap. Qed.

Lemma zero_rows_shape n m : row_lengths (zero_rows n m) = row_lengths m.
Proof.
  unfold row_lengths, zero_rows. apply list_eq. intros r.
  rewrite !list_lookup_fmap, list_lookup_imap.
  destruct (m !! r); [|done]. simpl.
  case_decide; [|done]. by rewrite zero_vec_length.
Qed.

Lemma add_reg_shape reg m : row_lengths (add_reg reg m) = row_lengths m.
Proof.
  unfold row_lengths, add_reg. apply list_eq. intros r.
  rewrite !list_lookup_fmap, list_lookup_imap.
  destruct (m !! r); [|done]. simpl.
  case_decide; [|done]. by rewrite length_imap.
Qed.

Lemma after_reset_dims s : dims (after_reset s) = dims s.
Proof.
  unfold dims, after_reset. proj_simpl.
  assert (HA : row_lengths <$> (zero_rows (nop s) <$> A s)
               = row_lengths <$> A s).
  { rewrite <- list_fmap_compose. apply list_fmap_ext.
    intros _ m _. apply zero_rows_shape. }
  assert (Hpre : forall m, row_lengths (zero_prefix (nop s) <$> m)
                           = row_lengths m).
  { intros m. unfold row_lengths. rewrite <- list_fmap_compose.
    apply list_fmap_ext. intros _ v _. apply zero_prefix_length. }
  assert (HH : row_lengths (zero_vec <$> H s) = row_lengths (H s)).
  { unfold row_lengths. rewrite <- list_fmap_compose.
    apply list_fmap_ext. intros _ v _. apply zero_vec_length. }
  by rewrite HA, !Hpre, HH, zero_vec_length.
Qed.

Lemma reset_dims : preserves dims reset_operational_rows.
Proof. intros s r s'. rewrite reset_run. intros [= <- <-]. apply after_reset_dims. Qed.

Lemma A_set_dims i r c v : preserves dims (A_set i r c v).
Proof.
  intros s res s'. rewrite A_set_run.
  destruct (set3 _ _ _ _ _) as [t|] eqn:E; intros [= <- <-]; [|done].
  unfold dims; proj_simpl. by rewrite (set3_shape _ _ _ _ _ _ E).
Qed.

Lemma lA_set_dims i r v : preserves dims (lA_set i r v).
Proof.
  intros s res s'. rewrite lA_set_run.
  destruct (set2 _ _ _ _) as [t|] eqn:E; intros [= <- <-]; [|done].
  unfold dims; proj_simpl. by rewrite (set2_shape _ _ _ _ _ E).
Qed.

Lemma hA_set_dims i r v : preserves dims (hA_set i r v).
Proof.
  intros s res s'. rewrite hA_set_run.
  destruct (set2 _ _ _ _) as [t|] eqn:E; intros [= <- <-]; [|done].
  unfold dims; proj_simpl. by rewrite (set2_shape _ _ _ _ _ E).
Qed.

Lemma g_set_dims k v : preserves dims (g_set k v).
Proof.
  intros s res s'. unfold g_set. cbv [mbind M_bind get].
  destruct (set1 _ _ _) as [t|] eqn:E; intros [= <- <-]; [|done].
  unfold dims; proj_simpl. by rewrite (set1_length _ _ _ _ E).
Qed.

Lemma A_set_row_dims i r vals : preserves dims (A_set_row i r vals).
Proof.
  intros s res s'. unfold A_set_row. cbv [mbind M_bind get].
  destruct (A s !! i) as [m|] eqn:Hm; [|by intros [= <- <-]].
  cbv [index mret M_ret].
  destruct (m !! r) as [row|] eqn:Hrow; [|by intros [= <- <-]].
  case_decide as Hlen; intros [= <- <-]; [|done].
  unfold dims; proj_simpl. rewrite list_fmap_insert.
  rewrite (list_insert_id (row_lengths <$> A s)); [done|].
  rewrite list_lookup_fmap, Hm. simpl. f_equal.
  unfold row_lengths. rewrite list_fmap_insert. symmetry.
  apply list_insert_id. rewrite list_lookup_fmap, Hrow. simpl.
  by rewrite Hlen.
Qed.

Lemma regularize_dims reg : preserves dims (regularize reg).
Proof.
  intros s res s'. unfold regularize. cbv [mbind M_bind get].
  case_decide; intros [= <- <-]; [done|].
  unfold dims; proj_simpl. by rewrite add_reg_shape.
Qed.

Lemma K_set_lo_dims i v : preserves dims (K_set_lo i v).
Proof.
  intros s res s'. unfold K_set_lo. cbv [mbind M_bind get].
  destruct (_K s !! i); intros [= <- <-]; [|done].
  unfold dims; proj_simpl. by rewrite length_insert.
Qed.

Lemma K_set_hi_dims i v : preserves dims (K_set_hi i v).
Proof.
  intros s res s'. unfold K_set_hi. cbv [mbind M_bind get].
  destruct (_K s !! i); intros [= <- <-]; [|done].
  unfold dims; proj_simpl. by rewrite length_insert.
Qed.

Lemma L_set_lo_dims i v : preserves dims (L_set_lo i v).
Proof.
  intros s res s'. unfold L_set_lo. cbv [mbind M_bind get].
  destruct (_L s !! i); intros [= <- <-]; [|done].
  unfold dims; proj_simpl. by rewrite length_insert.
Qed.

Lemma L_set_hi_dims i v : preserves dims (L_set_hi i v).
Proof.
  intros s res s'. unfold L_set_hi. cbv [mbind M_bind get].
  destruct (_L s !! i); intros [= <- <-]; [|done].
  unfold dims; proj_simpl. by rewrite length_insert.
Qed.

Ltac unfold_reads :=
  unfold ss_at, Ds_at, xfull_at, call_up, call_down, stage_problem,
    primal_up, primal_down, K_lo, K_hi, L_lo, L_hi, save_solution.

Ltac dims_step IH :=
  first
    [ apply IH
    | apply reset_dims | apply A_set_dims | apply lA_set_dims
    | apply hA_set_dims | apply g_set_dims | apply A_set_row_dims
    | apply regularize_dims | apply K_set_lo_dims | apply K_set_hi_dims
    | apply L_set_lo_dims | apply L_set_hi_dims
    | lazymatch goal with
      | |- preserves _ reset_operational_rows => fail 1
      | |- preserves _ (A_set _ _ _ _) => fail 1
      | |- preserves _ (A_set_row _ _ _) => fail 1
      | |- preserves _ (lA_set _ _ _) => fail 1
      | |- preserves _ (hA_set _ _ _) => fail 1
      | |- preserves _ (g_set _ _) => fail 1
      | |- preserves _ (regularize _) => fail 1
      | |- preserves _ (K_set_lo _ _) => fail 1
      | |- preserves _ (K_set_hi _ _) => fail 1
      | |- preserves _ (L_set_lo _ _) => fail 1
      | |- preserves _ (L_set_hi _ _) => fail 1
      | |- _ => frame_step
      end
    | progress (unfold one_step, reach, proj_x_admissible, greedy_step,
                  least_greedy_step; unfold_reads; cbv zeta) ].

Lemma backward_loop_dims eps k init :
  preserves dims (backward_loop eps k init).
Proof.
  revert init. induction k as [|i IH]; intros init; cbn [backward_loop];
    repeat dims_step IH.
Qed.

Lemma solve_controllable_sets_dims eps :
  preserves dims (solve_controllable_sets eps).
Proof.
  unfold solve_controllable_sets. repeat dims_step (backward_loop_dims eps).
Qed.

Lemma forward_loop_dims n i : preserves dims (forward_loop n i).
Proof.
  revert i. induction n as [|n IH]; intros i; cbn [forward_loop];
    repeat dims_step IH.
Qed.

Lemma topp_loop_dims save reg n i us xs :
  preserves dims (topp_loop save reg n i us xs).
Proof.
  revert i us xs. induction n as [|n IH]; intros i us xs; cbn [topp_loop];
    repeat dims_step IH.
Qed.

(** X6. No method changes the shape of an array it works on: after any
    primitive, sweep or [solve_topp], returned or raised, the row lengths
    of [A], [lA], [hA] and [H] and the lengths of [g], [_K] and [_L] are
    what they were. *)
Theorem shapes_unchanged i x xmin xmax init reg eps save :
  preserves dims (one_step i xmin xmax init) /\
  preserves dims (reach i xmin xmax init) /\
  preserves dims (proj_x_admissible i xmin xmax init) /\
  preserves dims (greedy_step i x xmin xmax init reg) /\
  preserves dims (least_greedy_step i x xmin xmax init reg) /\
  preserves dims (solve_controllable_sets eps) /\
  preserves dims solve_reachable_sets /\
  preserves dims (solve_topp save reg).
Proof.
  split; [repeat dims_step reset_dims|].
  split; [repeat dims_step reset_dims|].
  split; [repeat dims_step reset_dims|].
  split; [repeat dims_step reset_dims|].
  split; [repeat dims_step reset_dims|].
  split; [apply solve_controllable_sets_dims|].
  split.
  - unfold solve_reachable_sets. repeat dims_step forward_loop_dims.
  - unfold solve_topp, forward_pass.
    repeat dims_step solve_controllable_sets_dims.
    all: apply topp_loop_dims.
Qed.

(** ** The interval setters on any argument *)

Lemma check_interval_pure name x :
  preserves (fun s => s) (check_interval name x).
Proof. unfold check_interval. frame. Qed.

Lemma check_interval_valid name x s v s' :
  check_interval name x s = (Ok v, s') -> valid_interval v.
Proof.
  unfold check_interval. intros E. inv_run E.
  apply ret_Ok in E as [-> _]. unfold valid_interval. simpl.
  repeat match goal with
         | H1 : ?l !! ?k = Some ?a, H2 : ?l !! ?k = Some ?b |- _ =>
             assert (b = a) as -> by congruence; clear H2
         end.
  done.
Qed.

Lemma check_interval_empty name s :
  check_interval name (Array []) s = (Raise IndexError, s).
Proof. reflexivity. Qed.

Lemma valid_interval_numbers p :
  valid_interval p -> is_number p.1 /\ is_number p.2.
Proof.
  unfold valid_interval, is_number, py_ge, py_le. intros [Hlo Hhi].
  split; by eapply leb_true_numbers.
Qed.

(** X7. Whatever the argument, a setter either stores an interval with
    [lo >= 0] and [hi >= lo], neither end being NaN, and changes nothing
    else, or raises and leaves the object as it was; an empty array
    raises an index error. *)
Theorem set_interval_outcome (x : interval_arg) (s : solver) :
  match set_start_interval x s with
  | (Ok _, s') =>
      valid_interval (I0 s') /\ is_number (I0 s').1 /\ is_number (I0 s').2 /\
      s' = set_I0 (I0 s') s
  | (Raise _, s') => s' = s
  end /\
  match set_goal_interval x s with
  | (Ok _, s') =>
      valid_interval (IN s') /\ is_number (IN s').1 /\ is_number (IN s').2 /\
      s' = set_IN (IN s') s
  | (Raise _, s') => s' = s
  end /\
  set_start_interval (Array []) s = (Raise IndexError, s) /\
  set_goal_interval (Array []) s = (Raise IndexError, s).
Proof.
  rewrite set_start_interval_run, set_goal_interval_run.
  split; [|split; [|split; reflexivity]].
  - destruct (check_interval "I0" x s) as [[v|e] s1] eqn:E;
      rewrite (check_interval_pure _ _ _ _ _ E); [|done].
    pose proof (check_interval_valid _ _ _ _ _ E) as Hv.
    destruct (valid_interval_numbers _ Hv). by simpl.
  - destruct (check_interval "IN" x s) as [[v|e] s1] eqn:E;
      rewrite (check_interval_pure _ _ _ _ _ E); [|done].
    pose proof (check_interval_valid _ _ _ _ _ E) as Hv.
    destruct (valid_interval_numbers _ Hv). by simpl.
Qed.

(** ** The forward sweep of [solve_reachable_sets] *)

(** The forward loop as a run through the objects [tr i, ..., tr (i + n)]:
    stage [k] starts from [tr k]. *)
Lemma forward_loop_trace n i s s' :
  forward_loop n i s = (Ok true, s') ->
  exists tr : nat -> solver,
    tr i = s /\ tr (i + n) = s' /\ N s' = N s /\
    (forall j, j <= i -> _L s' !! j = _L s !! j) /\
    forall k, i <= k < i + n ->
      exists lo hi lo_nx hi_nx lo_pr hi_pr s2 s3,
        _L s' !! k = Some (lo, hi) /\
        reach k lo hi (bool_decide (k <= 1)) (tr k)
          = (Ok (Some (lo_nx, hi_nx)), s2) /\
        proj_x_admissible (k + 1) lo_nx hi_nx (bool_decide (k <= 1)) s2
          = (Ok (Some (lo_pr, hi_pr)), s3) /\
        tr (k + 1) = store_L (k + 1) (lo_pr, hi_pr) s3 /\
        _L s' !! (k + 1) = Some (lo_pr, hi_pr).
Proof.
  revert i s. induction n as [|n IH]; intros i s E.
  - apply ret_Ok in E as [_ ->]. exists (fun _ => s).
    split; [done|]. split; [done|]. split; [done|]. split; [done|].
    intros k Hk. lia.
  - cbn [forward_loop] in E.
    apply bind_Ok in E as (lo & s0 & (-> & row & Hrow & ->)%L_lo_Ok & E).
    apply bind_Ok in E as (hi & s0 & (-> & row' & Hrow' & ->)%L_hi_Ok & E).
    assert (row' = row) as -> by congruence.
    apply bind_Ok in E as (r & s1 & Hreach & E).
    destruct r as [[xmin_nx xmax_nx]|]; [|by apply ret_Ok in E as [? _]].
    apply bind_Ok in E as (r' & s2 & Hproj & E).
    destruct r' as [[xmin_pr xmax_pr]|]; [|by apply ret_Ok in E as [? _]].
    apply bind_Ok in E as (u & s3 & Hhi & E).
    apply bind_Ok in E as (u' & s4 & Hlo & E).
    destruct (L_store_Ok _ _ _ _ _ _ _ _ Hhi Hlo) as (Hlen & ->).
    destruct (cfg_fields _ _ (reach_cfg _ _ _ _ _ _ _ Hreach))
      as (_ & HL1 & _ & _ & HN1 & _).
    destruct (cfg_fields _ _ (proj_x_admissible_cfg _ _ _ _ _ _ _ Hproj))
      as (_ & HL2 & _ & _ & HN2 & _).
    destruct (IH _ _ E) as (tr & Htr_i & Htr_n & HN' & Hframe & Hstages).
    assert (Hkeep : forall j, j <= i -> _L s' !! j = _L s !! j).
    { intros j Hj. rewrite Hframe by lia.
      rewrite store_L_lookup, decide_False by (done || lia).
      by rewrite HL2, HL1. }
    assert (Hnew : _L s' !! (i + 1) = Some (xmin_pr, xmax_pr)).
    { rewrite Hframe by lia. rewrite store_L_lookup by done.
      by rewrite decide_True. }
    exists (fun j => if decide (j = i) then s else tr j).
    rewrite decide_True by done. rewrite decide_False by lia.
    split; [done|].
    split; [by replace (i + S n) with (S i + n) by lia|].
    split; [rewrite HN'; simpl; by rewrite HN2, HN1|].
    split; [done|].
    intros k Hk. destruct (decide (k = i)) as [->|Hne].
    + exists row.1, row.2, xmin_nx, xmax_nx, xmin_pr, xmax_pr, s1, s2.
      rewrite decide_False by lia.
      replace (i + 1) with (S i) in * by lia.
      rewrite Hkeep, Hrow by done. by destruct row.
    + destruct (Hstages k) as (a & b & c & d & e & f & si & sj & Hst);
        [lia|].
      exists a, b, c, d, e, f, si, sj.
      rewrite decide_False by lia. done.
Qed.

(** X8. [solve_reachable_sets], when it succeeds, seeds [L[0]] with the
    projection of the start interval at stage [0] (cold start, after the
    operational rows are reset); then for every [i] from [0] to [N - 1]
    it takes the [reach] set of the interval stored at [i], projects it
    at stage [i + 1] and stores the result as [L[i + 1]], with cold starts
    at stages [0] and [1] only. *)
Theorem solve_reachable_sets_sweep s s' :
  solve_reachable_sets s = (Ok true, s') ->
  reachable_sweep s s'.
Proof.
  unfold solve_reachable_sets. intros E.
  rewrite bind_run, reset_run in E.
  apply bind_Ok in E as (s0 & s1 & [-> ->]%get_Ok & E).
  apply bind_Ok in E as (r & s3 & Hproj & E).
  destruct r as [[xmin xmax]|]; [|by apply ret_Ok in E as [? _]].
  apply bind_Ok in E as (u3 & s4 & Hhi & E).
  apply bind_Ok in E as (u4 & s5 & Hlo & E).
  destruct (L_store_Ok _ _ _ _ _ _ _ _ Hhi Hlo) as (Hlen & ->).
  change (N (after_reset s)) with (N s) in *.
  change (I0 (after_reset s)) with (I0 s) in *.
  destruct (forward_loop_trace _ _ _ _ E)
    as (tr & Htr_0 & Htr_N & HN & Hframe & Hstages).
  exists tr, xmin, xmax, s3.
  split; [done|]. split; [done|]. split.
  { rewrite Hframe by done. rewrite store_L_lookup by done.
    by rewrite decide_True. }
  split; [|done].
  intros i Hi. apply Hstages. lia.
Qed.

(** ** More on [solve_topp] *)

(** A [solve_topp] that returns has passed the feasibility check. *)
Lemma solve_topp_Ok_feasible save reg s us xs s' :
  solve_topp save reg s = (Ok (us, xs), s') ->
  exists s1 row,
    solve_controllable_sets default_eps (alloc_solutions save s)
      = (Ok true, s1) /\
    _K s1 !! 0 = Some row /\
    py_lt row.2 (I0 s1).1 = false /\ py_gt row.1 (I0 s1).2 = false /\
    forward_pass save reg s1 = (Ok (us, xs), s').
Proof.
  unfold solve_topp. intros E.
  apply bind_Ok in E as (s0 & s1 & [-> ->]%get_Ok & E).
  apply bind_Ok in E as (u & s1 & Halloc & E).
  assert (s1 = alloc_solutions save s) as ->.
  { unfold alloc_solutions. destruct save.
    - by apply modify_Ok in Halloc.
    - by apply ret_Ok in Halloc as [_ ->]. }
  apply bind_Ok in E as (c & s1 & Hback & E).
  apply bind_Ok in E as (hi & s0 & (-> & row & Hrow & ->)%K_hi_Ok & E).
  apply bind_Ok in E as (lo & s0 & (-> & row' & Hrow' & ->)%K_lo_Ok & E).
  assert (row' = row) as -> by congruence.
  apply bind_Ok in E as (s0 & s2 & [-> ->]%get_Ok & E).
  destruct c; simpl in E; [|discriminate].
  destruct (py_lt _ _) eqn:Hlo; [discriminate|].
  destruct (py_gt _ _) eqn:Hhi; [discriminate|].
  simpl in E. eauto 10.
Qed.

Lemma alloc_solutions_fields save s :
  I0 (alloc_solutions save s) = I0 s /\ N (alloc_solutions save s) = N s /\
  _K (alloc_solutions save s) = _K s.
Proof. by destruct save. Qed.

(** X9. When [solve_topp] returns for a start interval with
    [0 <= lo <= hi] and the stored upper end [K_hi[0]] is a number, the
    start state [xs[0]] lies in the start interval and does not exceed
    [K_hi[0]]. *)
Theorem solve_topp_start_state save reg s us xs s' k0lo k0hi :
  solve_topp save reg s = (Ok (us, xs), s') ->
  valid_interval (I0 s) ->
  _K s' !! 0 = Some (k0lo, k0hi) -> is_number k0hi ->
  exists x0,
    xs !! 0 = Some x0 /\
    py_le (I0 s).1 x0 = true /\ py_le x0 (I0 s).2 = true /\
    py_le x0 k0hi = true.
Proof.
  intros (s1 & row & Hback & Hrow & Hlo & _ & Hfwd)%solve_topp_Ok_feasible
    Hvalid HK Hnum.
  destruct (valid_interval_numbers _ Hvalid) as [Hn1 Hn2].
  destruct Hvalid as [_ Hord].
  pose proof (solve_controllable_sets_static _ _ _ _ Hback) as Hst.
  assert (HI : I0 s1 = I0 s).
  { destruct (alloc_solutions_fields save s) as (HI & _).
    rewrite <- HI. unfold static in Hst. by injection Hst. }
  apply forward_pass_trace in Hfwd
    as (tr & a & b & c & d & r0 & H1 & H2 & _ & _ & _ & Hend & Hcfg).
  assert (HK' : _K s' = _K s1).
  { rewrite <- Hend. by destruct (cfg_fields _ _ (Hcfg (N s1) (le_n _))). }
  rewrite HK', H1 in HK. injection HK as -> ->.
  rewrite H1 in Hrow. injection Hrow as <-. simpl in Hlo.
  rewrite HI in *. eexists. split; [exact H2|].
  unfold py_min, py_lt, py_le, py_ge, is_number in *.
  destruct (PrimFloat.ltb (I0 s).2 k0hi) eqn:Hmin.
  - split; [done|]. split; [done|]. by apply ltb_true_leb.
  - split; [by apply ltb_false_leb|]. split; [by apply ltb_false_leb|done].
Qed.

Lemma topp_loop_lengths save reg n i us xs s us' xs' s' :
  topp_loop save reg n i us xs s = (Ok (us', xs'), s') ->
  length us' = length us /\ length xs' = length xs.
Proof.
  revert i us xs s. induction n as [|n IH]; intros i us xs s E.
  - by apply ret_Ok in E as [[= -> ->] _].
  - cbn [topp_loop] in E.
    apply bind_Ok in E as (x & s0 & _ & E).
    apply bind_Ok in E as (lo & s1 & _ & E).
    apply bind_Ok in E as (hi & s2 & _ & E).
    apply bind_Ok in E as (r & si & _ & E).
    apply bind_Ok in E as (xs1 & s3 & [Hx _]%index_Ok & E).
    apply bind_Ok in E as (us1 & s4 & [Hu _]%index_Ok & E).
    apply bind_Ok in E as (u & s5 & _ & E).
    apply IH in E as [-> ->].
    by rewrite (set1_length _ _ _ _ Hx), (set1_length _ _ _ _ Hu).
Qed.

(** X10. The arrays [solve_topp] returns have the documented shapes:
    [us] has [N] entries and [xs] has [N + 1]. *)
Theorem solve_topp_shapes save reg s us xs s' :
  solve_topp save reg s = (Ok (us, xs), s') ->
  length us = N s /\ length xs = N s + 1.
Proof.
  intros (s1 & Hback & Hfwd)%solve_topp_Ok.
  pose proof (solve_controllable_sets_static _ _ _ _ Hback) as Hst.
  assert (HN : N s1 = N s).
  { destruct (alloc_solutions_fields save s) as (_ & HN & _).
    rewrite <- HN. unfold static in Hst. by injection Hst. }
  unfold forward_pass in Hfwd.
  apply bind_Ok in Hfwd as (s0 & s2 & [-> ->]%get_Ok & E).
  apply bind_Ok in E as (k0hi & s0 & _ & E).
  apply bind_Ok in E as (xs0 & s2 & [Hx _]%index_Ok & E).
  apply bind_Ok in E as (x0 & s3 & _ & E).
  apply bind_Ok in E as (lo & s4 & _ & E).
  apply bind_Ok in E as (hi & s5 & _ & E).
  apply bind_Ok in E as (r0 & s6 & _ & E).
  apply topp_loop_lengths in E as [-> ->].
  rewrite (set1_length _ _ _ _ Hx), !length_replicate. by rewrite HN.
Qed.

(** X11. On an object whose [_K] has at most one row (a grid of one
    point, [N = 0]) [solve_topp] cannot return: the warm start reads
    [_K[1]], so every run ends in an exception. *)
Theorem solve_topp_single_point save reg s :
  length (_K s) <= 1 ->
  exists e s', solve_topp save reg s = (Raise e, s').
Proof.
  intros Hlen.
  destruct (solve_topp save reg s) as [[[us xs]|e] s'] eqn:E; [|eauto].
  exfalso.
  apply solve_topp_Ok in E as (s1 & Hback & Hfwd).
  apply forward_pass_trace in Hfwd
    as (tr & a & b & c & d & r0 & _ & _ & H1 & _).
  apply lookup_lt_Some in H1.
  pose proof (solve_controllable_sets_dims _ _ _ _ Hback) as Hd.
  destruct (alloc_solutions_fields save s) as (_ & _ & HK).
  unfold dims in Hd. rewrite HK in Hd.
  injection Hd as _ _ _ _ _ Hd _. lia.
Qed.

(** ** Solutions kept under [save_solutions] *)

Lemma greedy_step_xfulls i x xmin xmax init reg :
  preserves _xfulls (greedy_step i x xmin xmax init reg).
Proof. unfold greedy_step. frame. Qed.

Lemma backward_loop_xfulls eps k init :
  preserves _xfulls (backward_loop eps k init).
Proof.
  revert init. induction k as [|i IH]; intros init; cbn [backward_loop];
    frame_sweep IH.
Qed.

Lemma solve_controllable_sets_xfulls eps :
  preserves _xfulls (solve_controllable_sets eps).
Proof.
  unfold solve_controllable_sets. frame_sweep (backward_loop_xfulls eps).
Qed.

(** The buffer after a greedy step: the primal of the solve when it
    succeeded, what it was when it failed. *)
Lemma greedy_step_buffer i x xmin xmax init reg s r s' :
  greedy_step i x xmin xmax init reg s = (Ok r, s') ->
  (is_Some r -> _xfull s' = getPrimalSolution (solver_up s')) /\
  (r = None -> _xfull s' = _xfull s).
Proof.
  unfold greedy_step. intros E. inv_run E.
  destruct (negb _) eqn:F.
  - apply ret_Ok in E as [-> ->]. split; [by intros [? [=]]|intros _].
    destruct (decide (nv _ = 0)); by proj_simpl.
  - inv_run E. apply ret_Ok in E as [-> ->]. split; [intros _|done].
    destruct (decide (nv _ = 0)); by proj_simpl.
Qed.

(** X12. After a [solve_topp] with [save_solutions] that returns,
    [_xfulls] has [N] rows, and along the run of the forward pass row [i]
    is the solver buffer as the greedy step of stage [i] left it: the
    primal solution of that step when it succeeded, the buffer as the
    stage found it when it failed.  [slack_vars] is that row without its
    first two entries. *)
Theorem solve_topp_saved_solutions reg s us xs s' :
  solve_topp true reg s = (Ok (us, xs), s') ->
  exists s1,
    solve_controllable_sets default_eps (alloc_solutions true s)
      = (Ok true, s1) /\
    N s1 = N s /\
    saved_rows reg s1 xs s'.
Proof.
  intros (s1 & Hback & Hfwd)%solve_topp_Ok. exists s1.
  pose proof (solve_controllable_sets_static _ _ _ _ Hback) as Hst.
  assert (HN : N s1 = N s) by (unfold static in Hst; by injection Hst).
  pose proof (solve_controllable_sets_xfulls _ _ _ _ Hback) as Hx1.
  simpl in Hx1.
  split; [done|]. split; [done|].
  apply forward_pass_trace in Hfwd
    as (tr & a & b & c & d & r0 & HK0 & _ & HK1 & Hwarm & Hstages & Hend & _).
  pose proof (greedy_step_xfulls _ _ _ _ _ _ _ _ _ Hwarm) as Hx0.
  assert (Hlen : forall k, k <= N s1 -> length (_xfulls (tr k)) = N s1).
  { induction k as [|k IH]; intros Hk.
    - by rewrite Hx0, Hx1, np_empty_length.
    - destruct (Hstages k)
        as (x & lo & hi & r & si & _ & _ & Hstep & _ & _ & Htr); [lia|].
      pose proof (greedy_step_xfulls _ _ _ _ _ _ _ _ _ Hstep) as Hxs.
      replace (S k) with (k + 1) by lia. rewrite Htr. simpl.
      rewrite length_insert, Hxs. apply IH. lia. }
  assert (Hkeep : forall i si, i < N s1 ->
            _xfulls (tr (i + 1)) !! i = Some si ->
            forall k, i + 1 <= k <= N s1 -> _xfulls (tr k) !! i = Some si).
  { intros i si Hi Hrow k Hk.
    induction k as [|k IH]; [lia|].
    destruct (decide (i + 1 = S k)) as [<-|Hne]; [done|].
    destruct (Hstages k)
      as (x & lo & hi & r & sk & _ & _ & Hstep & _ & _ & Htr); [lia|].
    pose proof (greedy_step_xfulls _ _ _ _ _ _ _ _ _ Hstep) as Hxs.
    replace (S k) with (k + 1) by lia. rewrite Htr. simpl.
    rewrite list_lookup_insert_ne by lia. rewrite Hxs. apply IH. lia. }
  exists tr, a, b, c, d, r0.
  split; [done|]. split; [done|]. split; [done|].
  split; [|split; [done|rewrite <- Hend; by apply Hlen]].
  intros i Hi.
  destruct (Hstages i Hi)
    as (x & lo & hi & r & si & Hx & HK & Hstep & _ & _ & Htr).
  pose proof (greedy_step_xfulls _ _ _ _ _ _ _ _ _ Hstep) as Hxs.
  assert (Hrow : _xfulls s' !! i = Some (_xfull si)).
  { rewrite <- Hend. apply (Hkeep i (_xfull si) Hi); [|lia].
    rewrite Htr. simpl. rewrite list_lookup_insert_eq; [done|].
    rewrite Hxs, Hlen; lia. }
  exists x, lo, hi, r, si.
  split; [done|]. split; [done|]. split; [done|]. split; [done|].
  split; [done|].
  split; [unfold slack_vars; by rewrite list_lookup_fmap, Hrow|].
  destruct (greedy_step_buffer _ _ _ _ _ _ _ _ _ Hstep) as [Hsome Hnone].
  destruct r as [p|]; [apply Hsome; eauto|by apply Hnone].
Qed.

(** ** The sweeps and the other end's interval *)

Lemma commutes_bind {X Y} f (m : M X) (k : X -> M Y) :
  commutes f m -> (forall x, commutes f (k x)) -> commutes f (m ≫= k).
Proof.
  intros Hm Hk s. rewrite !bind_run, Hm.
  destruct (m s) as [[x|e] s1]; simpl; [apply Hk|done].
Qed.

Lemma commutes_get {X} f (k : solver -> M X) :
  (forall s, commutes f (k s)) -> (forall s, k (f s) = k s) ->
  commutes f (get ≫= k).
Proof.
  intros Hk Hf s. rewrite !bind_run. cbn [get]. rewrite Hf. apply Hk.
Qed.

Lemma commutes_ret {X} f (x : X) : commutes f (mret x : M X).
Proof. by intros s. Qed.

Lemma commutes_raise {X} f e : commutes f (@raise _ X e).
Proof. by intros s. Qed.

Lemma commutes_index {X} f (o : option X) : commutes f (index o).
Proof. destruct o; [apply commutes_ret|apply commutes_raise]. Qed.

Lemma commutes_assert f b msg : commutes f (py_assert b msg).
Proof. destruct b; [apply commutes_ret|apply commutes_raise]. Qed.

Lemma commutes_modify f g :
  (forall s, g (f s) = f (g s)) -> commutes f (modify g).
Proof. intros Hg s. unfold modify. simpl. by rewrite Hg. Qed.

Ltac commute_step :=
  lazymatch goal with
  | |- commutes _ (get ≫= _) =>
      apply commutes_get; [intros ?|intros ?; reflexivity]
  | |- commutes _ (_ ≫= _) => apply commutes_bind; [|intros ?]
  | |- commutes _ (mret _) => apply commutes_ret
  | |- commutes _ (raise _) => apply commutes_raise
  | |- commutes _ (index _) => apply commutes_index
  | |- commutes _ (py_assert _ _) => apply commutes_assert
  | |- commutes _ (modify _) =>
      apply commutes_modify; intros ?; reflexivity
  | |- commutes _ (if ?b then _ else _) => destruct b
  | |- commutes _ (match ?x with _ => _ end) => destruct x
  end.

Ltac commute IH :=
  repeat first
    [ apply IH
    | commute_step
    | progress (unfold one_step, reach, proj_x_admissible, greedy_step;
                unfold_actions; cbv zeta) ].

Lemma backward_loop_commutes_I0 v eps k init :
  commutes (set_I0 v) (backward_loop eps k init).
Proof.
  revert init. induction k as [|i IH]; intros init; cbn [backward_loop];
    commute IH.
Qed.

Lemma forward_loop_commutes_IN v n i :
  commutes (set_IN v) (forward_loop n i).
Proof.
  revert i. induction n as [|n IH]; intros i; cbn [forward_loop];
    commute IH.
Qed.

(** X13. The backward sweep does not depend on the start interval, nor
    the forward sweep on the goal interval: run on an object whose [I0]
    (respectively [IN]) has been replaced, the sweep gives the same answer
    and the same final object, up to that replacement. *)
Theorem sweeps_ignore_other_interval eps v :
  commutes (set_I0 v) (solve_controllable_sets eps) /\
  commutes (set_IN v) solve_reachable_sets.
Proof.
  split.
  - unfold solve_controllable_sets. commute (backward_loop_commutes_I0 v eps).
  - unfold solve_reachable_sets. commute (forward_loop_commutes_IN v).
Qed.

(** ** What [save_solutions] changes *)

Lemma agree_bind {X Y} n0 y (m1 m2 : M X) (k1 k2 : X -> M Y) :
  agree_up_to_solutions n0 y m1 m2 ->
  (forall x, agree_up_to_solutions n0 y (k1 x) (k2 x)) ->
  agree_up_to_solutions n0 y (m1 ≫= k1) (m2 ≫= k2).
Proof.
  intros Hm Hk s t HN Hl.
  destruct (Hm s t HN Hl) as (t1 & Hl1 & HN1 & E1).
  rewrite !bind_run, E1.
  destruct (m2 s) as [[x|e] s1]; simpl in *; [by apply Hk|eauto].
Qed.

Lemma agree_same {X} n0 y (m : M X) :
  (forall t, commutes (with_solutions t y) m) -> preserves N m ->
  agree_up_to_solutions n0 y m m.
Proof.
  intros Hc Hp s t HN Hl. exists t. split; [done|].
  split; [|apply Hc].
  destruct (m s) as [r s1] eqn:E. simpl. by rewrite (Hp _ _ _ E).
Qed.

Lemma agree_get {X} n0 y (k1 k2 : solver -> M X) :
  (forall s t, N s = n0 -> length t = n0 ->
     agree_up_to_solutions n0 y (k1 (with_solutions t y s)) (k2 s)) ->
  agree_up_to_solutions n0 y (get ≫= k1) (get ≫= k2).
Proof.
  intros Hk s t HN Hl. rewrite !bind_run. cbn [get].
  by apply Hk.
Qed.

Lemma agree_save n0 y i :
  i < n0 ->
  agree_up_to_solutions n0 y
    (save_solution true i) (save_solution false i).
Proof.
  intros Hi s t HN Hl. exists (<[i := _xfull s]> t).
  split; [by rewrite length_insert|]. split; [done|].
  unfold save_solution. rewrite bind_run. cbn [get].
  rewrite bind_run. unfold with_solutions.
  cbn [_xfulls _xfull set_xfulls set_yfulls].
  unfold set1. by rewrite decide_True by lia.
Qed.

Lemma backward_loop_commutes_solutions t y eps k init :
  commutes (with_solutions t y) (backward_loop eps k init).
Proof.
  unfold with_solutions.
  revert init. induction k as [|i IH]; intros init; cbn [backward_loop];
    commute IH.
Qed.

Lemma solve_controllable_sets_commutes_solutions t y eps :
  commutes (with_solutions t y) (solve_controllable_sets eps).
Proof.
  pose proof (backward_loop_commutes_solutions t y eps) as IH.
  unfold with_solutions in *.
  unfold solve_controllable_sets. commute IH.
Qed.

Lemma solve_controllable_sets_N eps :
  preserves N (solve_controllable_sets eps).
Proof.
  intros s r s' E.
  pose proof (solve_controllable_sets_static _ _ _ _ E) as Hst.
  unfold static in Hst. by injection Hst.
Qed.

Ltac agree_leaf :=
  apply agree_same;
    [intros ?; unfold with_solutions; commute (@commutes_ret unit)
    |frame_sweep (@preserves_get nat)].

Ltac agree_step IH :=
  lazymatch goal with
  | |- agree_up_to_solutions _ _ (save_solution _ _) _ =>
      apply agree_save; lia
  | |- agree_up_to_solutions _ _ (topp_loop _ _ _ _ _ _) _ =>
      apply IH; lia
  | |- agree_up_to_solutions _ _ (_ ≫= _) (_ ≫= _) =>
      apply agree_bind; [|intros ?]
  | |- _ => agree_leaf
  end.

Lemma topp_loop_agree reg n0 y n i us xs :
  i + n <= n0 ->
  agree_up_to_solutions n0 y
    (topp_loop true reg n i us xs) (topp_loop false reg n i us xs).
Proof.
  revert i us xs. induction n as [|n IH]; intros i us xs Hn;
    cbn [topp_loop].
  - agree_leaf.
  - repeat agree_step IH.
Qed.

Lemma forward_pass_agree reg n0 y :
  agree_up_to_solutions n0 y
    (forward_pass true reg) (forward_pass false reg).
Proof.
  unfold forward_pass. apply agree_get. intros s t HN Hl. cbv zeta.
  unfold with_solutions. cbn [N I0 set_xfulls set_yfulls].
  repeat agree_step (topp_loop_agree reg n0 y).
Qed.

(** X14. [save_solutions] changes nothing but the stored solutions: with
    and without it, [solve_topp] run from the same object returns the same
    arrays or raises the same exception, and leaves objects that differ
    in [_xfulls] and [_yfulls] only; [_yfulls] is the array [np.empty]
    returned, never written. *)
Theorem save_solutions_only_stores reg s :
  exists t,
    length t = N s /\
    solve_topp true reg s
      = ((solve_topp false reg s).1,
         with_solutions t (np_empty (N s) (nC s))
           (solve_topp false reg s).2).
Proof.
  rewrite !solve_topp_run.
  change (alloc_solutions true s)
    with (with_solutions (np_empty (N s) (nV s)) (np_empty (N s) (nC s)) s).
  change (alloc_solutions false s) with s.
  assert (Hag : forall (m1 m2 : M (vec * vec)) t0 y,
             agree_up_to_solutions (N s) y m1 m2 -> length t0 = N s ->
             exists t, length t = N s /\
               m1 (with_solutions t0 y s)
               = ((m2 s).1, with_solutions t y (m2 s).2)).
  { intros m1 m2 t0 y Hm Hl.
    destruct (Hm s t0 eq_refl Hl) as (t & Hlt & _ & E). eauto. }
  apply Hag; [|apply np_empty_length].
  apply agree_bind;
    [apply agree_same;
       [intros ?; apply solve_controllable_sets_commutes_solutions
       |apply solve_controllable_sets_N]
    |intros c].
  apply agree_bind; [agree_leaf|intros k0hi].
  apply agree_bind; [agree_leaf|intros k0lo].
  apply agree_get. intros s1 t1 HN Hl.
  unfold with_solutions. cbn [I0 set_xfulls set_yfulls].
  destruct (negb c || _); [agree_leaf|apply forward_pass_agree].
Qed.

(** ** A reset before a method that resets *)

Lemma zero_vec_idem v : zero_vec (zero_vec v) = zero_vec v.
Proof. unfold zero_vec. by rewrite <- list_fmap_compose. Qed.

Lemma zero_prefix_idem n v :
  zero_prefix n (zero_prefix n v) = zero_prefix n v.
Proof.
  unfold zero_prefix. apply list_eq. intros k.
  rewrite !list_lookup_imap. destruct (v !! k); [|done]. simpl.
  by case_decide.
Qed.

Lemma zero_rows_idem n m : zero_rows n (zero_rows n m) = zero_rows n m.
Proof.
  unfold zero_rows. apply list_eq. intros k.
  rewrite !list_lookup_imap. destruct (m !! k); [|done]. simpl.
  case_decide; [|done]. by rewrite zero_vec_idem.
Qed.

Lemma after_reset_idem s : after_reset (after_reset s) = after_reset s.
Proof.
  unfold after_reset. destruct s. proj_simpl. unfold set_g; simpl.
  rewrite zero_vec_idem. f_equal.
  - rewrite <- list_fmap_compose. apply list_fmap_ext.
    intros _ v _. apply zero_vec_idem.
  - rewrite <- list_fmap_compose. apply list_fmap_ext.
    intros _ v _. apply zero_prefix_idem.
  - rewrite <- list_fmap_compose. apply list_fmap_ext.
    intros _ v _. apply zero_prefix_idem.
  - rewrite <- list_fmap_compose. apply list_fmap_ext.
    intros _ v _. apply zero_rows_idem.
Qed.

Lemma reset_absorbed {X} (m : M X) (k : unit -> M X) s :
  m = reset_operational_rows ≫= k ->
  (reset_operational_rows ≫= fun _ => m) s = m s.
Proof.
  intros ->.
  rewrite (bind_run reset_operational_rows), reset_run. cbv iota beta.
  rewrite !(bind_run reset_operational_rows), !reset_run. cbv iota beta.
  by rewrite after_reset_idem.
Qed.

(** X15. The methods that begin with [reset_operational_rows]
    ([one_step], [greedy_step], [least_greedy_step] and the two sweeps)
    behave the same when the caller resets first: a reset followed by the
    method is the method, and a reset followed by a reset is a reset. *)
Theorem reset_redundant i x xmin xmax init reg eps s :
  (reset_operational_rows;; one_step i xmin xmax init) s
    = one_step i xmin xmax init s /\
  (reset_operational_rows;; greedy_step i x xmin xmax init reg) s
    = greedy_step i x xmin xmax init reg s /\
  (reset_operational_rows;; least_greedy_step i x xmin xmax init reg) s
    = least_greedy_step i x xmin xmax init reg s /\
  (reset_operational_rows;; solve_controllable_sets eps) s
    = solve_controllable_sets eps s /\
  (reset_operational_rows;; solve_reachable_sets) s
    = solve_reachable_sets s /\
  (reset_operational_rows;; reset_operational_rows) s
    = reset_operational_rows s.
Proof.
  split; [eapply reset_absorbed; unfold one_step; reflexivity|].
  split; [eapply reset_absorbed; unfold greedy_step; reflexivity|].
  split; [eapply reset_absorbed; unfold least_greedy_step; reflexivity|].
  split; [eapply reset_absorbed; unfold solve_controllable_sets; reflexivity|].
  split; [eapply reset_absorbed; unfold solve_reachable_sets; reflexivity|].
  rewrite bind_run, !reset_run. by rewrite after_reset_idem.
Qed.

(** ** The primitives and the stored sets *)

(** X16. The five primitives neither read nor write the stored sets [_K]
    and [_L] or the intervals [I0] and [IN]: run on an object in which one
    of these was replaced, a primitive gives the same result and the same
    final object up to that replacement. *)
Theorem primitives_ignore_bookkeeping f i x xmin xmax init reg :
  bookkeeping f ->
  commutes f (one_step i xmin xmax init) /\
  commutes f (reach i xmin xmax init) /\
  commutes f (proj_x_admissible i xmin xmax init) /\
  commutes f (greedy_step i x xmin xmax init reg) /\
  commutes f (least_greedy_step i x xmin xmax init reg).
Proof.
  intros [[k ->]|[[k ->]|[[v ->]|[v ->]]]];
    (split; [unfold one_step; commute (@commutes_ret unit)|]);
    (split; [unfold reach; commute (@commutes_ret unit)|]);
    (split; [unfold proj_x_admissible; commute (@commutes_ret unit)|]);
    (split; [unfold greedy_step; commute (@commutes_ret unit)|]);
    unfold least_greedy_step; commute (@commutes_ret unit).
Qed.

(** ** Regularisation without slack variables *)

Lemma agree0_bind {X Y} (m1 m2 : M X) (k1 k2 : X -> M Y) :
  agree_without_slack m1 m2 ->
  (forall x, agree_without_slack (k1 x) (k2 x)) ->
  agree_without_slack (m1 ≫= k1) (m2 ≫= k2).
Proof.
  intros Hm Hk s Hs. destruct (Hm s Hs) as [E Hnv].
  rewrite !bind_run, E.
  destruct (m2 s) as [[x|e] s1]; simpl in *; [by apply Hk|done].
Qed.

Lemma agree0_same {X} (m : M X) :
  preserves nv m -> agree_without_slack m m.
Proof.
  intros Hp s Hs. split; [done|].
  destruct (m s) as [r s1] eqn:E. simpl. by rewrite (Hp _ _ _ E).
Qed.

Lemma agree0_regularize reg reg' :
  agree_without_slack (regularize reg) (regularize reg').
Proof.
  intros s Hs. unfold regularize. rewrite !bind_run. cbn [get].
  by rewrite !decide_True by done.
Qed.

Ltac agree0_step IH :=
  lazymatch goal with
  | |- agree_without_slack (regularize _) _ => apply agree0_regularize
  | |- agree_without_slack (topp_loop _ _ _ _ _ _) _ => apply IH
  | |- agree_without_slack (greedy_step _ _ _ _ _ _) _ => apply IH
  | |- agree_without_slack (forward_pass _ _) _ => apply IH
  | |- agree_without_slack (_ ≫= _) (_ ≫= _) =>
      apply agree0_bind; [|intros ?]
  | |- agree_without_slack (if ?b then _ else _) _ => destruct b
  | |- _ => apply agree0_same; frame_sweep (@preserves_get nat)
  end.

Lemma greedy_step_reg i x xmin xmax init reg reg' :
  agree_without_slack (greedy_step i x xmin xmax init reg)
    (greedy_step i x xmin xmax init reg').
Proof. unfold greedy_step. repeat agree0_step (@agree0_regularize). Qed.

Lemma least_greedy_step_reg i x xmin xmax init reg reg' :
  agree_without_slack (least_greedy_step i x xmin xmax init reg)
    (least_greedy_step i x xmin xmax init reg').
Proof.
  unfold least_greedy_step. repeat agree0_step (@agree0_regularize).
Qed.

Lemma topp_loop_reg save reg reg' n i us xs :
  agree_without_slack (topp_loop save reg n i us xs)
    (topp_loop save reg' n i us xs).
Proof.
  revert i us xs. induction n as [|n IH]; intros i us xs; cbn [topp_loop].
  - apply agree0_same. frame.
  - repeat first [apply IH | apply greedy_step_reg
                 | agree0_step (@agree0_regularize)].
Qed.

Lemma solve_controllable_sets_nv eps :
  preserves nv (solve_controllable_sets eps).
Proof.
  intros s r s' E.
  pose proof (solve_controllable_sets_static _ _ _ _ E) as Hst.
  unfold static in Hst. by injection Hst.
Qed.

(** X17. Without slack variables ([nv = 0]) the regularisation gain has
    no effect: [greedy_step], [least_greedy_step] and [solve_topp] give
    the same result and the same final object for any two values of
    [reg]. *)
Theorem reg_without_slack i x xmin xmax init save reg reg' s :
  nv s = 0 ->
  greedy_step i x xmin xmax init reg s
    = greedy_step i x xmin xmax init reg' s /\
  least_greedy_step i x xmin xmax init reg s
    = least_greedy_step i x xmin xmax init reg' s /\
  solve_topp save reg s = solve_topp save reg' s.
Proof.
  intros Hs.
  split; [by apply greedy_step_reg|].
  split; [by apply least_greedy_step_reg|].
  assert (agree_without_slack (solve_topp save reg) (solve_topp save reg'))
    as Hag; [|by apply Hag].
  unfold solve_topp, forward_pass.
  repeat first
    [ apply topp_loop_reg | apply greedy_step_reg
    | lazymatch goal with
      | |- agree_without_slack (solve_controllable_sets _) _ =>
          apply agree0_same, solve_controllable_sets_nv
      end
    | agree0_step (@agree0_regularize) ].
Qed.

(** ** The problems a primitive poses *)

Lemma call_up_run init i s :
  call_up init i s =
    match problem_at s i with
    | Some p => ((Ok (qp_solve init (solver_up s) p).1),
                 set_solver_up (qp_solve init (solver_up s) p).2 s)
    | None => (Raise IndexError, s)
    end.
Proof.
  unfold call_up, stage_problem. cbv [mbind M_bind get].
  by destruct (problem_at s i).
Qed.

Lemma call_down_run init i s :
  call_down init i s =
    match problem_at s i with
    | Some p => ((Ok (qp_solve init (solver_down s) p).1),
                 set_solver_down (qp_solve init (solver_down s) p).2 s)
    | None => (Raise IndexError, s)
    end.
Proof.
  unfold call_down, stage_problem. cbv [mbind M_bind get].
  by destruct (problem_at s i).
Qed.

Lemma ss_at_run i s :
  ss_at i s =
    match ss s !! i with
    | Some v => (Ok v, s)
    | None => (Raise IndexError, s)
    end.
Proof.
  unfold ss_at. rewrite get_bind_run. cbv beta. by destruct (ss s !! i).
Qed.

Lemma A_set_with i r c v s :
  A_set i r c v s =
    match with_A i r c v s with
    | Some s1 => (Ok tt, s1)
    | None => (Raise IndexError, s)
    end.
Proof.
  rewrite A_set_run. unfold with_A. by destruct (set3 _ _ _ _ _).
Qed.

Lemma lA_set_with i r v s :
  lA_set i r v s =
    match with_lA i r v s with
    | Some s1 => (Ok tt, s1)
    | None => (Raise IndexError, s)
    end.
Proof.
  rewrite lA_set_run. unfold with_lA. by destruct (set2 _ _ _ _).
Qed.

Lemma hA_set_with i r v s :
  hA_set i r v s =
    match with_hA i r v s with
    | Some s1 => (Ok tt, s1)
    | None => (Raise IndexError, s)
    end.
Proof.
  rewrite hA_set_run. unfold with_hA. by destruct (set2 _ _ _ _).
Qed.

Lemma g_set_with k v s :
  g_set k v s =
    match with_g k v s with
    | Some s1 => (Ok tt, s1)
    | None => (Raise IndexError, s)
    end.
Proof.
  rewrite g_set_run. unfold with_g. by destruct (set1 _ _ _).
Qed.

Lemma with_A_ss i r c v s s1 : with_A i r c v s = Some s1 -> ss s1 = ss s.
Proof. unfold with_A. destruct (set3 _ _ _ _ _); by intros [= <-]. Qed.

Lemma with_lA_ss i r v s s1 : with_lA i r v s = Some s1 -> ss s1 = ss s.
Proof. unfold with_lA. destruct (set2 _ _ _ _); by intros [= <-]. Qed.

Lemma with_hA_ss i r v s s1 : with_hA i r v s = Some s1 -> ss s1 = ss s.
Proof. unfold with_hA. destruct (set2 _ _ _ _); by intros [= <-]. Qed.

Lemma with_g_ss k v s s1 : with_g k v s = Some s1 -> ss s1 = ss s.
Proof. unfold with_g. destruct (set1 _ _ _); by intros [= <-]. Qed.

(** Runs a primitive one action at a time along the settings recorded in
    [Hp]; [out] closes the branch where a subscript is out of range. *)
Ltac split_on Hp o out :=
  let E := fresh "Eo" in
  destruct o eqn:E; rewrite ?E in Hp; cbn [mbind option_bind] in Hp;
  [|out]; cbv iota beta.

Ltac grid_back :=
  cbn [ss set_solver_up set_solver_down after_reset set_A set_lA set_hA
       set_H set_g];
  repeat match goal with
    | H : with_A _ _ _ _ _ = Some ?b |- context [ss ?b] =>
        rewrite (with_A_ss _ _ _ _ _ _ H)
    | H : with_lA _ _ _ _ = Some ?b |- context [ss ?b] =>
        rewrite (with_lA_ss _ _ _ _ _ H)
    | H : with_hA _ _ _ _ = Some ?b |- context [ss ?b] =>
        rewrite (with_hA_ss _ _ _ _ _ H)
    | H : with_g _ _ _ = Some ?b |- context [ss ?b] =>
        rewrite (with_g_ss _ _ _ _ H)
    | |- _ =>
        progress cbn [ss set_solver_up set_solver_down after_reset set_A
                      set_lA set_hA set_H set_g]
    end.

Ltac exec_step Hp out :=
  rewrite bind_run;
  first
    [ rewrite A_set_with;
      lazymatch goal with
      | |- context [match with_A ?i ?r ?c ?v ?s with _ => _ end] =>
          split_on Hp (with_A i r c v s) out
      end
    | rewrite lA_set_with;
      lazymatch goal with
      | |- context [match with_lA ?i ?r ?v ?s with _ => _ end] =>
          split_on Hp (with_lA i r v s) out
      end
    | rewrite hA_set_with;
      lazymatch goal with
      | |- context [match with_hA ?i ?r ?v ?s with _ => _ end] =>
          split_on Hp (with_hA i r v s) out
      end
    | rewrite g_set_with;
      lazymatch goal with
      | |- context [match with_g ?k ?v ?s with _ => _ end] =>
          split_on Hp (with_g k v s) out
      end
    | first [rewrite call_up_run | rewrite call_down_run];
      lazymatch goal with
      | |- context [match problem_at ?s ?i with _ => _ end] =>
          split_on Hp (problem_at s i) out
      end
    | rewrite ss_at_run; grid_back;
      match goal with
      | H : ss _ !! _ = Some _ |- _ => rewrite H
      end; cbv iota beta
    | rewrite reset_run; cbv iota beta ].

Ltac unfold_posed Hp :=
  unfold pose_two, one_step_up, one_step_down, reach_up, reach_down,
    proj_up, proj_down, with_row0 in Hp;
  cbv zeta in Hp.

Lemma reach_run i xmin xmax init s s1 s0 st_up st_dn s2 :
  ss s !! (i + 1) = Some s1 -> ss s !! i = Some s0 ->
  pose_two init i (reach_up i xmin xmax (s1 - s0)) (reach_down (s1 - s0)) s
    = Some (st_up, st_dn, s2) ->
  reach i xmin xmax init s
    = (Ok (if failed st_up st_dn then None
           else Some (getObjVal (solver_down s2),
                      (- getObjVal (solver_up s2))%float)), s2).
Proof.
  intros H1 H0 Hp. unfold reach. unfold_posed Hp.
  repeat exec_step Hp ltac:(discriminate Hp).
  injection Hp as <- <- <-. by destruct (failed _ _).
Qed.

Lemma one_step_run i xmin xmax init s s1 s0 st_up st_dn s2 :
  ss s !! (i + 1) = Some s1 -> ss s !! i = Some s0 ->
  pose_two init i (one_step_up i xmin xmax (s1 - s0)) one_step_down s
    = Some (st_up, st_dn, s2) ->
  one_step i xmin xmax init s
    = if failed st_up st_dn then (Ok None, s2)
      else (primal_up;; xmax_i ← xfull_at 1;
            primal_down;; xmin_i ← xfull_at 1;
            mret (Some (xmin_i, xmax_i))) s2.
Proof.
  intros H1 H0 Hp. unfold one_step. unfold_posed Hp.
  repeat exec_step Hp ltac:(discriminate Hp).
  injection Hp as <- <- <-. by destruct (failed _ _).
Qed.

Lemma proj_x_admissible_run i xmin xmax init s st_up st_dn s2 :
  pose_two init i (proj_up i xmin xmax) proj_down s
    = Some (st_up, st_dn, s2) ->
  proj_x_admissible i xmin xmax init s
    = if failed st_up st_dn
      then (match dict_get qpOASESReturnValueDict st_up with
            | Some _ => Ok None
            | None => Raise (KeyError st_up)
            end, s2)
      else (primal_up;; xmax_i ← xfull_at 1;
            primal_down;; xmin_i ← xfull_at 1;
            py_assert (py_le xmin_i (xmax_i + SUPERTINY)%float)
              proj_assert_msg;;
            mret (Some (xmin_i, if py_gt xmin_i xmax_i then xmin_i
                                else xmax_i))) s2.
Proof.
  intros Hp. unfold proj_x_admissible. unfold_posed Hp.
  repeat exec_step Hp ltac:(discriminate Hp).
  injection Hp as <- <- <-. destruct (failed _ _); [|done].
  by destruct (dict_get _ _).
Qed.

Lemma proj_x_admissible_out_of_range i xmin xmax init s :
  pose_two init i (proj_up i xmin xmax) proj_down s = None ->
  exists s', proj_x_admissible i xmin xmax init s = (Raise IndexError, s').
Proof.
  intros Hp. unfold proj_x_admissible. unfold_posed Hp.
  repeat exec_step Hp ltac:(eauto).
  discriminate Hp.
Qed.

(** The two reads of the [x] entry after successful solves. *)
Lemma read_primals s2 a b :
  getPrimalSolution (solver_down s2) !! 1 = Some a ->
  getPrimalSolution (solver_up s2) !! 1 = Some b ->
  (primal_up;; xmax_i ← xfull_at 1;
   primal_down;; xmin_i ← xfull_at 1;
   mret (Some (xmin_i, xmax_i))) s2
  = (Ok (Some (a, b)), set_xfull (getPrimalSolution (solver_down s2)) s2).
Proof.
  intros Ha Hb. unfold primal_up, primal_down, xfull_at.
  cbv [mbind M_bind get modify]. proj_simpl. rewrite Hb. cbv [index mret M_ret].
  proj_simpl. by rewrite Ha.
Qed.

Lemma read_primals_checked s2 a raw :
  getPrimalSolution (solver_down s2) !! 1 = Some a ->
  getPrimalSolution (solver_up s2) !! 1 = Some raw ->
  py_le a (raw + SUPERTINY)%float = true ->
  (primal_up;; xmax_i ← xfull_at 1;
   primal_down;; xmin_i ← xfull_at 1;
   py_assert (py_le xmin_i (xmax_i + SUPERTINY)%float) proj_assert_msg;;
   mret (Some (xmin_i, if py_gt xmin_i xmax_i then xmin_i else xmax_i))) s2
  = (Ok (Some (a, if py_gt a raw then a else raw)),
     set_xfull (getPrimalSolution (solver_down s2)) s2).
Proof.
  intros Ha Hb Hle. unfold primal_up, primal_down, xfull_at.
  cbv [mbind M_bind get modify]. proj_simpl. rewrite Hb. cbv [index mret M_ret].
  proj_simpl. rewrite Ha. by rewrite Hle.
Qed.

(** C7. [reach] takes its interval from the objective values: with
    [d = ss[i+1] - ss[i]] (which is [Ds[i]] as the constructor computes
    it), the up solver is posed the stage problem with row [0] set to
    [x] between [xmin] and [xmax] and [g[0] = -2 * d], [g[1] = -1], the
    down solver the same problem with [g[0] = 2 * d], [g[1] = 1], and when
    both succeed the result is [(objDown, -objUp)].  [one_step] and
    [proj_x_admissible] pose their two problems and, when both succeed,
    return the [x] entries of the two primal solutions. *)
Theorem reach_reads_objective i xmin xmax init s st_up st_dn s2 :
  (forall s1 s0,
     ss s !! (i + 1) = Some s1 -> ss s !! i = Some s0 ->
     pose_two init i (reach_up i xmin xmax (s1 - s0))
       (reach_down (s1 - s0)) s = Some (st_up, st_dn, s2) ->
     (Ds s = zip_with PrimFloat.sub (drop 1 (ss s)) (ss s) ->
      Ds s !! i = Some (s1 - s0)%float) /\
     reach i xmin xmax init s
       = (Ok (if failed st_up st_dn then None
              else Some (getObjVal (solver_down s2),
                         (- getObjVal (solver_up s2))%float)), s2)) /\
  (forall s1 s0,
     ss s !! (i + 1) = Some s1 -> ss s !! i = Some s0 ->
     pose_two init i (one_step_up i xmin xmax (s1 - s0)) one_step_down s
       = Some (st_up, st_dn, s2) ->
     (failed st_up st_dn = true ->
      one_step i xmin xmax init s = (Ok None, s2)) /\
     (failed st_up st_dn = false ->
      forall a b,
        getPrimalSolution (solver_down s2) !! 1 = Some a ->
        getPrimalSolution (solver_up s2) !! 1 = Some b ->
        one_step i xmin xmax init s
          = (Ok (Some (a, b)),
             set_xfull (getPrimalSolution (solver_down s2)) s2))) /\
  (pose_two init i (proj_up i xmin xmax) proj_down s
     = Some (st_up, st_dn, s2) ->
   failed st_up st_dn = false ->
   forall a raw,
     getPrimalSolution (solver_down s2) !! 1 = Some a ->
     getPrimalSolution (solver_up s2) !! 1 = Some raw ->
     py_le a (raw + SUPERTINY)%float = true ->
     proj_x_admissible i xmin xmax init s
       = (Ok (Some (a, if py_gt a raw then a else raw)),
          set_xfull (getPrimalSolution (solver_down s2)) s2)).
Proof.
  split; [|split].
  - intros s1 s0 H1 H0 Hp. split; [intros ->; by apply Ds_lookup|].
    exact (reach_run _ _ _ _ _ _ _ _ _ _ H1 H0 Hp).
  - intros s1 s0 H1 H0 Hp.
    rewrite (one_step_run _ _ _ _ _ _ _ _ _ _ H1 H0 Hp).
    split; [by intros ->|]. intros -> a b Ha Hb. by apply read_primals.
  - intros Hp F a raw Ha Hb Hle.
    rewrite (proj_x_admissible_run _ _ _ _ _ _ _ _ Hp), F.
    by apply read_primals_checked.
Qed.

(** X4. [proj_x_admissible] with all subscripts in range poses its two
    problems; when a solve fails it returns [(None, None)] if the status
    of the upper solve is a key of [qpOASESReturnValueDict] and raises a
    key error carrying that status if it is not (the dictionary lookup of
    the warning).  No other run returns [(None, None)] or raises a key
    error. *)
Theorem proj_x_admissible_status i xmin xmax init s :
  (forall st_up st_dn s2,
     pose_two init i (proj_up i xmin xmax) proj_down s
       = Some (st_up, st_dn, s2) ->
     failed st_up st_dn = true ->
     proj_x_admissible i xmin xmax init s
       = (match dict_get qpOASESReturnValueDict st_up with
          | Some _ => Ok None
          | None => Raise (KeyError st_up)
          end, s2)) /\
  (forall res s',
     proj_x_admissible i xmin xmax init s = (res, s') ->
     res = Ok None \/ (exists k, res = Raise (KeyError k)) ->
     exists st_up st_dn,
       pose_two init i (proj_up i xmin xmax) proj_down s
         = Some (st_up, st_dn, s') /\
       failed st_up st_dn = true /\
       res = match dict_get qpOASESReturnValueDict st_up with
             | Some _ => Ok None
             | None => Raise (KeyError st_up)
             end).
Proof.
  split.
  - intros st_up st_dn s2 Hp F.
    by rewrite (proj_x_admissible_run _ _ _ _ _ _ _ _ Hp), F.
  - intros res s' E Hres.
    destruct (pose_two init i (proj_up i xmin xmax) proj_down s)
      as [[[st_up st_dn] s2]|] eqn:Hp.
    + rewrite (proj_x_admissible_run _ _ _ _ _ _ _ _ Hp) in E.
      destruct (failed st_up st_dn) eqn:F.
      * injection E as <- <-. eauto.
      * exfalso. destruct Hres as [->|[k ->]].
        -- inv_run E. by apply ret_Ok in E as [? _].
        -- inv_key E. discriminate E.
    + exfalso.
      destruct (proj_x_admissible_out_of_range _ _ _ _ _ Hp) as (s1 & E').
      rewrite E' in E. destruct Hres as [->|[k ->]]; discriminate E.
Qed.

End Properties.

(** * Worked runs on the replaying backend *)



(** The backward sweep of the example is a sweep in the sense of C1. *)
Lemma solve_controllable_sets_sweep_witness :
  @solve_controllable_sets ReplayBackend default_eps ex_start
    = (Ok true, ex_swept) /\
  @controllable_sweep ReplayBackend default_eps ex_start ex_swept.
Proof.
  assert (Hrun : @solve_controllable_sets ReplayBackend default_eps ex_start
                 = (Ok true, ex_swept)) by (vm_compute; reflexivity).
  exact (conj Hrun (solve_controllable_sets_sweep _ _ _ Hrun)).
Defined.

(** With the start interval [[5, 5]] the check raises. *)
Lemma solve_topp_feasibility_check_witness :
  let s1 := (@solve_controllable_sets ReplayBackend default_eps ex_far).2 in
  @solve_controllable_sets ReplayBackend default_eps
      (alloc_solutions false ex_far) = (Ok true, s1) /\
  _K s1 !! 0 = Some (0%float, top) /\
  @solve_topp ReplayBackend false 0%float ex_far
    = (Raise (ValueError (topp_msg true true)), s1).
Proof.
  intros s1.
  assert (H1 : @solve_controllable_sets ReplayBackend default_eps
                 (alloc_solutions false ex_far) = (Ok true, s1))
    by (vm_compute; reflexivity).
  assert (H2 : _K s1 !! 0 = Some (0%float, top))
    by (vm_compute; reflexivity).
  refine (conj H1 (conj H2 _)).
  refine (proj1 (solve_topp_feasibility_check false 0%float ex_far true s1
                   0%float top H1 H2) _).
  right; left. vm_compute; reflexivity.
Defined.

(** C2.  The message of the feasibility check does not name the condition
    that held.  It prints [controllable] under the label [K(0) is empty]:
    with the start interval [[5, 5]] above a successful sweep's
    [K[0] = [0, top]] it reads [K(0) is empty : True], and after a failed
    sweep it reads [K(0) is empty : False].  It prints one flag for the two
    comparisons: [K_lo[0] > I0_hi] gives the message [K_hi[0] < I0_lo]
    gives.  And a [K[0]] stored as [[2, 2 - eps]], which is empty, passes
    the check: [solve_topp] returns its arrays. *)
Theorem solve_topp_check_message :
  let far := @solve_topp ReplayBackend false 0%float ex_far in
  let failed_sweep := @solve_topp ReplayBackend false 0%float ex_goal_out in
  let above := @solve_topp ReplayBackend false 0%float ex_above in
  let point := @solve_topp ReplayBackend false 0%float ex_point_set in
  let x0 := (2 - default_eps)%float in
  (@solve_controllable_sets ReplayBackend default_eps ex_far
     = (Ok true, far.2) /\
   _K far.2 !! 0 = Some (0%float, top) /\
   py_le 0%float top = true /\
   py_lt top (@I0 ReplayBackend ex_far).1 = true /\
   far.1 = Raise (ValueError
             (nl ++ "Unable to parameterizes this path:" ++ nl
              ++ "- K(0) is empty : True" ++ nl
              ++ "- sd_start not in K(0) : True" ++ nl)%string)) /\
  (@solve_controllable_sets ReplayBackend default_eps ex_goal_out
     = (Ok false, failed_sweep.2) /\
   K failed_sweep.2 = [] /\
   failed_sweep.1 = Raise (ValueError
             (nl ++ "Unable to parameterizes this path:" ++ nl
              ++ "- K(0) is empty : False" ++ nl
              ++ "- sd_start not in K(0) : True" ++ nl)%string)) /\
  (_K above.2 !! 0 = Some (1%float, top) /\
   py_lt top (@I0 ReplayBackend ex_above).1 = false /\
   py_gt 1%float (@I0 ReplayBackend ex_above).2 = true /\
   above.1 = far.1) /\
  (_K point.2 !! 0 = Some (2%float, x0) /\
   py_lt x0 2%float = true /\
   py_lt x0 (@I0 ReplayBackend ex_point_set).1 = false /\
   py_gt 2%float (@I0 ReplayBackend ex_point_set).2 = false /\
   point.1 = Ok ([0%float; 0%float], [x0; x0; x0])).
Proof.
  intros far failed_sweep above point x0.
  split; [|split; [|split]].
  - split; [vm_compute; reflexivity|].
    split; [vm_compute; reflexivity|].
    split; [vm_compute; reflexivity|].
    split; vm_compute; reflexivity.
  - split; [vm_compute; reflexivity|].
    split; vm_compute; reflexivity.
  - split; [vm_compute; reflexivity|].
    split; [vm_compute; reflexivity|].
    split; vm_compute; reflexivity.
  - split; [vm_compute; reflexivity|].
    split; [vm_compute; reflexivity|].
    split; [vm_compute; reflexivity|].
    split; vm_compute; reflexivity.
Qed.

(** C3, on the example whose last hot start stops: the greedy step of
    stage [1] returns [(None, None)], and [solve_topp] still returns its
    two arrays, with NaN in the places that step should have filled. *)
Theorem solve_topp_returns_after_failed_greedy_step :
  let s_end :=
    (@greedy_step ReplayBackend 1 top 0 0 false 0 ex_stopped_mid).2 in
  @greedy_step ReplayBackend 1 top 0 0 false 0 ex_stopped_mid
    = (Ok None, s_end) /\
  @solve_topp ReplayBackend false 0%float ex_stopped
    = (Ok ([top; nan], [0%float; top; nan]), s_end).
Proof. split; vm_compute; reflexivity. Qed.



(** The forward pass of the example is a pass in the sense of C5. *)
Lemma solve_topp_forward_pass_witness :
  let out := @solve_topp ReplayBackend false 0%float ex_start in
  out = (Ok ([top; (- top)%float], [0%float; top; 0%float]), out.2) /\
  exists s1,
    @solve_controllable_sets ReplayBackend default_eps
        (alloc_solutions false ex_start) = (Ok true, s1) /\
    greedy_forward false 0%float s1
      [top; (- top)%float] [0%float; top; 0%float] out.2.
Proof.
  intros out.
  assert (Hrun : out = (Ok ([top; (- top)%float], [0%float; top; 0%float]),
                        out.2)) by (vm_compute; reflexivity).
  exact (conj Hrun (solve_topp_forward_pass _ _ _ _ _ _ Hrun)).
Defined.

(** C6 where the two solves disagree by [1e-11]: the upper end is moved
    onto the lower one. *)
Lemma proj_x_admissible_ordered_witness :
  let out := @proj_x_admissible ReplayBackend 2 0 0 true ex_split in
  out = (Ok (Some (1e-11, 1e-11)%float), out.2) /\
  py_le 1e-11 1e-11 = true /\
  exists raw,
    getPrimalSolution (solver_down out.2) !! 1 = Some 1e-11%float /\
    getPrimalSolution (solver_up out.2) !! 1 = Some raw /\
    py_le 1e-11 (raw + SUPERTINY)%float = true /\
    1e-11%float = (if py_gt 1e-11 raw then 1e-11%float else raw).
Proof.
  intros out.
  assert (Hrun : out = (Ok (Some (1e-11, 1e-11)%float), out.2))
    by (vm_compute; reflexivity).
  exact (conj Hrun (proj_x_admissible_ordered _ _ _ _ _ _ _ Hrun)).
Defined.

(** C7 on the example: a reach step from [x = 0] at stage [0] returns the
    pair of objective values [(-100, 100)]; a one-step set at stage [1]
    and the terminal projection return the [x] entries of the primals. *)
Lemma reach_reads_objective_witness :
  let s_r :=
    match @pose_two ReplayBackend true 0 (reach_up 0 0 0 (0.5 - 0))
            (reach_down (0.5 - 0)) ex_reach with
    | Some (_, _, s2) => s2 | None => ex_reach end in
  let s_o :=
    match @pose_two ReplayBackend true 1 (one_step_up 1 0 0 (1 - 0.5))
            one_step_down ex_one with
    | Some (_, _, s2) => s2 | None => ex_one end in
  let s_p :=
    match @pose_two ReplayBackend true 2 (proj_up 2 0 0) proj_down
            ex_split with
    | Some (_, _, s2) => s2 | None => ex_split end in
  (@reach ReplayBackend 0 0 0 true ex_reach
     = (Ok (if failed 0 0 then None
            else Some (getObjVal (solver_down s_r),
                       (- getObjVal (solver_up s_r))%float)), s_r) /\
   getObjVal (solver_down s_r) = (-100)%float /\
   (- getObjVal (solver_up s_r))%float = 100%float) /\
  @one_step ReplayBackend 1 0 0 true ex_one
    = (Ok (Some (0, 4)%float),
       set_xfull (getPrimalSolution (solver_down s_o)) s_o) /\
  @proj_x_admissible ReplayBackend 2 0 0 true ex_split
    = (Ok (Some (1e-11, if py_gt 1e-11 0 then 1e-11 else 0)%float),
       set_xfull (getPrimalSolution (solver_down s_p)) s_p).
Proof.
  intros s_r s_o s_p.
  assert (Hr : @pose_two ReplayBackend true 0 (reach_up 0 0 0 (0.5 - 0))
                 (reach_down (0.5 - 0)) ex_reach
               = Some (0%Z, 0%Z, s_r)) by (vm_compute; reflexivity).
  assert (Ho : @pose_two ReplayBackend true 1 (one_step_up 1 0 0 (1 - 0.5))
                 one_step_down ex_one
               = Some (0%Z, 0%Z, s_o)) by (vm_compute; reflexivity).
  assert (Hp : @pose_two ReplayBackend true 2 (proj_up 2 0 0) proj_down
                 ex_split
               = Some (0%Z, 0%Z, s_p)) by (vm_compute; reflexivity).
  split; [split; [|split; vm_compute; reflexivity]|split].
  - exact (proj2 (proj1 (reach_reads_objective 0 0 0 true ex_reach 0 0 s_r)
                    0.5%float 0%float eq_refl eq_refl Hr)).
  - refine (proj2 (proj1 (proj2
              (reach_reads_objective 1 0 0 true ex_one 0 0 s_o))
              1%float 0.5%float eq_refl eq_refl Ho) eq_refl
              0%float 4%float _ _);
      vm_compute; reflexivity.
  - refine (proj2 (proj2
              (reach_reads_objective 2 0 0 true ex_split 0 0 s_p))
              Hp eq_refl 1e-11%float 0%float _ _ _);
      vm_compute; reflexivity.
Defined.

(** C8 on the interval [[-1, 2]]: rejected, object unchanged. *)
Lemma set_interval_validation_witness :
  py_lt (-1) 0 = true /\
  exists msg,
    @set_start_interval ReplayBackend (Array [-1; 2]%float) ex_fresh
      = (Raise (AssertionError msg), ex_fresh) /\
    @set_goal_interval ReplayBackend (Array [-1; 2]%float) ex_fresh
      = (Raise (AssertionError msg), ex_fresh).
Proof.
  assert (Hneg : py_lt (-1) 0 = true) by reflexivity.
  exact (conj Hneg
    (proj1 (proj2 (proj2
       (set_interval_validation (Array [-1; 2]%float) ex_fresh)))
       (-1)%float 2%float (or_introl eq_refl) (or_introl Hneg))).
Defined.

(** C9 on the warm-start greedy step of the example: the permanent
    blocks are as before. *)
Lemma operational_rows_frame_witness :
  let out := @greedy_step ReplayBackend 0 0 0 top true 0 ex_swept in
  @nop ReplayBackend ex_swept = 3 /\
  permanent out.2 = permanent ex_swept.
Proof.
  intros out.
  assert (Hnop : @nop ReplayBackend ex_swept = 3) by reflexivity.
  assert (Hrun : out = (out.1, out.2)) by (by destruct out).
  exact (conj Hnop
    (proj2 (proj2 (proj2
       (operational_rows_frame 0 0%float 0%float top true 0%float ex_swept)))
       Hnop out.1 out.2
       (or_intror (or_intror (or_intror (or_introl Hrun)))))).
Defined.



(** Further runs: an infeasible goal leaves [K] empty. *)
Example infeasible_goal_hides_all :
  @solve_controllable_sets ReplayBackend default_eps ex_goal_out
    = (Ok false,
       (@solve_controllable_sets ReplayBackend default_eps ex_goal_out).2) /\
  K (@solve_controllable_sets ReplayBackend default_eps ex_goal_out).2 = [].
Proof. split; vm_compute; reflexivity. Qed.

(** ** Worked runs for the further properties *)

(** X2 on the warm start of the example: the next state is [top]. *)
Lemma greedy_steps_nonnegative_witness :
  let out := @greedy_step ReplayBackend 0 0 0 top true 0 ex_swept in
  out = (Ok (Some (top, top)), out.2) /\ py_ge top 0%float = true.
Proof.
  intros out.
  assert (Hrun : out = (Ok (Some (top, top)), out.2))
    by (vm_compute; reflexivity).
  exact (conj Hrun
           (greedy_steps_nonnegative 0 0 0 top true 0 ex_swept top top out.2
              (or_introl Hrun))).
Defined.

(** X3 on the object with one slack variable. *)
Lemma least_greedy_step_row_width_witness :
  @A ReplayBackend ex_wide !! 0
    = Some [[0; 0; 0]; [0; 0; 0]; [0; 0; 0]; [0; 1; 0]]%float /\
  exists msg,
    @least_greedy_step ReplayBackend 0 0 0 4 true 0 ex_wide
      = (Raise (ValueError msg), after_reset ex_wide).
Proof.
  assert (HA : @A ReplayBackend ex_wide !! 0
               = Some [[0; 0; 0]; [0; 0; 0]; [0; 0; 0]; [0; 1; 0]]%float)
    by reflexivity.
  refine (conj HA _).
  refine (least_greedy_step_row_width 0 0 0 4 true 0 ex_wide _
            [0; 0; 0]%float HA _ _).
  - reflexivity.
  - simpl. lia.
Defined.

(** X4 where the upper solve stops with the unlisted status 64. *)
Lemma proj_x_admissible_status_witness :
  let s2 :=
    match @pose_two ReplayBackend true 2 (proj_up 2 0 0) proj_down
            ex_unlisted with
    | Some (_, _, s2) => s2 | None => ex_unlisted end in
  @pose_two ReplayBackend true 2 (proj_up 2 0 0) proj_down ex_unlisted
    = Some (64%Z, 0%Z, s2) /\
  failed 64 0 = true /\
  @proj_x_admissible ReplayBackend 2 0 0 true ex_unlisted
    = (Raise (KeyError 64), s2).
Proof.
  intros s2.
  assert (Hp : @pose_two ReplayBackend true 2 (proj_up 2 0 0) proj_down
                 ex_unlisted = Some (64%Z, 0%Z, s2))
    by (vm_compute; reflexivity).
  assert (F : failed 64 0 = true) by reflexivity.
  exact (conj Hp (conj F
           (proj1 (proj_x_admissible_status 2 0 0 true ex_unlisted) _ _ _ Hp F))).
Defined.

(** X8: the forward sweep of the example. *)
Lemma solve_reachable_sets_sweep_witness :
  let out := @solve_reachable_sets ReplayBackend ex_reachable in
  out = (Ok true, out.2) /\ reachable_sweep ex_reachable out.2.
Proof.
  intros out.
  assert (Hrun : out = (Ok true, out.2)) by (vm_compute; reflexivity).
  exact (conj Hrun (solve_reachable_sets_sweep _ _ Hrun)).
Defined.

(** X9 on the example: [xs[0] = 0] lies in [I0 = [0, 0]], below
    [K_hi[0] = top]. *)
Lemma solve_topp_start_state_witness :
  let out := @solve_topp ReplayBackend false 0%float ex_start in
  out = (Ok ([top; (- top)%float], [0%float; top; 0%float]), out.2) /\
  valid_interval (@I0 ReplayBackend ex_start) /\
  @_K ReplayBackend out.2 !! 0 = Some (0%float, top) /\
  is_number top /\
  exists x0,
    [0%float; top; 0%float] !! 0 = Some x0 /\
    py_le (@I0 ReplayBackend ex_start).1 x0 = true /\
    py_le x0 (@I0 ReplayBackend ex_start).2 = true /\
    py_le x0 top = true.
Proof.
  intros out.
  assert (Hrun : out = (Ok ([top; (- top)%float], [0%float; top; 0%float]),
                        out.2)) by (vm_compute; reflexivity).
  assert (Hv : valid_interval (@I0 ReplayBackend ex_start))
    by (split; vm_compute; reflexivity).
  assert (HK : @_K ReplayBackend out.2 !! 0 = Some (0%float, top))
    by (vm_compute; reflexivity).
  assert (Hn : is_number top) by (vm_compute; reflexivity).
  exact (conj Hrun (conj Hv (conj HK (conj Hn
           (solve_topp_start_state _ _ _ _ _ _ _ _ Hrun Hv HK Hn))))).
Defined.

(** X10 on the example: [N = 2], two controls and three states. *)
Lemma solve_topp_shapes_witness :
  let out := @solve_topp ReplayBackend false 0%float ex_start in
  out = (Ok ([top; (- top)%float], [0%float; top; 0%float]), out.2) /\
  length [top; (- top)%float] = @N ReplayBackend ex_start /\
  length [0%float; top; 0%float] = @N ReplayBackend ex_start + 1.
Proof.
  intros out.
  assert (Hrun : out = (Ok ([top; (- top)%float], [0%float; top; 0%float]),
                        out.2)) by (vm_compute; reflexivity).
  exact (conj Hrun (solve_topp_shapes _ _ _ _ _ _ Hrun)).
Defined.

(** X11 on the grid of one point. *)
Lemma solve_topp_single_point_witness :
  length (@_K ReplayBackend ex_point) <= 1 /\
  exists e s', @solve_topp ReplayBackend false 0%float ex_point
               = (Raise e, s').
Proof.
  assert (Hlen : length (@_K ReplayBackend ex_point) <= 1) by (simpl; lia).
  exact (conj Hlen (solve_topp_single_point false 0%float ex_point Hlen)).
Defined.

(** X12 on the example, solved with [save_solutions]. *)
Lemma solve_topp_saved_solutions_witness :
  let out := @solve_topp ReplayBackend true 0%float ex_start in
  out = (Ok ([top; (- top)%float], [0%float; top; 0%float]), out.2) /\
  _xfulls out.2 = [[top; 0%float]; [(- top)%float; top]] /\
  exists s1,
    @solve_controllable_sets ReplayBackend default_eps
        (alloc_solutions true ex_start) = (Ok true, s1) /\
    N s1 = @N ReplayBackend ex_start /\
    saved_rows 0%float s1 [0%float; top; 0%float] out.2.
Proof.
  intros out.
  assert (Hrun : out = (Ok ([top; (- top)%float], [0%float; top; 0%float]),
                        out.2)) by (vm_compute; reflexivity).
  assert (Hrows : _xfulls out.2 = [[top; 0%float]; [(- top)%float; top]])
    by (vm_compute; reflexivity).
  exact (conj Hrun (conj Hrows (solve_topp_saved_solutions _ _ _ _ _ Hrun))).
Defined.

(** X16 for a replacement of [_K] by the empty array. *)
Lemma primitives_ignore_bookkeeping_witness :
  bookkeeping (@set_K ReplayBackend []) /\
  commutes (@set_K ReplayBackend []) (one_step 0 0 4 true) /\
  commutes (@set_K ReplayBackend []) (reach 0 0 4 true) /\
  commutes (@set_K ReplayBackend []) (proj_x_admissible 0 0 4 true) /\
  commutes (@set_K ReplayBackend []) (greedy_step 0 0 0 4 true 0) /\
  commutes (@set_K ReplayBackend []) (least_greedy_step 0 0 0 4 true 0).
Proof.
  assert (Hb : bookkeeping (@set_K ReplayBackend []))
    by (left; eexists; reflexivity).
  exact (conj Hb
           (primitives_ignore_bookkeeping (@set_K ReplayBackend [])
              0 0 0 4 true 0 Hb)).
Defined.

(** X17 on the example, which has no slack variables. *)
Lemma reg_without_slack_witness :
  @nv ReplayBackend ex_start = 0 /\
  @greedy_step ReplayBackend 0 0 0 top true 0 ex_start
    = @greedy_step ReplayBackend 0 0 0 top true 1 ex_start /\
  @least_greedy_step ReplayBackend 0 0 0 top true 0 ex_start
    = @least_greedy_step ReplayBackend 0 0 0 top true 1 ex_start /\
  @solve_topp ReplayBackend false 0 ex_start
    = @solve_topp ReplayBackend false 1 ex_start.
Proof.
  assert (Hnv : @nv ReplayBackend ex_start = 0) by reflexivity.
  exact (conj Hnv
           (reg_without_slack 0 0 0 top true false 0 1 ex_start Hnv)).
Defined.

End TOPP.
